(** * otto/parser: the regular-expression transpiler, parse errors and positions

    A shallow embedding of [parser/regexp.go], [parser/error.go] and the
    position arithmetic of [parser/parser.go].

    - Go strings are byte strings: [gostring := list ascii].
    - [rune] and [int] values are [Z]; offsets are bounded by the length of
      the input, so they never wrap.  The one accumulator that can overflow
      ([value] in the octal branch of [scanEscape], an [int64]) is wrapped
      explicitly with [wrap64].
    - The parser struct is threaded through every method as an explicit
      state.  A method that loops takes a [fuel] argument and returns
      [option]: [None] stands for "fuel exhausted" or for a Go run-time
      panic (slice or index out of range).  The termination theorem of the
      transpiler shows that neither happens with the fuel
      [TransformRegExp] supplies. *)

From Stdlib Require Import ZArith List Ascii String Bool Lia.
Import ListNotations.
Local Open Scope Z_scope.

(** ** Go strings and bytes *)

Definition gostring := list ascii.

Definition bytes (s : string) : gostring := list_ascii_of_string s.

Definition len {A : Type} (l : list A) : Z := Z.of_nat (List.length l).

(** [int(b)] / [rune(b)] of a byte. *)
Definition byteZ (b : ascii) : Z := Z.of_N (N_of_ascii b).

(** [byte(z)]: conversion to a byte truncates to the low eight bits. *)
Definition byte_of_Z (z : Z) : ascii := ascii_of_N (Z.to_N (z mod 256)).

(** A rune literal such as ['('] in the Go source. *)
Definition rune (a : ascii) : Z := byteZ a.

(** [s[i]]; the callers guard the index, [None] is the run-time panic. *)
Definition index (s : gostring) (i : Z) : option ascii :=
  if (0 <=? i) && (i <? len s) then nth_error s (Z.to_nat i) else None.

(** [s[i]] under a guard [i < len(s)] that is visible at the call site. *)
Definition byteAt (s : gostring) (i : Z) : Z :=
  byteZ (nth (Z.to_nat i) s zero).

(** [s[lo:hi]]; [None] is the run-time panic "slice bounds out of range". *)
Definition slice (s : gostring) (lo hi : Z) : option gostring :=
  if (0 <=? lo) && (lo <=? hi) && (hi <=? len s)
  then Some (firstn (Z.to_nat (hi - lo)) (skipn (Z.to_nat lo) s))
  else None.

(** [s[lo:]] *)
Definition sliceFrom (s : gostring) (lo : Z) : option gostring :=
  slice s lo (len s).

Definition wrap64 (z : Z) : Z :=
  (z + 2 ^ 63) mod 2 ^ 64 - 2 ^ 63.

Definition wrap32u (z : Z) : Z := z mod 2 ^ 32.

Declare Scope opt_scope.
Notation "x <- e ;; k" :=
  (match e with Some x => k | None => None end)
  (at level 61, e at next level, right associativity) : opt_scope.
Notation "' p <- e ;; k" :=
  (match e with Some p => k | None => None end)
  (at level 61, p pattern, e at next level, right associativity) : opt_scope.
Local Open Scope opt_scope.

(** ** Go's [unicode/utf8] *)

Module utf8.

Definition RuneError : Z := 65533.   (* U+FFFD *)
Definition RuneSelf  : Z := 128.
Definition MaxRune   : Z := 1114111. (* U+10FFFF *)

Definition surrogateMin : Z := 55296. (* 0xD800 *)
Definition surrogateMax : Z := 57343. (* 0xDFFF *)

Definition maskx : Z := 63.  (* 0b00111111 *)
Definition mask2 : Z := 31.  (* 0b00011111 *)
Definition mask3 : Z := 15.  (* 0b00001111 *)
Definition mask4 : Z := 7.   (* 0b00000111 *)

Definition tx : Z := 128.    (* 0b10000000 *)
Definition t2 : Z := 192.    (* 0b11000000 *)
Definition t3 : Z := 224.    (* 0b11100000 *)
Definition t4 : Z := 240.    (* 0b11110000 *)

Definition rune1Max : Z := 127.
Definition rune2Max : Z := 2047.
Definition rune3Max : Z := 65535.

Definition locb : Z := 128.  (* 0b10000000 *)
Definition hicb : Z := 191.  (* 0b10111111 *)

(** The [first] table: information about the first byte of an encoding.
  [xx] invalid, [as_] ASCII; otherwise the low nibble is the size and
  the high nibble selects the accept range of the second byte. *)
Definition xx  : Z := 241. (* 0xF1 *)
Definition as_ : Z := 240. (* 0xF0 *)
Definition s1  : Z := 2.   (* 0x02 *)
Definition s2  : Z := 19.  (* 0x13 *)
Definition s3  : Z := 3.   (* 0x03 *)
Definition s4  : Z := 35.  (* 0x23 *)
Definition s5  : Z := 52.  (* 0x34 *)
Definition s6  : Z := 4.   (* 0x04 *)
Definition s7  : Z := 68.  (* 0x44 *)

Definition first (b : Z) : Z :=
  if b <? 128 then as_            (* 0x00-0x7F *)
  else if b <? 194 then xx        (* 0x80-0xC1 *)
  else if b <? 224 then s1        (* 0xC2-0xDF *)
  else if b =? 224 then s2        (* 0xE0 *)
  else if b <? 237 then s3        (* 0xE1-0xEC *)
  else if b =? 237 then s4        (* 0xED *)
  else if b <? 240 then s3        (* 0xEE-0xEF *)
  else if b =? 240 then s5        (* 0xF0 *)
  else if b <? 244 then s6        (* 0xF1-0xF3 *)
  else if b =? 244 then s7        (* 0xF4 *)
  else xx.                        (* 0xF5-0xFF *)

(** [acceptRanges]: the [(lo, hi)] bounds of the second byte. *)
Definition acceptRanges (i : Z) : Z * Z :=
  if i =? 0 then (locb, hicb)
  else if i =? 1 then (160, hicb)   (* 0xA0 *)
  else if i =? 2 then (locb, 159)   (* 0x9F *)
  else if i =? 3 then (144, hicb)   (* 0x90 *)
  else if i =? 4 then (locb, 143)   (* 0x8F *)
  else (0, 0).

Definition DecodeRuneInString (s : gostring) : Z * Z :=
  match s with
  | [] => (RuneError, 0)
  | b0 :: _ =>
    let s0 := byteZ b0 in
    let x := first s0 in
    if x >=? as_ then
      (if x =? xx then RuneError else s0, 1)
    else
      let sz := Z.land x 7 in
      let '(lo, hi) := acceptRanges (Z.shiftr x 4) in
      if len s <? sz then (RuneError, 1)
      else
        let s1 := byteAt s 1 in
        if (s1 <? lo) || (hi <? s1) then (RuneError, 1)
        else if sz <=? 2 then
          (Z.lor (Z.shiftl (Z.land s0 mask2) 6) (Z.land s1 maskx), 2)
        else
          let s2 := byteAt s 2 in
          if (s2 <? locb) || (hicb <? s2) then (RuneError, 1)
          else if sz <=? 3 then
            (Z.lor (Z.lor (Z.shiftl (Z.land s0 mask3) 12)
                          (Z.shiftl (Z.land s1 maskx) 6))
                   (Z.land s2 maskx), 3)
          else
            let s3 := byteAt s 3 in
            if (s3 <? locb) || (hicb <? s3) then (RuneError, 1)
            else
              (Z.lor (Z.lor (Z.lor (Z.shiftl (Z.land s0 mask4) 18)
                                   (Z.shiftl (Z.land s1 maskx) 12))
                            (Z.shiftl (Z.land s2 maskx) 6))
                     (Z.land s3 maskx), 4)
  end.

(** [AppendRune(nil, r)]: the UTF-8 encoding of [r]; runes out of range
  and surrogates are encoded as [RuneError]. *)
Definition encode3 (r : Z) : gostring :=
  [ byte_of_Z (Z.lor t3 (Z.shiftr r 12));
    byte_of_Z (Z.lor tx (Z.land (Z.shiftr r 6) maskx));
    byte_of_Z (Z.lor tx (Z.land r maskx)) ].

Definition EncodeRune (r : Z) : gostring :=
  if (0 <=? r) && (r <=? rune1Max) then [ byte_of_Z r ]
  else if (0 <=? r) && (r <=? rune2Max) then
    [ byte_of_Z (Z.lor t2 (Z.shiftr r 6));
      byte_of_Z (Z.lor tx (Z.land r maskx)) ]
  else if (r <? 0) || (MaxRune <? r)
          || ((surrogateMin <=? r) && (r <=? surrogateMax)) then
    encode3 RuneError
  else if r <=? rune3Max then encode3 r
  else
    [ byte_of_Z (Z.lor t4 (Z.shiftr r 18));
      byte_of_Z (Z.lor tx (Z.land (Z.shiftr r 12) maskx));
      byte_of_Z (Z.lor tx (Z.land (Z.shiftr r 6) maskx));
      byte_of_Z (Z.lor tx (Z.land r maskx)) ].

End utf8.

(** ** Go's [strconv] and the [%d] verb of [fmt] *)

Module strconv.

(** The digit table ["0123456789abcdefghijklmnopqrstuvwxyz"], restricted
    to the bases used here (10 and 16). *)
Definition digit (d : Z) : ascii :=
  if d <? 10 then byte_of_Z (rune "0" + d) else byte_of_Z (rune "a" + (d - 10)).

(** [formatBits] for an unsigned value: most significant digit first.
    A 64-bit value has at most 64 digits in any base, which bounds the
    loop. *)
Fixpoint formatBits (n : nat) (u base : Z) (acc : gostring) : gostring :=
  match n with
  | O => acc
  | S n' =>
    if u <? base then digit u :: acc
    else formatBits n' (u / base) base (digit (u mod base) :: acc)
  end.

(** [FormatInt(i, base)] for an [int64]: a leading [-] and the digits of
    the magnitude. *)
Definition FormatInt (i base : Z) : gostring :=
  if i <? 0 then "-"%char :: formatBits 64 (- i) base []
  else formatBits 64 i base [].

(** [AppendInt(dst, i, base)] *)
Definition AppendInt (dst : gostring) (i base : Z) : gostring :=
  dst ++ FormatInt i base.

End strconv.

(** ** Character helpers of the scanner

    [digitValue] and [isIdentifierPart] live in the lexer, which the
    transpiler only calls. *)

(** Modelled from the spec: [digitValue] is one of the "digit values"
    helpers the specification assumes available; the lexer source is
    missing.  It gives the value of a hexadecimal digit and, as the
    transpiler's comparisons [digit >= 8], [digit >= 10] and
    [digit >= base] with the remark "Not a valid digit" require, a value
    larger than any legal digit for every other character. *)
Definition digitValue (chr : Z) : Z :=
  if (rune "0" <=? chr) && (chr <=? rune "9") then chr - rune "0"
  else if (rune "a" <=? chr) && (chr <=? rune "f") then chr - rune "a" + 10
  else if (rune "A" <=? chr) && (chr <=? rune "F") then chr - rune "A" + 10
  else 16.

(** [switch chr { case c1, c2, ...: }] *)
Definition caseOf (chr : Z) (cs : list ascii) : bool :=
  existsb (fun c => chr =? rune c) cs.

(** ** The transpiler: [parser/regexp.go] *)

Module RegExp.

Definition error := gostring.

Record _RegExp_parser := mkParser {
  str : gostring;
  length : Z;
  chr : Z;           (* The current character *)
  chrOffset : Z;     (* The offset of current character *)
  offset : Z;        (* The offset after current character *)
  errors : list error;
  invalid : bool;    (* The input is an invalid ECMAScript RegExp *)
  buffer : gostring
}.

Definition EOF : Z := -1.

(** [self.error(offset, msg, ...)]: the formatted message is appended to
    [errors] (the [offset] argument is unused by the source). *)
Definition error_ (msg : gostring) (s : _RegExp_parser) : _RegExp_parser :=
  mkParser (str s) (length s) (chr s) (chrOffset s) (offset s)
           (errors s ++ [msg]) (invalid s) (buffer s).

(** [self.invalid = true] *)
Definition setInvalid (s : _RegExp_parser) : _RegExp_parser :=
  mkParser (str s) (length s) (chr s) (chrOffset s) (offset s)
           (errors s) true (buffer s).

(** [self.buffer.Write], [WriteByte], [WriteString]: a [bytes.Buffer] write
    always returns a nil error, so the [if err != nil] branches that follow
    every write in the source never run. *)
Definition write (bs : gostring) (s : _RegExp_parser) : _RegExp_parser :=
  mkParser (str s) (length s) (chr s) (chrOffset s) (offset s)
           (errors s) (invalid s) (buffer s ++ bs).

(** [self.buffer.WriteRune] *)
Definition writeRune (r : Z) (s : _RegExp_parser) : _RegExp_parser :=
  write (utf8.EncodeRune r) s.

Definition msg_RuneError : error := bytes "RuneError".
Definition msg_Unmatched : error := bytes "Unmatched ')'".
Definition msg_UnterminatedGroup : error := bytes "Unterminated group".
Definition msg_UnterminatedClass : error := bytes "Unterminated character class".
Definition msg_IllegalBranch : error := bytes "re2: Illegal branch in scanEscape".

(** ["re2: Invalid (%s) <lookahead>"] *)
Definition msg_lookahead (s : gostring) : error :=
  bytes "re2: Invalid (" ++ s ++ bytes ") <lookahead>".

(** ["re2: Invalid \\%d <backreference>"] *)
Definition msg_backreference_d (value : Z) : error :=
  bytes "re2: Invalid \" ++ strconv.FormatInt value 10 ++ bytes " <backreference>".

(** ["re2: Invalid \\%s <backreference>"] *)
Definition msg_backreference_s (s : gostring) : error :=
  bytes "re2: Invalid \" ++ s ++ bytes " <backreference>".

Definition read (s : _RegExp_parser) : _RegExp_parser :=
  if offset s <? length s then
    let chr0 := byteAt (str s) (offset s) in
    if chr0 >=? utf8.RuneSelf then
      (* Not ASCII *)
      let '(chr1, width) :=
        utf8.DecodeRuneInString (skipn (Z.to_nat (offset s)) (str s)) in
      let s1 := if (chr1 =? utf8.RuneError) && (width =? 1)
                then error_ msg_RuneError s else s in
      mkParser (str s1) (length s1) chr1 (offset s) (offset s + width)
               (errors s1) (invalid s1) (buffer s1)
    else
      mkParser (str s) (length s) chr0 (offset s) (offset s + 1)
               (errors s) (invalid s) (buffer s)
  else
    mkParser (str s) (length s) EOF (length s) (offset s)
             (errors s) (invalid s) (buffer s).

Definition pass (s : _RegExp_parser) : _RegExp_parser :=
  read (if chr s =? EOF then s else writeRune (chr s) s).

(** [tmp := []byte{'\\', 'x', '0', 0}], cut to two bytes when
    [value >= 16] and to three otherwise, then [strconv.AppendInt(tmp,
    value, 16)]. *)
Definition hexEscape (value : Z) : gostring :=
  let tmp := if value >=? 16 then bytes "\x" else bytes "\x0" in
  strconv.AppendInt tmp value 16.

(** The digit loop of the ['0'..'7'] case: returns the parser, [value]
    (an [int64]) and [size]. *)
Fixpoint octalLoop (fuel : nat) (s : _RegExp_parser) (value size : Z)
  : option (_RegExp_parser * Z * Z) :=
  match fuel with
  | O => None
  | S fuel' =>
    let digit := digitValue (chr s) in
    if digit >=? 8 then Some (s, value, size)   (* Not a valid digit *)
    else octalLoop fuel' (read s) (wrap64 (value * 8 + digit)) (size + 1)
  end.

(** The digit loop of the ['8', '9'] case ([size] is never used). *)
Fixpoint decimalLoop (fuel : nat) (s : _RegExp_parser) : option _RegExp_parser :=
  match fuel with
  | O => None
  | S fuel' =>
    let digit := digitValue (chr s) in
    if digit >=? 10 then Some s                 (* Not a valid digit *)
    else decimalLoop fuel' (read s)
  end.

(** The digit loop of [\x..] and [\u....]: [length] counts down; the
    boolean is [false] when the loop left through [goto skip]. *)
Fixpoint hexLoop (length : nat) (base : Z) (s : _RegExp_parser) (value : Z)
  : _RegExp_parser * Z * bool :=
  match length with
  | O => (s, value, true)
  | S length' =>
    let digit := wrap32u (digitValue (chr s)) in
    if digit >=? base then (s, value, false)    (* Not a valid digit *)
    else hexLoop length' base (read s) (wrap32u (value * base + digit))
  end.

(** The [skip:] label. *)
Definition skip (offset0 : Z) (s : _RegExp_parser) : option _RegExp_parser :=
  raw <- slice (str s) offset0 (chrOffset s) ;;
  Some (write raw s).

(** The tail of [scanEscape]: "Otherwise, we're a \u.... or \x...". *)
Definition scanHex (offset0 : Z) (length : nat) (base : Z) (s : _RegExp_parser)
  : option _RegExp_parser :=
  let valueOffset := chrOffset s in
  let '(s1, _, ok) := hexLoop length base s 0 in
  if negb ok then skip offset0 s1
  else if Nat.eqb length 4 then
    b0 <- index (str s1) (valueOffset + 0) ;;
    b1 <- index (str s1) (valueOffset + 1) ;;
    b2 <- index (str s1) (valueOffset + 2) ;;
    b3 <- index (str s1) (valueOffset + 3) ;;
    Some (write (bytes "\x{" ++ [b0; b1; b2; b3] ++ bytes "}") s1)
  else if Nat.eqb length 2 then
    b0 <- index (str s1) (valueOffset + 0) ;;
    b1 <- index (str s1) (valueOffset + 1) ;;
    Some (write (bytes "\x" ++ [b0; b1]) s1)
  else
    (* Should never, ever get here... *)
    skip offset0 (error_ msg_IllegalBranch s1).

Section Scan.

(** [isIdentifierPart] is the lexer's classifier (it consults Unicode
    tables for non-ASCII runes); the transpiler is verified for any such
    classifier. *)
Variable isIdentifierPart : Z -> bool.

Definition scanEscape (fuel : nat) (inClass : bool) (s : _RegExp_parser)
  : option _RegExp_parser :=
  let offset0 := chrOffset s in
  if caseOf (chr s) ["0"; "1"; "2"; "3"; "4"; "5"; "6"; "7"]%char then
    '(s1, value, size) <- octalLoop fuel s 0 0 ;;
    if size =? 1 then   (* The number of characters read *)
      let s2 := write ["\"%char; byte_of_Z (byteZ (byte_of_Z value) + rune "0")] s1 in
      if negb (value =? 0) then
        (* An invalid backreference *)
        Some (error_ (msg_backreference_d value) s2)
      else Some s2
    else Some (write (hexEscape value) s1)
  else if caseOf (chr s) ["8"; "9"]%char then
    s1 <- decimalLoop fuel s ;;
    raw <- slice (str s1) offset0 (chrOffset s1) ;;
    Some (error_ (msg_backreference_s raw) (write raw (write (bytes "\") s1)))
  else if caseOf (chr s) ["x"]%char then
    scanHex offset0 2 16 (read s)
  else if caseOf (chr s) ["u"]%char then
    scanHex offset0 4 16 (read s)
  else if caseOf (chr s) ["b"]%char && inClass then
    Some (read (write (bytes "\x08") s))
  else if caseOf (chr s) ["b"; "B"; "d"; "D"; "s"; "S"; "w"; "W"; "\";
                          "f"; "n"; "r"; "t"; "v"]%char then
    Some (pass (write (bytes "\") s))
  else if caseOf (chr s) ["c"]%char then
    let s1 := read s in
    if (rune "a" <=? chr s1) && (chr s1 <=? rune "z") then
      let value := chr s1 - rune "a" + 1 in
      Some (read (write (hexEscape value) s1))
    else if (rune "A" <=? chr s1) && (chr s1 <=? rune "Z") then
      let value := chr s1 - rune "A" + 1 in
      Some (read (write (hexEscape value) s1))
    else Some (write (bytes "c") s1)
  else
    (* $ is an identifier character, so we have to have
       a special case for it here *)
    if (chr s =? rune "$") || negb (isIdentifierPart (chr s)) then
      (* A non-identifier character needs escaping *)
      Some (pass (write (bytes "\") s))
    else
      (* Unescape the character for re2 *)
      Some (pass s).

(** The loop of [scanBracket]. *)
Fixpoint scanBracketLoop (fuel : nat) (s : _RegExp_parser) : option _RegExp_parser :=
  match fuel with
  | O => None
  | S fuel' =>
    if chr s =? EOF then Some s
    else if chr s =? rune "]" then Some s   (* break *)
    else if chr s =? rune "\" then
      s1 <- scanEscape fuel' true (read s) ;;
      scanBracketLoop fuel' s1
    else scanBracketLoop fuel' (pass s)
  end.

(** [[...]] *)
Definition scanBracket (fuel : nat) (s : _RegExp_parser) : option _RegExp_parser :=
  s1 <- scanBracketLoop fuel s ;;
  if negb (chr s1 =? rune "]") then
    Some (setInvalid (error_ msg_UnterminatedClass s1))
  else Some (pass s1).

(** The head of [scanGroup]: a possibility of [(?=] or [(?!]. *)
Definition lookahead (s : _RegExp_parser) : option _RegExp_parser :=
  str0 <- sliceFrom (str s) (chrOffset s) ;;
  if 1 <? len str0 then
    if byteAt str0 0 =? rune "?" then
      if (byteAt str0 1 =? rune "=") || (byteAt str0 1 =? rune "!") then
        raw <- slice (str s) (chrOffset s) (chrOffset s + 2) ;;
        Some (error_ (msg_lookahead raw) s)
      else Some s
    else Some s
  else Some s.

(** What follows the loop of [scanGroup]. *)
Definition closeGroup (s : _RegExp_parser) : _RegExp_parser :=
  if negb (chr s =? rune ")") then setInvalid (error_ msg_UnterminatedGroup s)
  else pass s.

(** The body of [scanGroup] around its loop: the lookahead check, the
    loop, the closing parenthesis. *)
Definition scanGroupWith (loop : _RegExp_parser -> option _RegExp_parser)
           (s : _RegExp_parser) : option _RegExp_parser :=
  s1 <- lookahead s ;;
  s2 <- loop s1 ;;
  Some (closeGroup s2).

(** The loop of [scanGroup]; the recursive call [self.scanGroup()] runs
    the body with the loop one unit of fuel down. *)
Fixpoint scanGroupLoop (fuel : nat) (s : _RegExp_parser) : option _RegExp_parser :=
  match fuel with
  | O => None
  | S fuel' =>
    if (chr s =? EOF) || (chr s =? rune ")") then Some s
    else if chr s =? rune "\" then
      s1 <- scanEscape fuel' false (read s) ;;
      scanGroupLoop fuel' s1
    else if chr s =? rune "(" then
      s1 <- scanGroupWith (scanGroupLoop fuel') (pass s) ;;
      scanGroupLoop fuel' s1
    else if chr s =? rune "[" then
      s1 <- scanBracket fuel' (pass s) ;;
      scanGroupLoop fuel' s1
    else scanGroupLoop fuel' (pass s)
  end.

(** [(...)] *)
Definition scanGroup (fuel : nat) (s : _RegExp_parser) : option _RegExp_parser :=
  scanGroupWith (scanGroupLoop fuel) s.

Fixpoint scan (fuel : nat) (s : _RegExp_parser) : option _RegExp_parser :=
  match fuel with
  | O => None
  | S fuel' =>
    if chr s =? EOF then Some s
    else if chr s =? rune "\" then
      s1 <- scanEscape fuel' false (read s) ;;
      scan fuel' s1
    else if chr s =? rune "(" then
      s1 <- scanGroup fuel' (pass s) ;;
      scan fuel' s1
    else if chr s =? rune "[" then
      s1 <- scanBracket fuel' (pass s) ;;
      scan fuel' s1
    else if chr s =? rune ")" then
      scan fuel' (pass (setInvalid (error_ msg_Unmatched s)))
    else scan fuel' (pass s)
  end.

(** The parser value built by [TransformRegExp]; the remaining fields have
    Go's zero values. *)
Definition newParser (pattern : gostring) : _RegExp_parser :=
  mkParser pattern (len pattern) 0 0 0 [] false [].

Definition TransformRegExp_fuel (fuel : nat) (pattern : gostring)
  : option (gostring * option error) :=
  match pattern with
  | [] => Some ([], None)
  | _ =>
    let parser := read (newParser pattern) in   (* Pull in the first character *)
    parser <- scan fuel parser ;;
    let err := hd_error (errors parser) in
    if invalid parser then Some ([], err)
    else
      (* Might not be re2 compatible, but is still a valid ECMAScript RegExp *)
      Some (buffer parser, err)
  end.

(** The loops are run with one unit of fuel per input byte and one more
    for the end of input, which is shown to be enough. *)
Definition TransformRegExp (pattern : gostring) : option (gostring * option error) :=
  TransformRegExp_fuel (S (List.length pattern)) pattern.

End Scan.

End RegExp.

(** ** The parser front: [parser/parser.go] and [parser/error.go] *)

Module Parser.

(** [file.Position] *)
Record Position := mkPosition {
  Filename : gostring;
  Line : Z;
  Column : Z
}.

(** An [Error] represents a parsing error. *)
Record Error := mkError {
  Message : gostring;
  Position_ : Position
}.

(** [fmt.Sprintf("%s: Line %d:%d %s", filename, line, column, message)] *)
Definition Error_Error (self : Error) : gostring :=
  let filename := Filename (Position_ self) in
  let filename := match filename with
                  | [] => bytes "(anonymous)"
                  | _ => filename
                  end in
  filename ++ bytes ": Line "
           ++ strconv.FormatInt (Line (Position_ self)) 10 ++ bytes ":"
           ++ strconv.FormatInt (Column (Position_ self)) 10 ++ bytes " "
           ++ Message self.

(** [for index, chr := range str]: the byte index and the rune of every
    character, invalid bytes giving [RuneError] one byte at a time.
    [inside] counts the bytes of the current rune still to be stepped
    over. *)
Fixpoint rangeFrom (rest : gostring) (index : Z) (inside : nat) : list (Z * Z) :=
  match rest with
  | [] => []
  | _ :: rest' =>
    match inside with
    | S inside' => rangeFrom rest' (index + 1) inside'
    | O =>
      let '(chr, width) := utf8.DecodeRuneInString rest in
      (index, chr) :: rangeFrom rest' (index + 1) (Z.to_nat width - 1)
    end
  end.

Definition range (str : gostring) : list (Z * Z) := rangeFrom str 0 0.

Definition CR : Z := 13.           (* '\r' *)
Definition LF : Z := 10.           (* '\n' *)
Definition LS : Z := 8232.         (* U+2028 *)
Definition PS : Z := 8233.         (* U+2029 *)

(** One iteration of the loop of [lineCount] over the state
    [(line, last, pair_)]. *)
Definition lineCountStep (st : Z * Z * bool) (ic : Z * Z) : Z * Z * bool :=
  let '(line, last, pair_) := st in
  let '(index, chr) := ic in
  if chr =? CR then (line + 1, index, true)           (* continue *)
  else if chr =? LF then
    (if negb pair_ then line + 1 else line, index, false)
  else if (chr =? LS) || (chr =? PS) then (line + 1, index + 2, false)
  else (line, last, false).

Definition lineCount (str : gostring) : Z * Z :=
  let '(line, last, _) := fold_left lineCountStep (range str) (0, -1, false) in
  (line, last).

(** [recover struct { idx file.Idx; count int }] *)
Record _recover := mkRecover {
  recover_idx : Z;
  recover_count : Z
}.

Section Parse.

(** The syntax tree, the scope stack and the file set are built by parts
    of the repository the front only calls. *)
Context {Program Scope FileSet : Type}.

Record _parser := mkParser {
  filename : gostring;
  str : gostring;
  length : Z;
  base : Z;
  chr : Z;                  (* The current character *)
  chrOffset : Z;            (* The offset of current character *)
  offset : Z;               (* The offset after current character *)
  idx : Z;                  (* The index of token *)
  token : Z;                (* The token *)
  literal : gostring;       (* The literal of the token, if any *)
  scope : option Scope;
  insertSemicolon : bool;
  implicitSemicolon : bool;
  errors : list Error;
  recover : _recover
}.

(** The composite literal of [_newParser] names [chr], [str], [length] and
    [base]; every other field, [filename] included, keeps Go's zero
    value. *)
Definition _newParser (filename src : gostring) (base : Z) : _parser :=
  mkParser [] src (len src) base (rune " ") 0 0 0 0 [] None false false []
           (mkRecover 0 0).

Definition newParser (filename src : gostring) : _parser :=
  _newParser filename src 1.

Definition idxOf (self : _parser) (offset : Z) : Z := base self + offset.

(** [None] is the panic of [self.str[:offset]] out of range. *)
Definition position (self : _parser) (idx : Z) : option Position :=
  let offset := idx - base self in
  str0 <- slice (str self) 0 offset ;;
  let '(line, last) := lineCount str0 in
  Some (mkPosition (filename self) (1 + line)
                   (if last >=? 0 then offset - last else 1 + len str0)).

(** The dynamic type of the [place interface{}] argument of [error]. *)
Inductive place :=
| place_int (offset : Z)
| place_Idx (idx : Z)
| place_other.

(** [self.error(place, msg, msgValues...)]; [message] is the formatted
    [fmt.Sprintf(msg, msgValues...)].  [None] is a panic. *)
Definition error (self : _parser) (pl : place) (message : gostring)
  : option (Error * _parser) :=
  idx0 <- match pl with
          | place_int offset => Some (idxOf self offset)
          | place_Idx idx =>
            if idx =? 0 then Some (idxOf self (chrOffset self)) else Some idx
          | place_other => None
          end ;;
  position0 <- position self idx0 ;;
  let err := mkError message position0 in
  Some (err,
        mkParser (filename self) (str self) (length self) (base self)
                 (chr self) (chrOffset self) (offset self) (idx self)
                 (token self) (literal self) (scope self)
                 (insertSemicolon self) (implicitSemicolon self)
                 (errors self ++ [err]) (recover self)).

(** The scanner ([self.next()]) and the statement parser
    ([self.parseProgram()]) are in files of the repository that are not
    part of this development; [parse] takes them as parameters.
    [parseProgram] returns a [*ast.Program], [None] being the nil
    pointer. *)
Variable next : _parser -> _parser.
Variable parseProgram : _parser -> option Program * _parser.
Variable AddFile : FileSet -> gostring -> gostring -> Z.

Definition parse (self : _parser) : option Program * option Error :=
  let self := next self in
  let '(program, self) := parseProgram self in
  match errors self with
  | e :: _ => (program, Some e)     (* len(self.errors) > 0 *)
  | [] => (program, None)
  end.

Definition ParseFile (fileSet : option FileSet) (filename src : gostring) (mode : Z)
  : option Program * option Error :=
  let base := match fileSet with
              | Some fs => AddFile fs filename src
              | None => 1
              end in
  parse (_newParser filename src base).

(** [self.slice(idx0, idx1)]; [None] is the panic of
    [self.str[from:to]] when [to] is below [from]. *)
Definition slice_ (self : _parser) (idx0 idx1 : Z) : option gostring :=
  let from := idx0 - base self in
  let to := idx1 - base self in
  if (from >=? 0) && (to <=? len (str self)) then slice (str self) from to
  else Some [].

End Parse.

End Parser.

(** * Verification *)

(** ** Bytes and UTF-8 decoding *)

Lemma byteZ_range (b : ascii) : 0 <= byteZ b < 256.
Proof.
  unfold byteZ. pose proof (N_ascii_bounded b). lia.
Qed.

Lemma first_cases (b : Z) :
  In (utf8.first b) [utf8.as_; utf8.xx; utf8.s1; utf8.s2; utf8.s3; utf8.s4; utf8.s5; utf8.s6; utf8.s7].
Proof.
  unfold utf8.first.
  repeat match goal with |- context [if ?c then _ else _] => destruct c end;
    simpl; tauto.
Qed.

Lemma len_nonneg {A} (l : list A) : 0 <= len l.
Proof. unfold len. lia. Qed.

Lemma len_cons {A} (a : A) (l : list A) : len (a :: l) = 1 + len l.
Proof. unfold len. simpl List.length. lia. Qed.

Lemma DecodeRuneInString_width (s : gostring) :
  s <> [] ->
  1 <= snd (utf8.DecodeRuneInString s) <= len s /\ 0 <= fst (utf8.DecodeRuneInString s).
Proof.
  destruct s as [|b0 t]; [congruence|intros _].
  pose proof (byteZ_range b0) as Hb.
  pose proof (len_nonneg t) as Ht. rewrite len_cons.
  unfold utf8.DecodeRuneInString.
  rewrite len_cons.
  pose proof (first_cases (byteZ b0)) as Hf.
  simpl in Hf.
  assert (Hnn : forall a b, 0 <= a -> 0 <= b -> 0 <= Z.lor a b)
    by (intros; apply Z.lor_nonneg; auto).
  assert (Hl : forall a m, 0 <= m -> 0 <= Z.land a m)
    by (intros; apply Z.land_nonneg; auto).
  assert (Hs : forall a n, 0 <= a -> 0 <= Z.shiftl a n)
    by (intros; apply Z.shiftl_nonneg; auto).
  repeat (destruct Hf as [Hf | Hf]; [rewrite <- Hf; clear Hf|]); try contradiction;
    repeat match goal with
           | |- context [utf8.acceptRanges ?x] =>
             let v := eval vm_compute in (utf8.acceptRanges x) in
             change (utf8.acceptRanges x) with v
           | |- context [Z.land ?x 7] =>
             let v := eval vm_compute in (Z.land x 7) in
             change (Z.land x 7) with v
           | |- context [?x >=? utf8.as_] =>
             let v := eval vm_compute in (x >=? utf8.as_) in
             change (x >=? utf8.as_) with v
           | |- context [?x =? utf8.xx] =>
             let v := eval vm_compute in (x =? utf8.xx) in
             change (x =? utf8.xx) with v
           end;
    cbv iota beta;
    repeat match goal with
           | |- context [if ?c then _ else _] => destruct c eqn:?
           end;
    cbn [fst snd]; unfold utf8.RuneError, utf8.mask2, utf8.mask3, utf8.mask4, utf8.maskx;
    repeat split; try lia;
    repeat (first [apply Hnn | apply Hs | apply Hl; lia]).
Qed.

(** *** The arithmetic of a decoded rune *)

Lemma land_shiftl_low a n c :
  0 <= n -> 0 <= c < 2 ^ n -> Z.land (Z.shiftl a n) c = 0.
Proof.
  intros Hn Hc. apply Z.bits_inj'. intros i Hi.
  rewrite Z.land_spec, Z.bits_0.
  destruct (Z.lt_ge_cases i n) as [Hlt | Hge].
  - rewrite Z.shiftl_spec_low by lia. reflexivity.
  - destruct (Z.eq_dec c 0) as [-> | Hc0];
      [rewrite Z.bits_0, andb_false_r; reflexivity|].
    rewrite (Z.bits_above_log2 c i), andb_false_r; try lia.
    apply Z.log2_lt_pow2; try lia.
    apply Z.lt_le_trans with (2 ^ n); try lia.
    apply Z.pow_le_mono_r; lia.
Qed.

Lemma lor_shiftl_low a n c :
  0 <= n -> 0 <= c < 2 ^ n -> Z.lor (Z.shiftl a n) c = a * 2 ^ n + c.
Proof.
  intros Hn Hc. pose proof (Z.add_lor_land (Z.shiftl a n) c) as H.
  rewrite land_shiftl_low in H by auto.
  rewrite Z.shiftl_mul_pow2 in * by auto. lia.
Qed.

Lemma land_low_mask a n : 0 <= n -> Z.land a (2 ^ n - 1) = a mod 2 ^ n.
Proof.
  intros Hn. rewrite <- Z.land_ones by auto. f_equal. rewrite Z.ones_equiv. lia.
Qed.

Lemma rune2 a b :
  Z.lor (Z.shiftl (Z.land a utf8.mask2) 6) (Z.land b utf8.maskx)
  = (a mod 32) * 64 + b mod 64.
Proof.
  change utf8.mask2 with (2 ^ 5 - 1). change utf8.maskx with (2 ^ 6 - 1).
  rewrite !land_low_mask by lia.
  rewrite lor_shiftl_low; [reflexivity | lia |].
  apply Z.mod_pos_bound. lia.
Qed.

Lemma shiftl_split a n m : 0 <= n -> 0 <= m -> Z.shiftl a (n + m) = Z.shiftl (Z.shiftl a n) m.
Proof. intros. rewrite Z.shiftl_shiftl by auto. reflexivity. Qed.

Lemma rune3 a b c :
  Z.lor (Z.lor (Z.shiftl (Z.land a utf8.mask3) 12)
               (Z.shiftl (Z.land b utf8.maskx) 6))
        (Z.land c utf8.maskx)
  = ((a mod 16) * 64 + b mod 64) * 64 + c mod 64.
Proof.
  change utf8.mask3 with (2 ^ 4 - 1). change utf8.maskx with (2 ^ 6 - 1).
  rewrite !land_low_mask by lia.
  change 12 with (6 + 6). rewrite shiftl_split by lia.
  rewrite <- Z.shiftl_lor.
  pose proof (Z.mod_pos_bound b (2 ^ 6) ltac:(lia)).
  pose proof (Z.mod_pos_bound c (2 ^ 6) ltac:(lia)).
  rewrite (lor_shiftl_low (a mod 2 ^ 4) 6) by lia.
  rewrite lor_shiftl_low by lia. reflexivity.
Qed.

Lemma rune4 a b c d :
  Z.lor (Z.lor (Z.lor (Z.shiftl (Z.land a utf8.mask4) 18)
                      (Z.shiftl (Z.land b utf8.maskx) 12))
               (Z.shiftl (Z.land c utf8.maskx) 6))
        (Z.land d utf8.maskx)
  = (((a mod 8) * 64 + b mod 64) * 64 + c mod 64) * 64 + d mod 64.
Proof.
  change utf8.mask4 with (2 ^ 3 - 1). change utf8.maskx with (2 ^ 6 - 1).
  rewrite !land_low_mask by lia.
  change 18 with (6 + 6 + 6). change 12 with (6 + 6).
  rewrite !shiftl_split by lia.
  rewrite <- !Z.shiftl_lor.
  pose proof (Z.mod_pos_bound b (2 ^ 6) ltac:(lia)).
  pose proof (Z.mod_pos_bound c (2 ^ 6) ltac:(lia)).
  pose proof (Z.mod_pos_bound d (2 ^ 6) ltac:(lia)).
  rewrite (lor_shiftl_low (a mod 2 ^ 3) 6) by lia.
  rewrite (lor_shiftl_low _ 6 (c mod 2 ^ 6)) by lia.
  rewrite lor_shiftl_low by lia. reflexivity.
Qed.

(** What [DecodeRuneInString] returns, case by case on the first byte. *)
Inductive decoded (l : gostring) : Z * Z -> Prop :=
| decoded_ascii :
    byteAt l 0 < 128 -> decoded l (byteAt l 0, 1)
| decoded_invalid :
    128 <= byteAt l 0 -> decoded l (utf8.RuneError, 1)
| decoded_2 :
    194 <= byteAt l 0 <= 223 -> 2 <= len l ->
    128 <= byteAt l 1 <= 191 ->
    decoded l ((byteAt l 0 mod 32) * 64 + byteAt l 1 mod 64, 2)
| decoded_3 :
    224 <= byteAt l 0 <= 239 -> 3 <= len l ->
    128 <= byteAt l 1 <= 191 ->
    (byteAt l 0 = 224 -> 160 <= byteAt l 1) ->
    (byteAt l 0 = 237 -> byteAt l 1 <= 159) ->
    128 <= byteAt l 2 <= 191 ->
    decoded l (((byteAt l 0 mod 16) * 64 + byteAt l 1 mod 64) * 64
               + byteAt l 2 mod 64, 3)
| decoded_4 :
    240 <= byteAt l 0 <= 244 -> 4 <= len l ->
    128 <= byteAt l 1 <= 191 ->
    (byteAt l 0 = 240 -> 144 <= byteAt l 1) ->
    (byteAt l 0 = 244 -> byteAt l 1 <= 143) ->
    128 <= byteAt l 2 <= 191 -> 128 <= byteAt l 3 <= 191 ->
    decoded l ((((byteAt l 0 mod 8) * 64 + byteAt l 1 mod 64) * 64
                + byteAt l 2 mod 64) * 64 + byteAt l 3 mod 64, 4).

Lemma first_ranges b :
  (b < 128 /\ utf8.first b = utf8.as_) \/
  ((128 <= b < 194 \/ 244 < b) /\ utf8.first b = utf8.xx) \/
  (194 <= b < 224 /\ utf8.first b = utf8.s1) \/
  (b = 224 /\ utf8.first b = utf8.s2) \/
  ((224 < b < 237 \/ 237 < b < 240) /\ utf8.first b = utf8.s3) \/
  (b = 237 /\ utf8.first b = utf8.s4) \/
  (b = 240 /\ utf8.first b = utf8.s5) \/
  (240 < b < 244 /\ utf8.first b = utf8.s6) \/
  (b = 244 /\ utf8.first b = utf8.s7).
Proof.
  unfold utf8.first.
  repeat match goal with
         | |- context [if ?c <? ?d then _ else _] =>
           destruct (Z.ltb_spec c d)
         | |- context [if ?c =? ?d then _ else _] =>
           destruct (Z.eqb_spec c d)
         end; lia.
Qed.

Lemma DecodeRuneInString_decoded l :
  l <> [] -> decoded l (utf8.DecodeRuneInString l).
Proof.
  destruct l as [|b0 t]; [congruence|intros _].
  pose proof (byteZ_range b0) as Hb.
  unfold utf8.DecodeRuneInString.
  rewrite rune2, rune3, rune4.
  change (byteZ b0) with (byteAt (b0 :: t) 0).
  change (byteZ b0) with (byteAt (b0 :: t) 0) in Hb.
  set (s0 := byteAt (b0 :: t) 0) in *.
  set (s1 := byteAt (b0 :: t) 1) in *.
  set (s2 := byteAt (b0 :: t) 2) in *.
  set (s3 := byteAt (b0 :: t) 3) in *.
  set (n := len (b0 :: t)).
  destruct (first_ranges s0) as
      [[R ->] | [[R ->] | [[R ->] | [[R ->] | [[R ->] | [[R ->] | [[R ->] | [[R ->] | [R ->]]]]]]]]];
    repeat match goal with
           | |- context [utf8.acceptRanges ?x] =>
             let v := eval vm_compute in (utf8.acceptRanges x) in
             change (utf8.acceptRanges x) with v
           | |- context [Z.land ?x 7] =>
             let v := eval vm_compute in (Z.land x 7) in
             change (Z.land x 7) with v
           | |- context [?x >=? utf8.as_] =>
             let v := eval vm_compute in (x >=? utf8.as_) in
             change (x >=? utf8.as_) with v
           | |- context [?x =? utf8.xx] =>
             let v := eval vm_compute in (x =? utf8.xx) in
             change (x =? utf8.xx) with v
           end;
    cbv iota beta; unfold utf8.locb, utf8.hicb;
    repeat match goal with
           | |- context [if (?a <? ?b) || (?c <? ?d) then _ else _] =>
             let E := fresh "E" in let F := fresh "F" in
             destruct (Z.ltb_spec a b) as [E | E];
             destruct (Z.ltb_spec c d) as [F | F]; cbn [orb]
           | |- context [if ?c <? ?d then _ else _] =>
             let E := fresh "E" in
             destruct (Z.ltb_spec c d) as [E | E]
           | |- context [if ?c <=? ?d then _ else _] =>
             let E := fresh "E" in
             destruct (Z.leb_spec c d) as [E | E]
           end;
    try lia;
    first [ apply decoded_ascii; lia
          | apply decoded_invalid; lia
          | apply decoded_2; lia
          | apply decoded_3; lia
          | apply decoded_4; lia ].
Qed.

Lemma DecodeRuneInString_nonascii l :
  l <> [] -> 128 <= byteAt l 0 -> 128 <= fst (utf8.DecodeRuneInString l).
Proof.
  intros Hl Hb. pose proof (DecodeRuneInString_decoded l Hl) as H.
  inversion H; cbn [fst]; unfold utf8.RuneError;
    Z.div_mod_to_equations; lia.
Qed.

Module RegExpFacts.
Import RegExp.

(** Before a [read]: the cursor is inside the input. *)
Definition readable (s : _RegExp_parser) : Prop :=
  length s = len (str s) /\ 0 <= offset s <= length s.

(** Between two steps of a scan: either the end of input has been
    reached, or [chr] is a character that starts at [chrOffset] and ends
    before [offset]. *)
Definition wf (s : _RegExp_parser) : Prop :=
  length s = len (str s) /\
  ((chr s = EOF /\ chrOffset s = length s /\ offset s = length s) \/
   (0 <= chr s /\ 0 <= chrOffset s < offset s /\ offset s <= length s)).

(** The bytes still to be scanned, the current character included. *)
Definition remaining (s : _RegExp_parser) : nat :=
  Z.to_nat (length s - chrOffset s).

Lemma wf_readable s : wf s -> readable s.
Proof.
  unfold wf, readable. pose proof (len_nonneg (str s)). intuition lia.
Qed.

Lemma len_skipn {A} (l : list A) (n : Z) :
  0 <= n <= len l -> len (skipn (Z.to_nat n) l) = len l - n.
Proof.
  unfold len. intros H. rewrite length_skipn. lia.
Qed.

Lemma skipn_nonempty {A} (l : list A) (n : Z) :
  0 <= n < len l -> skipn (Z.to_nat n) l <> [].
Proof.
  intros H E. apply (f_equal len) in E. rewrite len_skipn in E by lia.
  unfold len in E at 2. simpl in E. lia.
Qed.

Lemma read_fields s :
  str (read s) = str s /\ length (read s) = length s /\
  invalid (read s) = invalid s /\ buffer (read s) = buffer s.
Proof.
  unfold read.
  destruct (offset s <? length s); [|simpl; auto].
  destruct (byteAt (str s) (offset s) >=? utf8.RuneSelf); [|simpl; auto].
  destruct (utf8.DecodeRuneInString _) as [c w].
  destruct ((c =? utf8.RuneError) && (w =? 1)); simpl; auto.
Qed.

Lemma read_wf s : readable s -> wf (read s).
Proof.
  intros [Hl Ho]. unfold wf.
  destruct (read_fields s) as (Hs & Hlen & _). rewrite Hs, Hlen.
  split; [exact Hl|].
  unfold read.
  destruct (offset s <? length s) eqn:E.
  - apply Z.ltb_lt in E. right.
    destruct (byteAt (str s) (offset s) >=? utf8.RuneSelf) eqn:E1.
    + pose proof (DecodeRuneInString_width (skipn (Z.to_nat (offset s)) (str s))) as Hd.
      rewrite len_skipn in Hd by lia.
      specialize (Hd (skipn_nonempty (str s) (offset s) ltac:(lia))).
      destruct (utf8.DecodeRuneInString _) as [c w]. simpl in Hd.
      destruct ((c =? utf8.RuneError) && (w =? 1)); simpl; lia.
    + simpl. pose proof (byteZ_range (nth (Z.to_nat (offset s)) (str s) zero)).
      unfold byteAt. lia.
  - apply Z.ltb_ge in E. left. simpl. unfold EOF. lia.
Qed.

Lemma read_chrOffset s :
  wf s -> chr s <> EOF -> chrOffset s < chrOffset (read s) <= length s.
Proof.
  intros [Hl [H | H]] Hc; [tauto|].
  unfold read.
  destruct (offset s <? length s) eqn:E.
  - apply Z.ltb_lt in E.
    destruct (byteAt (str s) (offset s) >=? utf8.RuneSelf).
    + destruct (utf8.DecodeRuneInString _) as [c w].
      destruct ((c =? utf8.RuneError) && (w =? 1)); simpl; lia.
    + simpl. lia.
  - simpl. lia.
Qed.

Lemma read_chrOffset_le s : wf s -> chrOffset s <= chrOffset (read s).
Proof.
  intros H. destruct (Z.eq_dec (chr s) EOF) as [E | E].
  - destruct H as [Hl [H | H]]; [|unfold EOF in *; lia].
    unfold read. replace (offset s <? length s) with false; [simpl; lia|].
    symmetry. apply Z.ltb_ge. lia.
  - pose proof (read_chrOffset s H E). lia.
Qed.

(** *** The log of a scan: errors, output and the [invalid] flag *)

Fixpoint geqb (a b : gostring) : bool :=
  match a, b with
  | [], [] => true
  | x :: a', y :: b' => Ascii.eqb x y && geqb a' b'
  | _, _ => false
  end.

Lemma geqb_eq a b : geqb a b = true <-> a = b.
Proof.
  revert b. induction a as [|x a IH]; destruct b as [|y b]; simpl;
    try (split; congruence).
  rewrite andb_true_iff, Ascii.eqb_eq, IH. split.
  - intros [-> ->]. reflexivity.
  - intros E. inversion E. auto.
Qed.

(** The three messages that come with [self.invalid = true]. *)
Definition isInvalidMsg (e : error) : bool :=
  geqb e msg_Unmatched || geqb e msg_UnterminatedGroup
  || geqb e msg_UnterminatedClass.

(** [s'] is [s] after some scanning that logged the errors [es] and wrote
    the bytes [bs]. *)
Record extendsBy (s s' : _RegExp_parser) (es : list error) (bs : gostring) : Prop := {
  ext_str : str s' = str s;
  ext_length : length s' = length s;
  ext_wf : wf s';
  ext_chrOffset : chrOffset s <= chrOffset s';
  ext_errors : errors s' = errors s ++ es;
  ext_buffer : buffer s' = buffer s ++ bs;
  ext_invalid : invalid s' = invalid s || existsb isInvalidMsg es
}.

(** A lookahead error is only logged after the [(] of its group has been
    written. *)
Definition extends (s s' : _RegExp_parser) : Prop :=
  exists es bs, extendsBy s s' es bs /\
                ((exists raw, In (msg_lookahead raw) es) -> bs <> []).

Lemma extendsBy_refl s : wf s -> extendsBy s s [] [].
Proof.
  intros H. split; auto; try lia; try (rewrite app_nil_r; reflexivity).
  simpl. rewrite orb_false_r. reflexivity.
Qed.

Lemma extendsBy_trans s1 s2 s3 es bs es' bs' :
  extendsBy s1 s2 es bs -> extendsBy s2 s3 es' bs' ->
  extendsBy s1 s3 (es ++ es') (bs ++ bs').
Proof.
  intros [] []. split; try congruence; try lia; auto.
  - rewrite app_assoc. congruence.
  - rewrite app_assoc. congruence.
  - rewrite existsb_app, orb_assoc. congruence.
Qed.

Lemma extends_refl s : wf s -> extends s s.
Proof.
  intros H. exists [], []. split; [apply extendsBy_refl; auto|].
  intros [raw []].
Qed.

Lemma extends_trans s1 s2 s3 : extends s1 s2 -> extends s2 s3 -> extends s1 s3.
Proof.
  intros (es & bs & H1 & L1) (es' & bs' & H2 & L2).
  exists (es ++ es'), (bs ++ bs'). split; [eapply extendsBy_trans; eauto|].
  intros [raw Hin]. apply in_app_or in Hin. intros E.
  apply app_eq_nil in E. destruct E as [-> ->].
  destruct Hin as [Hin | Hin]; [apply L1 | apply L2]; eauto.
Qed.

Lemma extends_wf s s' : extends s s' -> wf s'.
Proof. intros (es & bs & [] & _). auto. Qed.

Lemma extends_remaining s s' : extends s s' -> (remaining s' <= remaining s)%nat.
Proof. intros (es & bs & [] & _). unfold remaining. lia. Qed.

Lemma msg_RuneError_not_lookahead raw : msg_RuneError <> msg_lookahead raw.
Proof. discriminate. Qed.

Lemma read_errors s :
  errors (read s) = errors s \/ errors (read s) = errors s ++ [msg_RuneError].
Proof.
  unfold read.
  destruct (offset s <? length s); [|simpl; auto].
  destruct (byteAt (str s) (offset s) >=? utf8.RuneSelf); [|simpl; auto].
  destruct (utf8.DecodeRuneInString _) as [c w].
  destruct ((c =? utf8.RuneError) && (w =? 1)); simpl; auto.
Qed.

Lemma extendsBy_read s :
  wf s -> exists es, extendsBy s (read s) es [] /\ (es = [] \/ es = [msg_RuneError]).
Proof.
  intros H. destruct (read_fields s) as (Hs & Hl & Hi & Hb).
  assert (Hw := read_wf s (wf_readable s H)).
  assert (Ho := read_chrOffset_le s H).
  destruct (read_errors s) as [He | He].
  - exists []. split; auto. split; auto; rewrite ?app_nil_r; auto.
    simpl. rewrite orb_false_r. auto.
  - exists [msg_RuneError]. split; auto. split; auto; rewrite ?app_nil_r; auto.
    simpl. rewrite orb_false_r. auto.
Qed.

Lemma extends_read s : wf s -> extends s (read s).
Proof.
  intros H. destruct (extendsBy_read s H) as (es & He & Hes).
  exists es, []. split; auto.
  intros [raw Hin]. destruct Hes as [-> | ->]; simpl in Hin; [tauto|].
  destruct Hin as [Hin | []]. discriminate.
Qed.

Lemma extendsBy_write bs s : wf s -> extendsBy s (write bs s) [] bs.
Proof.
  intros H. split; simpl; auto; try lia; rewrite ?app_nil_r, ?orb_false_r; auto.
Qed.

Lemma extends_write bs s : wf s -> extends s (write bs s).
Proof.
  intros H. exists [], bs. split; [apply extendsBy_write; auto|].
  intros [raw []].
Qed.

Lemma extendsBy_error e s :
  wf s -> isInvalidMsg e = false -> extendsBy s (error_ e s) [e] [].
Proof.
  intros H He. split; simpl; auto; try lia; rewrite ?app_nil_r; auto.
  rewrite He. simpl. rewrite orb_false_r. auto.
Qed.

Lemma extendsBy_setInvalid e s :
  wf s -> isInvalidMsg e = true -> extendsBy s (setInvalid (error_ e s)) [e] [].
Proof.
  intros H He. split; simpl; auto; try lia; rewrite ?app_nil_r; auto.
  rewrite He. simpl. rewrite orb_true_r. auto.
Qed.

Lemma extends_error e s :
  wf s -> isInvalidMsg e = false -> (forall raw, e <> msg_lookahead raw) ->
  extends s (error_ e s).
Proof.
  intros H He Hn. exists [e], []. split; [apply extendsBy_error; auto|].
  intros [raw [Hin | []]]. exfalso. eapply Hn; eauto.
Qed.

Lemma isInvalidMsg_not_lookahead e raw :
  isInvalidMsg e = true -> e <> msg_lookahead raw.
Proof.
  unfold isInvalidMsg. rewrite !orb_true_iff, !geqb_eq.
  intros [[-> | ->] | ->]; discriminate.
Qed.

Lemma extends_setInvalid e s :
  wf s -> isInvalidMsg e = true -> extends s (setInvalid (error_ e s)).
Proof.
  intros H He. exists [e], []. split; [apply extendsBy_setInvalid; auto|].
  intros [raw [Hin | []]]. exfalso.
  eapply isInvalidMsg_not_lookahead; eauto.
Qed.

Lemma extends_writeRune r s : wf s -> extends s (writeRune r s).
Proof. apply extends_write. Qed.

Lemma extends_pass s : wf s -> extends s (pass s).
Proof.
  intros H. unfold pass. destruct (chr s =? EOF).
  - apply extends_read; auto.
  - eapply extends_trans; [apply extends_writeRune; auto|].
    apply extends_read. eapply extends_wf. apply extends_writeRune; auto.
Qed.

Lemma EncodeRune_nonempty r : utf8.EncodeRune r <> [].
Proof.
  unfold utf8.EncodeRune, utf8.encode3.
  repeat match goal with |- context [if ?c then _ else _] => destruct c end;
    discriminate.
Qed.

(** *** Every scanning method returns, and extends the log *)

Lemma digitValue_range c : 0 <= digitValue c <= 16.
Proof.
  unfold digitValue, rune, byteZ. simpl.
  repeat match goal with |- context [if ?c then _ else _] => destruct c eqn:? end;
    lia.
Qed.

Lemma digitValue_EOF : digitValue EOF = 16.
Proof. reflexivity. Qed.

Lemma digit_not_EOF s : digitValue (chr s) < 16 -> chr s <> EOF.
Proof. intros H E. rewrite E, digitValue_EOF in H. lia. Qed.

Lemma remaining_read s fuel :
  wf s -> chr s <> EOF -> (remaining s < S fuel)%nat -> (remaining (read s) < fuel)%nat.
Proof.
  intros H Hc Hf. pose proof (read_chrOffset s H Hc).
  destruct (read_fields s) as (_ & Hl & _). unfold remaining in *. lia.
Qed.

Lemma remaining_pass s fuel :
  wf s -> chr s <> EOF -> (remaining s < S fuel)%nat -> (remaining (pass s) < fuel)%nat.
Proof.
  intros H Hc Hf. unfold pass.
  destruct (chr s =? EOF) eqn:E; [apply Z.eqb_eq in E; tauto|].
  apply remaining_read; auto.
Qed.

Lemma octalLoop_ok fuel : forall s value size,
  wf s -> (remaining s < fuel)%nat ->
  exists s' value' size',
    octalLoop fuel s value size = Some (s', value', size') /\ extends s s'.
Proof.
  induction fuel as [|fuel IH]; intros s value size H Hf; [lia|].
  simpl. destruct (digitValue (chr s) >=? 8) eqn:E.
  - do 3 eexists. split; [reflexivity|]. apply extends_refl; auto.
  - assert (Hc : chr s <> EOF) by (apply digit_not_EOF; lia).
    destruct (IH (read s) (wrap64 (value * 8 + digitValue (chr s))) (size + 1))
      as (s' & v' & n' & Hr & He).
    + apply read_wf, wf_readable; auto.
    + apply remaining_read; auto.
    + exists s', v', n'. split; auto.
      eapply extends_trans; [apply extends_read|]; eauto.
Qed.

Lemma decimalLoop_ok fuel : forall s,
  wf s -> (remaining s < fuel)%nat ->
  exists s', decimalLoop fuel s = Some s' /\ extends s s'.
Proof.
  induction fuel as [|fuel IH]; intros s H Hf; [lia|].
  simpl. destruct (digitValue (chr s) >=? 10) eqn:E.
  - eexists. split; [reflexivity|]. apply extends_refl; auto.
  - assert (Hc : chr s <> EOF) by (apply digit_not_EOF; lia).
    destruct (IH (read s)) as (s' & Hr & He).
    + apply read_wf, wf_readable; auto.
    + apply remaining_read; auto.
    + exists s'. split; auto.
      eapply extends_trans; [apply extends_read|]; eauto.
Qed.

Lemma wrap32u_digitValue c : wrap32u (digitValue c) = digitValue c.
Proof.
  unfold wrap32u. pose proof (digitValue_range c).
  apply Z.mod_small. lia.
Qed.

Lemma hexLoop_ok n : forall base s value,
  wf s -> base <= 16 ->
  extends s (fst (fst (hexLoop n base s value))) /\
  (snd (hexLoop n base s value) = true ->
   chrOffset s + Z.of_nat n <= chrOffset (fst (fst (hexLoop n base s value)))).
Proof.
  induction n as [|n IH]; intros base s value H Hb.
  - simpl. split; [apply extends_refl; auto | lia].
  - cbn [hexLoop]. rewrite wrap32u_digitValue.
    destruct (digitValue (chr s) >=? base) eqn:E.
    + simpl. split; [apply extends_refl; auto | discriminate].
    + assert (Hc : chr s <> EOF) by (apply digit_not_EOF; lia).
      destruct (IH base (read s) (wrap32u (value * base + digitValue (chr s))))
        as (He & Ho); auto.
      { apply read_wf, wf_readable; auto. }
      split.
      * eapply extends_trans; [apply extends_read|]; eauto.
      * intros Hok. specialize (Ho Hok).
        pose proof (read_chrOffset s H Hc). lia.
Qed.

Lemma wf_chrOffset s : wf s -> 0 <= chrOffset s <= len (str s).
Proof.
  intros [Hl H]. pose proof (len_nonneg (str s)). lia.
Qed.

Lemma slice_ok s lo hi :
  0 <= lo -> lo <= hi -> hi <= len s -> exists r, slice s lo hi = Some r.
Proof.
  intros H1 H2 H3. unfold slice.
  replace ((0 <=? lo) && (lo <=? hi) && (hi <=? len s)) with true; eauto.
  symmetry. rewrite !andb_true_iff, !Z.leb_le. auto.
Qed.

Lemma index_ok s i : 0 <= i < len s -> exists b, index s i = Some b.
Proof.
  intros H. unfold index.
  replace ((0 <=? i) && (i <? len s)) with true
    by (symmetry; rewrite andb_true_iff, Z.leb_le, Z.ltb_lt; auto).
  destruct (nth_error s (Z.to_nat i)) eqn:E; eauto.
  apply nth_error_None in E. unfold len in H. lia.
Qed.

Lemma skip_ok offset0 s :
  wf s -> 0 <= offset0 <= chrOffset s ->
  exists s', skip offset0 s = Some s' /\ extends s s'.
Proof.
  intros H Ho. pose proof (wf_chrOffset s H).
  destruct (slice_ok (str s) offset0 (chrOffset s)) as (raw & Hr); try lia.
  unfold skip. rewrite Hr. eexists. split; [reflexivity|].
  apply extends_write; auto.
Qed.

Lemma msg_IllegalBranch_plain :
  isInvalidMsg msg_IllegalBranch = false /\
  forall raw, msg_IllegalBranch <> msg_lookahead raw.
Proof. split; [reflexivity | discriminate]. Qed.

Lemma msg_backreference_d_plain v :
  isInvalidMsg (msg_backreference_d v) = false /\
  forall raw, msg_backreference_d v <> msg_lookahead raw.
Proof. split; [reflexivity | discriminate]. Qed.

Lemma msg_backreference_s_plain r :
  isInvalidMsg (msg_backreference_s r) = false /\
  forall raw, msg_backreference_s r <> msg_lookahead raw.
Proof. split; [reflexivity | discriminate]. Qed.

Lemma scanHex_ok offset0 n s :
  wf s -> 0 <= offset0 <= chrOffset s ->
  exists s', scanHex offset0 n 16 s = Some s' /\ extends s s'.
Proof.
  intros H Ho. unfold scanHex.
  destruct (hexLoop_ok n 16 s 0 H ltac:(lia)) as (He & Hidx).
  destruct (hexLoop n 16 s 0) as [[s1 v1] ok]. simpl in He, Hidx.
  assert (H1 := extends_wf _ _ He).
  assert (Hstr : str s1 = str s) by (destruct He as (? & ? & [] & _); auto).
  assert (Hmono : chrOffset s <= chrOffset s1)
    by (destruct He as (? & ? & [] & _); auto).
  pose proof (wf_chrOffset s1 H1) as Hb. pose proof (wf_chrOffset s H) as Hb0.
  destruct ok; simpl negb; cbv iota.
  - specialize (Hidx eq_refl).
    destruct (Nat.eqb n 4) eqn:E4; [apply Nat.eqb_eq in E4; subst n|].
    { destruct (index_ok (str s1) (chrOffset s + 0)) as (b0 & ->); [lia|].
      destruct (index_ok (str s1) (chrOffset s + 1)) as (b1 & ->); [lia|].
      destruct (index_ok (str s1) (chrOffset s + 2)) as (b2 & ->); [lia|].
      destruct (index_ok (str s1) (chrOffset s + 3)) as (b3 & ->); [lia|].
      eexists. split; [reflexivity|].
      eapply extends_trans; [exact He|]. apply extends_write; auto. }
    destruct (Nat.eqb n 2) eqn:E2; [apply Nat.eqb_eq in E2; subst n|].
    { destruct (index_ok (str s1) (chrOffset s + 0)) as (b0 & ->); [lia|].
      destruct (index_ok (str s1) (chrOffset s + 1)) as (b1 & ->); [lia|].
      eexists. split; [reflexivity|].
      eapply extends_trans; [exact He|]. apply extends_write; auto. }
    destruct msg_IllegalBranch_plain as (Hi & Hl).
    assert (He1 := extends_error msg_IllegalBranch s1 H1 Hi Hl).
    destruct (skip_ok offset0 (error_ msg_IllegalBranch s1)) as (s' & -> & He2).
    { eapply extends_wf; eauto. }
    { simpl. lia. }
    exists s'. split; auto.
    eapply extends_trans; [exact He|]. eapply extends_trans; eauto.
  - destruct (skip_ok offset0 s1 H1 ltac:(lia)) as (s' & -> & He2).
    exists s'. split; auto. eapply extends_trans; eauto.
Qed.

Section ScanFacts.

Variable isIdentifierPart : Z -> bool.

Lemma scanEscape_ok fuel inClass s :
  wf s -> (remaining s < fuel)%nat ->
  exists s', scanEscape isIdentifierPart fuel inClass s = Some s' /\ extends s s'.
Proof.
  intros H Hf. pose proof (wf_chrOffset s H) as Hb.
  unfold scanEscape.
  destruct (caseOf (chr s) _).
  { destruct (octalLoop_ok fuel s 0 0 H Hf) as (s1 & v & n & -> & He).
    assert (H1 := extends_wf _ _ He).
    destruct (n =? 1).
    - destruct (negb (v =? 0)); eexists; (split; [reflexivity|]).
      + eapply extends_trans; [exact He|].
        eapply extends_trans; [apply extends_write; auto|].
        apply extends_error; [eapply extends_wf, extends_write; auto | |];
          apply msg_backreference_d_plain.
      + eapply extends_trans; [exact He|]. apply extends_write; auto.
    - eexists. split; [reflexivity|].
      eapply extends_trans; [exact He|]. apply extends_write; auto. }
  destruct (caseOf (chr s) _).
  { destruct (decimalLoop_ok fuel s H Hf) as (s1 & -> & He).
    assert (H1 := extends_wf _ _ He).
    assert (Hstr : str s1 = str s) by (destruct He as (? & ? & [] & _); auto).
    assert (Hmono : chrOffset s <= chrOffset s1)
      by (destruct He as (? & ? & [] & _); auto).
    pose proof (wf_chrOffset s1 H1) as Hb1.
    destruct (slice_ok (str s1) (chrOffset s) (chrOffset s1)) as (raw & ->); try lia.
    eexists. split; [reflexivity|].
    eapply extends_trans; [exact He|].
    eapply extends_trans; [apply extends_write; auto|].
    eapply extends_trans; [apply extends_write; eapply extends_wf, extends_write; auto|].
    apply extends_error; [|apply msg_backreference_s_plain..].
    eapply extends_wf, extends_write. eapply extends_wf, extends_write. auto. }
  assert (Hrd : forall n, exists s',
             scanHex (chrOffset s) n 16 (read s) = Some s' /\ extends s s').
  { intros n. destruct (scanHex_ok (chrOffset s) n (read s)) as (s' & Hs & He).
    - apply read_wf, wf_readable; auto.
    - pose proof (read_chrOffset_le s H). lia.
    - exists s'. split; auto. eapply extends_trans; [apply extends_read|]; eauto. }
  destruct (caseOf (chr s) _); [apply Hrd|].
  destruct (caseOf (chr s) _); [apply Hrd|].
  assert (Hwp : forall bs, extends s (pass (write bs s))).
  { intros bs. eapply extends_trans; [apply extends_write; auto|].
    apply extends_pass. eapply extends_wf, extends_write; auto. }
  assert (Hwr : forall bs s1, extends s s1 -> extends s (read (write bs s1))).
  { intros bs s1 He. eapply extends_trans; [exact He|].
    eapply extends_trans; [apply extends_write; eapply extends_wf; eauto|].
    apply extends_read. eapply extends_wf, extends_write. eapply extends_wf; eauto. }
  destruct (caseOf (chr s) _ && inClass).
  { eexists. split; [reflexivity|]. apply Hwr, extends_refl; auto. }
  destruct (caseOf (chr s) _).
  { eexists. split; [reflexivity|]. apply Hwp. }
  destruct (caseOf (chr s) _).
  { assert (He := extends_read s H).
    destruct ((rune "a" <=? chr (read s)) && (chr (read s) <=? rune "z")).
    { eexists. split; [reflexivity|]. apply Hwr; auto. }
    destruct ((rune "A" <=? chr (read s)) && (chr (read s) <=? rune "Z")).
    { eexists. split; [reflexivity|]. apply Hwr; auto. }
    eexists. split; [reflexivity|].
    eapply extends_trans; [exact He|]. apply extends_write. eapply extends_wf; eauto. }
  destruct ((chr s =? rune "$") || negb (isIdentifierPart (chr s))).
  { eexists. split; [reflexivity|]. apply Hwp. }
  eexists. split; [reflexivity|]. apply extends_pass; auto.
Qed.

Lemma scanBracketLoop_ok fuel : forall s,
  wf s -> (remaining s < fuel)%nat ->
  exists s', scanBracketLoop isIdentifierPart fuel s = Some s' /\ extends s s'.
Proof.
  induction fuel as [|fuel IH]; intros s H Hf; [lia|].
  cbn [scanBracketLoop].
  destruct (chr s =? EOF) eqn:E0.
  { eexists. split; [reflexivity|]. apply extends_refl; auto. }
  apply Z.eqb_neq in E0.
  destruct (chr s =? rune "]").
  { eexists. split; [reflexivity|]. apply extends_refl; auto. }
  destruct (chr s =? rune "\").
  - destruct (scanEscape_ok fuel true (read s)) as (s1 & -> & He1).
    { apply read_wf, wf_readable; auto. }
    { apply remaining_read; auto. }
    assert (He : extends s s1)
      by (eapply extends_trans; [apply extends_read|]; eauto).
    destruct (IH s1) as (s' & -> & He2).
    { eapply extends_wf; eauto. }
    { pose proof (extends_remaining _ _ He1).
      pose proof (remaining_read s fuel H E0 Hf). lia. }
    exists s'. split; auto. eapply extends_trans; eauto.
  - assert (He : extends s (pass s)) by (apply extends_pass; auto).
    destruct (IH (pass s)) as (s' & -> & He2).
    { eapply extends_wf; eauto. }
    { apply remaining_pass; auto. }
    exists s'. split; auto. eapply extends_trans; eauto.
Qed.

Lemma isInvalidMsg_Unmatched : isInvalidMsg msg_Unmatched = true.
Proof. reflexivity. Qed.

Lemma isInvalidMsg_UnterminatedGroup : isInvalidMsg msg_UnterminatedGroup = true.
Proof. reflexivity. Qed.

Lemma isInvalidMsg_UnterminatedClass : isInvalidMsg msg_UnterminatedClass = true.
Proof. reflexivity. Qed.

Lemma scanBracket_ok fuel s :
  wf s -> (remaining s < fuel)%nat ->
  exists s', scanBracket isIdentifierPart fuel s = Some s' /\ extends s s'.
Proof.
  intros H Hf. unfold scanBracket.
  destruct (scanBracketLoop_ok fuel s H Hf) as (s1 & -> & He).
  assert (H1 := extends_wf _ _ He).
  destruct (negb (chr s1 =? rune "]")); eexists; (split; [reflexivity|]);
    (eapply extends_trans; [exact He|]).
  - apply extends_setInvalid; auto.
  - apply extends_pass; auto.
Qed.

Lemma msg_lookahead_valid raw : isInvalidMsg (msg_lookahead raw) = false.
Proof. reflexivity. Qed.

Lemma lookahead_ok s :
  wf s ->
  exists s' es, lookahead s = Some s' /\ extendsBy s s' es [] /\
                (es = [] \/ exists raw, es = [msg_lookahead raw]).
Proof.
  intros H. pose proof (wf_chrOffset s H) as Hb.
  unfold lookahead, sliceFrom.
  destruct (slice_ok (str s) (chrOffset s) (len (str s))) as (str0 & Hs); try lia.
  rewrite Hs.
  assert (Hlen : len str0 = len (str s) - chrOffset s).
  { unfold slice in Hs.
    destruct ((0 <=? chrOffset s) && (chrOffset s <=? len (str s))
              && (len (str s) <=? len (str s))); inversion Hs.
    unfold len. rewrite length_firstn, length_skipn. unfold len in Hb. lia. }
  assert (Hsame : exists s' es, Some s = Some s' /\ extendsBy s s' es [] /\
                  (es = [] \/ exists raw, es = [msg_lookahead raw])).
  { exists s, []. split; auto. split; auto. apply extendsBy_refl; auto. }
  destruct (1 <? len str0) eqn:E1; auto.
  apply Z.ltb_lt in E1.
  destruct (byteAt str0 0 =? rune "?"); auto.
  destruct ((byteAt str0 1 =? rune "=") || (byteAt str0 1 =? rune "!")); auto.
  destruct (slice_ok (str s) (chrOffset s) (chrOffset s + 2)) as (raw & ->); try lia.
  exists (error_ (msg_lookahead raw) s), [msg_lookahead raw].
  split; auto. split; eauto.
  apply extendsBy_error; auto.
Qed.

Lemma extendsBy_pass s :
  wf s -> chr s <> EOF ->
  exists es, extendsBy s (pass s) es (utf8.EncodeRune (chr s)) /\
             (es = [] \/ es = [msg_RuneError]).
Proof.
  intros H Hc. unfold pass.
  destruct (chr s =? EOF) eqn:E; [apply Z.eqb_eq in E; tauto|].
  destruct (extendsBy_read (writeRune (chr s) s)) as (es & He & Hes); auto.
  exists es. split; auto.
  pose proof (extendsBy_trans _ _ _ _ _ _ _ (extendsBy_write (utf8.EncodeRune (chr s)) s H) He) as Ht.
  rewrite app_nil_r in Ht. exact Ht.
Qed.

(** Opening a group: the [(] is written, then the lookahead is logged. *)
Lemma openGroup_ok s :
  wf s -> chr s <> EOF ->
  exists s', lookahead (pass s) = Some s' /\ extends s s' /\
             (remaining s' <= remaining (pass s))%nat /\
             chrOffset (pass s) <= chrOffset s'.
Proof.
  intros H Hc.
  destruct (extendsBy_pass s H Hc) as (es & He & _).
  destruct (lookahead_ok (pass s)) as (s' & es' & -> & He' & _).
  { destruct He; auto. }
  exists s'. split; auto.
  split; [|destruct He'; unfold remaining; split; lia].
  exists (es ++ es'), (utf8.EncodeRune (chr s) ++ []).
  split; [eapply extendsBy_trans; eauto|].
  intros _. rewrite app_nil_r. apply EncodeRune_nonempty.
Qed.

Lemma closeGroup_ok s : wf s -> extends s (closeGroup s).
Proof.
  intros H. unfold closeGroup. destruct (negb (chr s =? rune ")")).
  - apply extends_setInvalid; auto.
  - apply extends_pass; auto.
Qed.

Lemma scanGroupLoop_ok fuel : forall s,
  wf s -> (remaining s < fuel)%nat ->
  exists s', scanGroupLoop isIdentifierPart fuel s = Some s' /\ extends s s'.
Proof.
  induction fuel as [|fuel IH]; intros s H Hf; [lia|].
  cbn [scanGroupLoop].
  destruct ((chr s =? EOF) || (chr s =? rune ")")) eqn:E0.
  { eexists. split; [reflexivity|]. apply extends_refl; auto. }
  apply orb_false_iff in E0. destruct E0 as (E0 & _). apply Z.eqb_neq in E0.
  assert (Hcont : forall s1, extends s s1 -> (remaining s1 < fuel)%nat ->
            exists s', scanGroupLoop isIdentifierPart fuel s1 = Some s' /\ extends s s').
  { intros s1 He Hr. destruct (IH s1) as (s' & Hs & He2); auto.
    { eapply extends_wf; eauto. }
    exists s'. split; auto. eapply extends_trans; eauto. }
  assert (Hrd : (remaining (read s) < fuel)%nat) by (apply remaining_read; auto).
  assert (Hps : (remaining (pass s) < fuel)%nat) by (apply remaining_pass; auto).
  assert (Herd : extends s (read s)) by (apply extends_read; auto).
  assert (Heps : extends s (pass s)) by (apply extends_pass; auto).
  destruct (chr s =? rune "\").
  { destruct (scanEscape_ok fuel false (read s)) as (s1 & -> & He1); auto.
    { eapply extends_wf; eauto. }
    apply Hcont; [eapply extends_trans; [exact Herd | exact He1]|].
    pose proof (extends_remaining _ _ He1). lia. }
  destruct (chr s =? rune "(").
  { unfold scanGroupWith.
    destruct (openGroup_ok s H E0) as (s1 & -> & He1 & Hr1 & _).
    destruct (IH s1) as (s2 & -> & He2); [eapply extends_wf; eauto | lia |].
    assert (He3 := closeGroup_ok s2 (extends_wf _ _ He2)).
    apply Hcont.
    - eapply extends_trans; [exact He1|]. eapply extends_trans; eauto.
    - pose proof (extends_remaining _ _ He2).
      pose proof (extends_remaining _ _ He3). lia. }
  destruct (chr s =? rune "[").
  { destruct (scanBracket_ok fuel (pass s)) as (s1 & -> & He1); auto.
    { eapply extends_wf; eauto. }
    apply Hcont; [eapply extends_trans; [exact Heps | exact He1]|].
    pose proof (extends_remaining _ _ He1). lia. }
  apply Hcont; auto.
Qed.

Lemma extends_chrOffset s s' : extends s s' -> chrOffset s <= chrOffset s'.
Proof. intros (es & bs & [] & _). auto. Qed.

Lemma extends_input s s' : extends s s' -> str s' = str s /\ length s' = length s.
Proof. intros (es & bs & [] & _). auto. Qed.

Lemma scanGroup_ok fuel s :
  wf s -> chr s <> EOF -> (remaining (pass s) < fuel)%nat ->
  exists s', scanGroup isIdentifierPart fuel (pass s) = Some s' /\ extends s s' /\
             chrOffset (pass s) <= chrOffset s'.
Proof.
  intros H Hc Hf. unfold scanGroup, scanGroupWith.
  destruct (openGroup_ok s H Hc) as (s1 & -> & He1 & Hr1 & Ho1).
  destruct (scanGroupLoop_ok fuel s1) as (s2 & -> & He2);
    [eapply extends_wf; eauto | lia |].
  assert (He3 := closeGroup_ok s2 (extends_wf _ _ He2)).
  eexists. split; [reflexivity|]. split.
  - eapply extends_trans; [exact He1|]. eapply extends_trans; [exact He2|].
    exact He3.
  - pose proof (extends_chrOffset _ _ He2). pose proof (extends_chrOffset _ _ He3).
    lia.
Qed.

Lemma scan_ok fuel : forall s,
  wf s -> (remaining s < fuel)%nat ->
  exists s', scan isIdentifierPart fuel s = Some s' /\ extends s s' /\ chr s' = EOF.
Proof.
  induction fuel as [|fuel IH]; intros s H Hf; [lia|].
  cbn [scan].
  destruct (chr s =? EOF) eqn:E0.
  { apply Z.eqb_eq in E0. eexists. split; [reflexivity|].
    split; auto. apply extends_refl; auto. }
  apply Z.eqb_neq in E0.
  assert (Hcont : forall s1, extends s s1 -> (remaining s1 < fuel)%nat ->
            exists s', scan isIdentifierPart fuel s1 = Some s'
                       /\ extends s s' /\ chr s' = EOF).
  { intros s1 He Hr. destruct (IH s1) as (s' & Hs & He2 & Hc); auto.
    { eapply extends_wf; eauto. }
    exists s'. split; auto. split; auto. eapply extends_trans; eauto. }
  assert (Hrd : (remaining (read s) < fuel)%nat) by (apply remaining_read; auto).
  assert (Hps : (remaining (pass s) < fuel)%nat) by (apply remaining_pass; auto).
  assert (Herd : extends s (read s)) by (apply extends_read; auto).
  assert (Heps : extends s (pass s)) by (apply extends_pass; auto).
  destruct (chr s =? rune "\").
  { destruct (scanEscape_ok fuel false (read s)) as (s1 & -> & He1); auto.
    { eapply extends_wf; eauto. }
    apply Hcont; [eapply extends_trans; [exact Herd | exact He1]|].
    pose proof (extends_remaining _ _ He1). lia. }
  destruct (chr s =? rune "(").
  { destruct (scanGroup_ok fuel s H E0 Hps) as (s1 & Hs & He1 & Ho1).
    rewrite Hs. apply Hcont; auto.
    destruct (extends_input _ _ He1) as (_ & Hl1).
    destruct (extends_input _ _ Heps) as (_ & Hlp).
    unfold remaining in *. lia. }
  destruct (chr s =? rune "[").
  { destruct (scanBracket_ok fuel (pass s)) as (s1 & -> & He1); auto.
    { eapply extends_wf; eauto. }
    apply Hcont; [eapply extends_trans; [exact Heps | exact He1]|].
    pose proof (extends_remaining _ _ He1). lia. }
  destruct (chr s =? rune ")").
  { assert (He : extends s (setInvalid (error_ msg_Unmatched s)))
      by (apply extends_setInvalid; auto).
    assert (Hw := extends_wf _ _ He).
    apply Hcont.
    - eapply extends_trans; [exact He|]. apply extends_pass; auto.
    - apply remaining_pass; auto. }
  apply Hcont; auto.
Qed.

(** *** One iteration of a loop moves the cursor forward *)

(** [s'] is further in the same input than [s]. *)
Definition advances (s s' : _RegExp_parser) : Prop :=
  wf s' /\ str s' = str s /\ length s' = length s /\ chrOffset s < chrOffset s'.

Lemma advances_read s : wf s -> chr s <> EOF -> advances s (read s).
Proof.
  intros H Hc. destruct (read_fields s) as (Hs & Hl & _).
  pose proof (read_chrOffset s H Hc).
  split; [apply read_wf, wf_readable; auto|]. split; auto. split; auto. lia.
Qed.

Lemma advances_pass s : wf s -> chr s <> EOF -> advances s (pass s).
Proof.
  intros H Hc. unfold pass.
  destruct (chr s =? EOF) eqn:E; [apply Z.eqb_eq in E; tauto|].
  apply (advances_read (writeRune (chr s) s)); auto.
Qed.

Lemma advances_extends s s1 s2 : advances s s1 -> extends s1 s2 -> advances s s2.
Proof.
  intros (Hw & Hs & Hl & Ho) He.
  destruct (extends_input _ _ He) as (Hs2 & Hl2).
  pose proof (extends_chrOffset _ _ He).
  split; [eapply extends_wf; eauto|].
  split; [congruence|]. split; [congruence | lia].
Qed.

Lemma advances_remaining s s' fuel :
  wf s -> advances s s' -> (remaining s <= S fuel)%nat -> (remaining s' <= fuel)%nat.
Proof.
  intros H (Hw & _ & Hl & Ho) Hf.
  pose proof (wf_chrOffset s' Hw). destruct Hw as (Hlen & _).
  unfold remaining in *. lia.
Qed.

Lemma scanBracketLoop_iteration fuel s :
  wf s -> chr s <> EOF -> chr s <> rune "]" -> (remaining s <= fuel)%nat ->
  exists s1,
    scanBracketLoop isIdentifierPart (S fuel) s
    = scanBracketLoop isIdentifierPart fuel s1 /\ advances s s1.
Proof.
  intros H Hc Hb Hf. cbn [scanBracketLoop].
  apply Z.eqb_neq in Hb. rewrite (proj2 (Z.eqb_neq _ _) Hc), Hb.
  destruct (chr s =? rune "\").
  - destruct (scanEscape_ok fuel true (read s)) as (s1 & -> & He).
    { apply read_wf, wf_readable; auto. }
    { apply remaining_read; auto. lia. }
    exists s1. split; [reflexivity|].
    eapply advances_extends; [apply advances_read; auto | exact He].
  - exists (pass s). split; [reflexivity|]. apply advances_pass; auto.
Qed.

Lemma scanGroupLoop_iteration fuel s :
  wf s -> chr s <> EOF -> chr s <> rune ")" -> (remaining s <= fuel)%nat ->
  exists s1,
    scanGroupLoop isIdentifierPart (S fuel) s
    = scanGroupLoop isIdentifierPart fuel s1 /\ advances s s1.
Proof.
  intros H Hc Hb Hf. cbn [scanGroupLoop].
  apply Z.eqb_neq in Hb. rewrite (proj2 (Z.eqb_neq _ _) Hc), Hb. cbn [orb].
  assert (Hrd : (remaining (read s) < fuel)%nat) by (apply remaining_read; auto; lia).
  assert (Hps : (remaining (pass s) < fuel)%nat) by (apply remaining_pass; auto; lia).
  assert (Hap := advances_pass s H Hc).
  destruct (chr s =? rune "\").
  { destruct (scanEscape_ok fuel false (read s)) as (s1 & -> & He); auto.
    { apply read_wf, wf_readable; auto. }
    exists s1. split; [reflexivity|].
    eapply advances_extends; [apply advances_read; auto | exact He]. }
  destruct (chr s =? rune "(").
  { destruct (scanGroup_ok fuel s H Hc Hps) as (s1 & Hs & He & Ho).
    unfold scanGroup in Hs. rewrite Hs.
    exists s1. split; [reflexivity|].
    destruct (extends_input _ _ He) as (Hs1 & Hl1).
    destruct Hap as (_ & _ & _ & Hlt).
    split; [eapply extends_wf; eauto|]. split; auto. split; auto. lia. }
  destruct (chr s =? rune "[").
  { destruct (scanBracket_ok fuel (pass s)) as (s1 & -> & He); auto.
    { destruct Hap; auto. }
    exists s1. split; [reflexivity|].
    eapply advances_extends; [exact Hap | exact He]. }
  exists (pass s). split; [reflexivity | exact Hap].
Qed.

Lemma scan_iteration fuel s :
  wf s -> chr s <> EOF -> (remaining s <= fuel)%nat ->
  exists s1,
    scan isIdentifierPart (S fuel) s = scan isIdentifierPart fuel s1 /\
    advances s s1.
Proof.
  intros H Hc Hf. cbn [scan].
  rewrite (proj2 (Z.eqb_neq _ _) Hc).
  assert (Hrd : (remaining (read s) < fuel)%nat) by (apply remaining_read; auto; lia).
  assert (Hps : (remaining (pass s) < fuel)%nat) by (apply remaining_pass; auto; lia).
  assert (Hap := advances_pass s H Hc).
  destruct (chr s =? rune "\").
  { destruct (scanEscape_ok fuel false (read s)) as (s1 & -> & He); auto.
    { apply read_wf, wf_readable; auto. }
    exists s1. split; [reflexivity|].
    eapply advances_extends; [apply advances_read; auto | exact He]. }
  destruct (chr s =? rune "(").
  { destruct (scanGroup_ok fuel s H Hc Hps) as (s1 & -> & He & Ho).
    exists s1. split; [reflexivity|].
    destruct (extends_input _ _ He) as (Hs1 & Hl1).
    destruct Hap as (_ & _ & _ & Hlt).
    split; [eapply extends_wf; eauto|]. split; auto. split; auto. lia. }
  destruct (chr s =? rune "[").
  { destruct (scanBracket_ok fuel (pass s)) as (s1 & -> & He); auto.
    { destruct Hap; auto. }
    exists s1. split; [reflexivity|].
    eapply advances_extends; [exact Hap | exact He]. }
  destruct (chr s =? rune ")").
  { assert (Hinv : extends s (setInvalid (error_ msg_Unmatched s)))
      by (apply extends_setInvalid; [exact H | reflexivity]).
    exists (pass (setInvalid (error_ msg_Unmatched s))). split; [reflexivity|].
    apply (advances_pass (setInvalid (error_ msg_Unmatched s)));
      [eapply extends_wf; eauto | exact Hc]. }
  exists (pass s). split; [reflexivity | exact Hap].
Qed.

(** The digit loops of [scanEscape]: an iteration that does not leave the
    loop reads one character. *)
Lemma digitLoops_iteration s :
  wf s ->
  (forall fuel value size,
      digitValue (chr s) < 8 ->
      advances s (read s) /\
      octalLoop (S fuel) s value size
      = octalLoop fuel (read s) (wrap64 (value * 8 + digitValue (chr s))) (size + 1)) /\
  (forall fuel,
      digitValue (chr s) < 10 ->
      advances s (read s) /\
      decimalLoop (S fuel) s = decimalLoop fuel (read s)) /\
  (forall n base value,
      base <= 16 -> digitValue (chr s) < base ->
      advances s (read s) /\
      hexLoop (S n) base s value
      = hexLoop n base (read s) (wrap32u (value * base + digitValue (chr s)))).
Proof.
  intros H. split; [|split].
  - intros fuel value size Hd.
    split; [apply advances_read; auto; apply digit_not_EOF; lia|].
    simpl. replace (digitValue (chr s) >=? 8) with false; auto.
    symmetry. rewrite Z.geb_leb. apply Z.leb_gt. auto.
  - intros fuel Hd.
    split; [apply advances_read; auto; apply digit_not_EOF; lia|].
    simpl. replace (digitValue (chr s) >=? 10) with false; auto.
    symmetry. rewrite Z.geb_leb. apply Z.leb_gt. auto.
  - intros n base value Hb Hd.
    split; [apply advances_read; auto; apply digit_not_EOF; lia|].
    cbn [hexLoop]. rewrite wrap32u_digitValue.
    replace (digitValue (chr s) >=? base) with false; auto.
    symmetry. rewrite Z.geb_leb. apply Z.leb_gt. auto.
Qed.

(** *** More fuel does not change a result *)

Lemma octalLoop_mono fuel : forall fuel' s value size r,
  octalLoop fuel s value size = Some r -> (fuel <= fuel')%nat ->
  octalLoop fuel' s value size = Some r.
Proof.
  induction fuel as [|fuel IH]; intros fuel' s value size r Hr Hle; [discriminate|].
  destruct fuel' as [|fuel']; [lia|]. simpl in *.
  destruct (digitValue (chr s) >=? 8); auto.
  apply IH; auto. lia.
Qed.

Lemma decimalLoop_mono fuel : forall fuel' s r,
  decimalLoop fuel s = Some r -> (fuel <= fuel')%nat ->
  decimalLoop fuel' s = Some r.
Proof.
  induction fuel as [|fuel IH]; intros fuel' s r Hr Hle; [discriminate|].
  destruct fuel' as [|fuel']; [lia|]. simpl in *.
  destruct (digitValue (chr s) >=? 10); auto.
  apply IH; auto. lia.
Qed.

Ltac bind_mono lemma :=
  match goal with
  | H : match ?e with Some _ => _ | None => None end = Some _ |- _ =>
    let E := fresh "E" in
    destruct e eqn:E; [|discriminate];
    erewrite lemma by (first [exact E | eassumption | lia])
  end.

Lemma scanEscape_mono fuel fuel' inClass s r :
  scanEscape isIdentifierPart fuel inClass s = Some r -> (fuel <= fuel')%nat ->
  scanEscape isIdentifierPart fuel' inClass s = Some r.
Proof.
  unfold scanEscape. intros Hr Hle.
  destruct (caseOf (chr s) _).
  { bind_mono octalLoop_mono. exact Hr. }
  destruct (caseOf (chr s) _).
  { bind_mono decimalLoop_mono. exact Hr. }
  exact Hr.
Qed.

Lemma scanBracketLoop_mono fuel : forall fuel' s r,
  scanBracketLoop isIdentifierPart fuel s = Some r -> (fuel <= fuel')%nat ->
  scanBracketLoop isIdentifierPart fuel' s = Some r.
Proof.
  induction fuel as [|fuel IH]; intros fuel' s r Hr Hle; [discriminate|].
  destruct fuel' as [|fuel']; [lia|]. cbn [scanBracketLoop] in *.
  destruct (chr s =? EOF); auto.
  destruct (chr s =? rune "]"); auto.
  destruct (chr s =? rune "\").
  - bind_mono scanEscape_mono. apply IH; auto. lia.
  - apply IH; auto. lia.
Qed.

Lemma scanBracket_mono fuel fuel' s r :
  scanBracket isIdentifierPart fuel s = Some r -> (fuel <= fuel')%nat ->
  scanBracket isIdentifierPart fuel' s = Some r.
Proof.
  unfold scanBracket. intros Hr Hle.
  bind_mono scanBracketLoop_mono. exact Hr.
Qed.

Lemma scanGroupLoop_mono fuel : forall fuel' s r,
  scanGroupLoop isIdentifierPart fuel s = Some r -> (fuel <= fuel')%nat ->
  scanGroupLoop isIdentifierPart fuel' s = Some r.
Proof.
  induction fuel as [|fuel IH]; intros fuel' s r Hr Hle; [discriminate|].
  destruct fuel' as [|fuel']; [lia|]. cbn [scanGroupLoop] in *.
  assert (Hle' : (fuel <= fuel')%nat) by lia.
  destruct ((chr s =? EOF) || (chr s =? rune ")")); auto.
  destruct (chr s =? rune "\").
  { bind_mono scanEscape_mono. apply IH; auto. }
  destruct (chr s =? rune "(").
  { unfold scanGroupWith in *.
    destruct (lookahead (pass s)) as [s1|]; [|discriminate].
    destruct (scanGroupLoop isIdentifierPart fuel s1) eqn:E; [|discriminate].
    rewrite (IH _ _ _ E Hle'). apply IH; auto. }
  destruct (chr s =? rune "[").
  { bind_mono scanBracket_mono. apply IH; auto. }
  apply IH; auto.
Qed.

Lemma scanGroup_mono fuel fuel' s r :
  scanGroup isIdentifierPart fuel s = Some r -> (fuel <= fuel')%nat ->
  scanGroup isIdentifierPart fuel' s = Some r.
Proof.
  unfold scanGroup, scanGroupWith. intros Hr Hle.
  destruct (lookahead s); [|discriminate].
  bind_mono scanGroupLoop_mono. exact Hr.
Qed.

Lemma scan_mono fuel : forall fuel' s r,
  scan isIdentifierPart fuel s = Some r -> (fuel <= fuel')%nat ->
  scan isIdentifierPart fuel' s = Some r.
Proof.
  induction fuel as [|fuel IH]; intros fuel' s r Hr Hle; [discriminate|].
  destruct fuel' as [|fuel']; [lia|]. cbn [scan] in *.
  assert (Hle' : (fuel <= fuel')%nat) by lia.
  destruct (chr s =? EOF); auto.
  destruct (chr s =? rune "\").
  { bind_mono scanEscape_mono. apply IH; auto. }
  destruct (chr s =? rune "(").
  { bind_mono scanGroup_mono. apply IH; auto. }
  destruct (chr s =? rune "[").
  { bind_mono scanBracket_mono. apply IH; auto. }
  destruct (chr s =? rune ")"); apply IH; auto.
Qed.

(** *** The run of [TransformRegExp] *)

Lemma newParser_readable pattern : readable (newParser pattern).
Proof.
  unfold readable, newParser. simpl. pose proof (len_nonneg pattern). lia.
Qed.

Lemma firstRead_wf pattern : wf (read (newParser pattern)).
Proof. apply read_wf, newParser_readable. Qed.

Lemma firstRead_remaining pattern :
  (remaining (read (newParser pattern)) < S (List.length pattern))%nat.
Proof.
  pose proof (wf_chrOffset _ (firstRead_wf pattern)) as H.
  destruct (read_fields (newParser pattern)) as (_ & Hl & _).
  unfold remaining. rewrite Hl. simpl. unfold len. lia.
Qed.


(** The parser as [TransformRegExp] finds it after [parser.scan()]. *)
Definition scanned (pattern : gostring) (s : _RegExp_parser) : Prop :=
  scan isIdentifierPart (S (List.length pattern)) (read (newParser pattern)) = Some s.

Lemma scanned_ok pattern :
  exists s, scanned pattern s /\ extends (read (newParser pattern)) s /\ chr s = EOF.
Proof.
  apply scan_ok; [apply firstRead_wf | apply firstRead_remaining].
Qed.

Lemma TransformRegExp_scanned pattern s :
  pattern <> [] -> scanned pattern s ->
  TransformRegExp isIdentifierPart pattern =
  Some (if invalid s then [] else buffer s, hd_error (errors s)).
Proof.
  intros Hne Hs. unfold TransformRegExp, TransformRegExp_fuel.
  destruct pattern as [|b t]; [congruence|].
  unfold scanned in Hs. rewrite Hs. destruct (invalid s); reflexivity.
Qed.

(** C10. [TransformRegExp] terminates on every byte string, malformed
    UTF-8 included: it returns with one unit of fuel per input byte plus
    one, and more fuel does not change the result.  [read] moves
    [chrOffset] strictly forward until it delivers the end-of-input
    sentinel; [scanEscape], [scanBracket], [scanGroup] and [scan] return
    within as many iterations as there are bytes left; and every iteration
    of the loops of [scan], [scanGroup], [scanBracket] and [scanEscape]
    that does not leave the loop moves the cursor strictly forward. *)
Theorem TransformRegExp_terminates :
  (forall pattern, exists out err,
      TransformRegExp isIdentifierPart pattern = Some (out, err) /\
      forall fuel, (List.length pattern < fuel)%nat ->
                   TransformRegExp_fuel isIdentifierPart fuel pattern = Some (out, err)) /\
  (forall s, wf s -> chr s <> EOF ->
             wf (read s) /\ chrOffset s < chrOffset (read s) <= length s) /\
  (forall s inClass, wf s ->
      exists s', scanEscape isIdentifierPart (S (remaining s)) inClass s = Some s' /\
                 wf s' /\ chrOffset s <= chrOffset s') /\
  (forall s, wf s ->
      exists s', scanBracket isIdentifierPart (S (remaining s)) s = Some s' /\
                 wf s' /\ chrOffset s <= chrOffset s') /\
  (forall s, wf s -> chr s <> EOF ->
      exists s', scanGroup isIdentifierPart (S (remaining s)) (pass s) = Some s' /\
                 wf s' /\ chrOffset s <= chrOffset s') /\
  (forall s, wf s ->
      exists s', scan isIdentifierPart (S (remaining s)) s = Some s' /\
                 wf s' /\ chr s' = EOF /\ chrOffset s' = length s) /\
  (forall fuel s, wf s -> chr s <> EOF -> (remaining s <= fuel)%nat ->
      exists s1, scan isIdentifierPart (S fuel) s = scan isIdentifierPart fuel s1 /\
                 wf s1 /\ chrOffset s < chrOffset s1) /\
  (forall fuel s, wf s -> chr s <> EOF -> chr s <> rune ")" ->
      (remaining s <= fuel)%nat ->
      exists s1, scanGroupLoop isIdentifierPart (S fuel) s
                 = scanGroupLoop isIdentifierPart fuel s1 /\
                 wf s1 /\ chrOffset s < chrOffset s1) /\
  (forall fuel s, wf s -> chr s <> EOF -> chr s <> rune "]" ->
      (remaining s <= fuel)%nat ->
      exists s1, scanBracketLoop isIdentifierPart (S fuel) s
                 = scanBracketLoop isIdentifierPart fuel s1 /\
                 wf s1 /\ chrOffset s < chrOffset s1) /\
  (forall fuel s value size, wf s -> digitValue (chr s) < 8 ->
      exists value', octalLoop (S fuel) s value size
                     = octalLoop fuel (read s) value' (size + 1) /\
                     chrOffset s < chrOffset (read s)) /\
  (forall fuel s, wf s -> digitValue (chr s) < 10 ->
      decimalLoop (S fuel) s = decimalLoop fuel (read s) /\
      chrOffset s < chrOffset (read s)) /\
  (forall n s value, wf s -> digitValue (chr s) < 16 ->
      exists value', hexLoop (S n) 16 s value = hexLoop n 16 (read s) value' /\
                     chrOffset s < chrOffset (read s)).
Proof.
  assert (Hext : forall s s', extends s s' -> wf s' /\ chrOffset s <= chrOffset s').
  { intros s s' (es & bs & [] & _). auto. }
  assert (Hadv : forall s s', advances s s' -> wf s' /\ chrOffset s < chrOffset s').
  { intros s s' (Hw & _ & _ & Ho). auto. }
  repeat match goal with |- _ /\ _ => split end.
  - intros pattern. destruct pattern as [|b t].
    { exists [], None. split; [reflexivity|]. intros fuel _. reflexivity. }
    destruct (scanned_ok (b :: t)) as (s & Hs & _).
    eexists _, _. split.
    + apply TransformRegExp_scanned; [discriminate | exact Hs].
    + intros fuel Hf. unfold TransformRegExp_fuel.
      rewrite (scan_mono _ fuel _ _ Hs) by lia.
      destruct (invalid s); reflexivity.
  - intros s H Hc. split; [apply read_wf, wf_readable; auto|].
    apply read_chrOffset; auto.
  - intros s inClass H.
    destruct (scanEscape_ok (S (remaining s)) inClass s H) as (s' & Hs & He); [lia|].
    exists s'. split; auto.
  - intros s H.
    destruct (scanBracket_ok (S (remaining s)) s H) as (s' & Hs & He); [lia|].
    exists s'. split; auto.
  - intros s H Hc.
    destruct (scanGroup_ok (S (remaining s)) s H Hc) as (s' & Hs & He & _).
    { apply remaining_pass; auto. }
    exists s'. split; auto.
  - intros s H.
    destruct (scan_ok (S (remaining s)) s H) as (s' & Hs & He & Hc); [lia|].
    exists s'. split; auto. destruct (Hext _ _ He) as (Hw & _).
    split; auto. split; auto.
    destruct He as (es & bs & [] & _).
    destruct Hw as [_ [Hw | Hw]]; [lia | unfold EOF in *; lia].
  - intros fuel s H Hc Hf.
    destruct (scan_iteration fuel s H Hc Hf) as (s1 & Hs & Ha).
    exists s1. split; auto.
  - intros fuel s H Hc Hp Hf.
    destruct (scanGroupLoop_iteration fuel s H Hc Hp Hf) as (s1 & Hs & Ha).
    exists s1. split; auto.
  - intros fuel s H Hc Hb Hf.
    destruct (scanBracketLoop_iteration fuel s H Hc Hb Hf) as (s1 & Hs & Ha).
    exists s1. split; auto.
  - intros fuel s value size H Hd.
    destruct (digitLoops_iteration s H) as (Ho & _ & _).
    destruct (Ho fuel value size Hd) as (Ha & ->).
    eexists. split; [reflexivity|]. apply Hadv; auto.
  - intros fuel s H Hd.
    destruct (digitLoops_iteration s H) as (_ & Ho & _).
    destruct (Ho fuel Hd) as (Ha & ->).
    split; [reflexivity|]. apply Hadv; auto.
  - intros n s value H Hd.
    destruct (digitLoops_iteration s H) as (_ & _ & Ho).
    destruct (Ho n 16 value ltac:(lia) Hd) as (Ha & ->).
    eexists. split; [reflexivity|]. apply Hadv; auto.
Qed.


(** *** Scanning ordinary ASCII characters *)

(** The parser on character [c] of the input [done ++ c :: rest]. *)
Definition cur (done : gostring) (c : ascii) (rest : gostring)
           (es : list error) (inv : bool) (buf : gostring) : _RegExp_parser :=
  mkParser (done ++ c :: rest) (len (done ++ c :: rest)) (byteZ c)
           (len done) (len done + 1) es inv buf.

(** The parser after [done], on the first character of [rest] or at the
    end of input. *)
Definition cursor (done rest : gostring)
           (es : list error) (inv : bool) (buf : gostring) : _RegExp_parser :=
  match rest with
  | c :: rest' => cur done c rest' es inv buf
  | [] => mkParser done (len done) EOF (len done) (len done) es inv buf
  end.

Lemma cur_chr done c rest es inv buf : chr (cur done c rest es inv buf) = byteZ c.
Proof. reflexivity. Qed.

Definition asciiHead (l : gostring) : Prop :=
  match l with
  | c :: _ => byteZ c < 128
  | [] => True
  end.

Lemma len_app {A} (l1 l2 : list A) : len (l1 ++ l2) = len l1 + len l2.
Proof. unfold len. rewrite length_app. lia. Qed.

Lemma byteAt_app done c rest : byteAt (done ++ c :: rest) (len done) = byteZ c.
Proof.
  unfold byteAt, len. rewrite Nat2Z.id, nth_middle. reflexivity.
Qed.

Lemma byte_of_byteZ c : byte_of_Z (byteZ c) = c.
Proof.
  unfold byte_of_Z. pose proof (byteZ_range c).
  rewrite Z.mod_small by lia. unfold byteZ. rewrite N2Z.id.
  apply ascii_N_embedding.
Qed.

Lemma EncodeRune_ascii c : byteZ c < 128 -> utf8.EncodeRune (byteZ c) = [c].
Proof.
  intros H. pose proof (byteZ_range c). unfold utf8.EncodeRune.
  replace ((0 <=? byteZ c) && (byteZ c <=? utf8.rune1Max)) with true.
  - rewrite byte_of_byteZ. reflexivity.
  - symmetry. rewrite andb_true_iff, !Z.leb_le. unfold utf8.rune1Max. lia.
Qed.

Lemma read_to_cursor done rest ch co es inv buf :
  asciiHead rest ->
  read (mkParser (done ++ rest) (len (done ++ rest)) ch co (len done) es inv buf)
  = cursor done rest es inv buf.
Proof.
  intros Ha. unfold read. cbn [offset length str errors invalid buffer].
  destruct rest as [|c rest]; simpl cursor.
  - rewrite app_nil_r. rewrite Z.ltb_irrefl. reflexivity.
  - simpl in Ha. rewrite len_app, len_cons. pose proof (len_nonneg rest).
    replace (len done <? len done + (1 + len rest)) with true
      by (symmetry; apply Z.ltb_lt; lia).
    rewrite byteAt_app.
    replace (byteZ c >=? utf8.RuneSelf) with false
      by (symmetry; unfold utf8.RuneSelf; rewrite Z.geb_leb; apply Z.leb_gt; lia).
    unfold cur. rewrite len_app, len_cons. reflexivity.
Qed.

Lemma firstRead_cursor pattern :
  asciiHead pattern -> read (newParser pattern) = cursor [] pattern [] false [].
Proof.
  intros Ha. unfold newParser. apply (read_to_cursor [] pattern 0 0 [] false [] Ha).
Qed.

Lemma byteZ_not_EOF c : (byteZ c =? EOF) = false.
Proof. pose proof (byteZ_range c). apply Z.eqb_neq. unfold EOF. lia. Qed.

Lemma pass_cur done c rest es inv buf :
  byteZ c < 128 -> asciiHead rest ->
  pass (cur done c rest es inv buf) = cursor (done ++ [c]) rest es inv (buf ++ [c]).
Proof.
  intros Hc Ha. unfold pass, cur. cbn [chr].
  rewrite byteZ_not_EOF. unfold writeRune, write. cbn [str length chr chrOffset offset errors invalid buffer].
  rewrite EncodeRune_ascii by auto.
  replace (done ++ c :: rest) with ((done ++ [c]) ++ rest)
    by (rewrite <- app_assoc; reflexivity).
  replace (len done + 1) with (len (done ++ [c]))
    by (rewrite len_app; reflexivity).
  apply read_to_cursor. auto.
Qed.

(** A character that [scan] passes through: ASCII and none of [\ ( [ )]. *)
Definition plain (c : ascii) : Prop :=
  byteZ c < 128 /\ byteZ c <> rune "\" /\ byteZ c <> rune "("
  /\ byteZ c <> rune "[" /\ byteZ c <> rune ")".

Lemma scan_plain fuel done c rest es inv buf :
  plain c -> asciiHead rest ->
  scan isIdentifierPart (S fuel) (cur done c rest es inv buf)
  = scan isIdentifierPart fuel (cursor (done ++ [c]) rest es inv (buf ++ [c])).
Proof.
  intros (Ha & H1 & H2 & H3 & H4) Hr. cbn [scan].
  rewrite <- pass_cur by auto.
  assert (Hc : chr (cur done c rest es inv buf) = byteZ c) by reflexivity.
  rewrite Hc, byteZ_not_EOF.
  apply Z.eqb_neq in H1, H2, H3, H4. rewrite H1, H2, H3, H4. reflexivity.
Qed.

Lemma asciiHead_app pre l :
  Forall plain pre -> asciiHead l -> asciiHead (pre ++ l).
Proof.
  intros Hp Hl. destruct pre as [|x pre]; simpl; auto.
  inversion Hp; subst. destruct H1; auto.
Qed.

Lemma scan_plain_prefix pre : forall fuel done l es inv buf,
  Forall plain pre -> asciiHead l ->
  scan isIdentifierPart (List.length pre + fuel) (cursor done (pre ++ l) es inv buf)
  = scan isIdentifierPart fuel (cursor (done ++ pre) l es inv (buf ++ pre)).
Proof.
  induction pre as [|x pre IH]; intros fuel done l es inv buf Hp Hl.
  - simpl. rewrite !app_nil_r. reflexivity.
  - inversion Hp; subst. cbn [List.length Nat.add app cursor].
    rewrite scan_plain by (auto using asciiHead_app).
    rewrite IH by auto. rewrite <- !app_assoc. reflexivity.
Qed.

(** *** Group openings *)


Lemma sliceFrom_skipn l k :
  0 <= k <= len l -> sliceFrom l k = Some (skipn (Z.to_nat k) l).
Proof.
  intros H. unfold sliceFrom, slice.
  replace ((0 <=? k) && (k <=? len l) && (len l <=? len l)) with true
    by (symmetry; rewrite !andb_true_iff, !Z.leb_le; lia).
  rewrite firstn_all2; auto. rewrite length_skipn. unfold len. lia.
Qed.

Lemma byteAt_skipn l k i :
  0 <= k -> 0 <= i -> byteAt (skipn (Z.to_nat k) l) i = byteAt l (k + i).
Proof.
  intros Hk Hi. unfold byteAt. rewrite nth_skipn.
  replace (Z.to_nat k + Z.to_nat i)%nat with (Z.to_nat (k + i)) by lia.
  reflexivity.
Qed.




Lemma extends_log s s' :
  extends s s' ->
  exists es bs, errors s' = errors s ++ es /\ buffer s' = buffer s ++ bs /\
                invalid s' = invalid s || existsb isInvalidMsg es.
Proof. intros (es & bs & [] & _). eauto. Qed.


Lemma cur_wf done c rest es inv buf : wf (cur done c rest es inv buf).
Proof.
  unfold wf, cur. simpl. split; auto. right.
  pose proof (byteZ_range c). pose proof (len_nonneg done). pose proof (len_nonneg rest).
  rewrite len_app, len_cons. lia.
Qed.

Lemma cur_remaining done c rest es inv buf :
  remaining (cur done c rest es inv buf) = S (List.length rest).
Proof.
  unfold remaining, cur. simpl. rewrite len_app, len_cons. unfold len. lia.
Qed.



(** *** Invalid patterns *)

Lemma error_cursor e done rest es inv buf :
  error_ e (cursor done rest es inv buf) = cursor done rest (es ++ [e]) inv buf.
Proof. destruct rest; reflexivity. Qed.

Lemma cursor_wf done rest es inv buf : wf (cursor done rest es inv buf).
Proof.
  destruct rest as [|c rest]; [|apply cur_wf].
  unfold wf, cursor. simpl. auto.
Qed.


Lemma scan_at_end fuel done es inv buf :
  scan isIdentifierPart (S fuel) (cursor done [] es inv buf)
  = Some (cursor done [] es inv buf).
Proof. reflexivity. Qed.

Lemma scanGroupLoop_plain fuel done c rest es inv buf :
  plain c -> asciiHead rest ->
  scanGroupLoop isIdentifierPart (S fuel) (cur done c rest es inv buf)
  = scanGroupLoop isIdentifierPart fuel (cursor (done ++ [c]) rest es inv (buf ++ [c])).
Proof.
  intros (Ha & H1 & H2 & H3 & H4) Hr. cbn [scanGroupLoop].
  rewrite <- pass_cur by auto.
  rewrite cur_chr, byteZ_not_EOF.
  apply Z.eqb_neq in H1, H2, H3, H4. rewrite H1, H2, H3, H4. reflexivity.
Qed.


Lemma plain_ascii c : plain c -> byteZ c < 128.
Proof. intros (H & _). exact H. Qed.


(** A character that [scanBracket] passes through: ASCII and neither [\]
    nor []]. *)
Definition classPlain (c : ascii) : Prop :=
  byteZ c < 128 /\ byteZ c <> rune "\" /\ byteZ c <> rune "]".

Lemma classPlain_ascii c : classPlain c -> byteZ c < 128.
Proof. intros (H & _). exact H. Qed.

Lemma scanBracketLoop_plain fuel done c rest es inv buf :
  classPlain c -> asciiHead rest ->
  scanBracketLoop isIdentifierPart (S fuel) (cur done c rest es inv buf)
  = scanBracketLoop isIdentifierPart fuel (cursor (done ++ [c]) rest es inv (buf ++ [c])).
Proof.
  intros (Ha & H1 & H2) Hr. cbn [scanBracketLoop].
  rewrite <- pass_cur by auto.
  rewrite cur_chr, byteZ_not_EOF.
  apply Z.eqb_neq in H1, H2. rewrite H1, H2. reflexivity.
Qed.


(** The run of [TransformRegExp] on [pre ++ c :: rest] when [pre] is
    ordinary: the scan reaches [c] with [pre] written and nothing logged. *)
Lemma scanned_after_plain pre c rest s :
  Forall plain pre -> byteZ c < 128 ->
  scan isIdentifierPart (S (S (List.length rest))) (cur pre c rest [] false pre) = Some s ->
  scanned (pre ++ c :: rest) s.
Proof.
  intros Hp Hc Hs. unfold scanned.
  rewrite firstRead_cursor by (apply asciiHead_app; auto).
  rewrite length_app. cbn [List.length].
  replace (S (List.length pre + S (List.length rest)))
    with (List.length pre + S (S (List.length rest)))%nat by lia.
  rewrite (scan_plain_prefix pre _ [] (c :: rest)) by auto.
  exact Hs.
Qed.





(** *** Escapes *)

Lemma read_write bs s : read (write bs s) = write bs (read s).
Proof.
  unfold read, write, error_. cbn [str length chr chrOffset offset errors invalid buffer].
  destruct (offset s <? length s); [|reflexivity].
  destruct (byteAt (str s) (offset s) >=? utf8.RuneSelf); [|reflexivity].
  destruct (utf8.DecodeRuneInString _) as [c w].
  destruct ((c =? utf8.RuneError) && (w =? 1)); reflexivity.
Qed.

(** The error, if any, that [read] logs when it fetches the character at
    the head of [rest]: a byte that starts no valid UTF-8 sequence. *)
Definition followError (rest : gostring) : list error :=
  match rest with
  | [] => []
  | c :: _ =>
    if byteZ c >=? utf8.RuneSelf then
      let '(r, w) := utf8.DecodeRuneInString rest in
      if (r =? utf8.RuneError) && (w =? 1) then [msg_RuneError] else []
    else []
  end.

Lemma skipn_len_app {A} (l1 l2 : list A) : skipn (Z.to_nat (len l1)) (l1 ++ l2) = l2.
Proof.
  unfold len. rewrite Nat2Z.id, skipn_app, skipn_all, Nat.sub_diag. reflexivity.
Qed.

Lemma read_cur done c rest es inv buf :
  let s := read (cur done c rest es inv buf) in
  str s = done ++ c :: rest /\ length s = len (done ++ c :: rest) /\
  errors s = es ++ followError rest /\ invalid s = inv /\ buffer s = buf /\
  chr s = match rest with
          | [] => EOF
          | c' :: _ => if byteZ c' <? 128 then byteZ c'
                       else fst (utf8.DecodeRuneInString rest)
          end.
Proof.
  unfold cur, read. cbn [str length chr chrOffset offset errors invalid buffer].
  replace (done ++ c :: rest) with ((done ++ [c]) ++ rest)
    by (rewrite <- app_assoc; reflexivity).
  replace (len done + 1) with (len (done ++ [c])) by (rewrite len_app; reflexivity).
  set (done' := done ++ [c]).
  destruct rest as [|c' rest].
  - rewrite app_nil_r, Z.ltb_irrefl. simpl. rewrite app_nil_r. auto 10.
  - rewrite (len_app done'), len_cons. pose proof (len_nonneg rest).
    replace (len done' <? len done' + (1 + len rest)) with true
      by (symmetry; apply Z.ltb_lt; lia).
    rewrite byteAt_app, skipn_len_app. unfold followError, utf8.RuneSelf.
    rewrite Z.geb_leb.
    destruct (Z.leb_spec 128 (byteZ c')) as [E | E];
      [replace (byteZ c' <? 128) with false by (symmetry; apply Z.ltb_ge; lia)
      |replace (byteZ c' <? 128) with true by (symmetry; apply Z.ltb_lt; lia)].
    + destruct (utf8.DecodeRuneInString (c' :: rest)) as [r w].
      destruct ((r =? utf8.RuneError) && (w =? 1)); simpl;
        rewrite ?app_nil_r; auto 10.
    + simpl. rewrite app_nil_r. auto 10.
Qed.

Lemma read_cur_ascii done c c' rest es inv buf :
  byteZ c' < 128 ->
  read (cur done c (c' :: rest) es inv buf) = cur (done ++ [c]) c' rest es inv buf.
Proof.
  intros H. unfold cur at 1.
  replace (done ++ c :: c' :: rest) with ((done ++ [c]) ++ c' :: rest)
    by (rewrite <- app_assoc; reflexivity).
  replace (len done + 1) with (len (done ++ [c])) by (rewrite len_app; reflexivity).
  apply (read_to_cursor (done ++ [c]) (c' :: rest)). exact H.
Qed.

Lemma digitValue_nonascii c : 128 <= c -> digitValue c = 16.
Proof.
  intros H. unfold digitValue, rune, byteZ. simpl.
  repeat match goal with
         | |- context [if (?a <=? ?b) && (?c <=? ?d) then _ else _] =>
           destruct (Z.leb_spec a b); destruct (Z.leb_spec c d); cbn [andb]
         end; lia.
Qed.

(** The character at the head of [rest], if any, is not a digit below
    [bound]. *)
Definition noDigitNext (bound : Z) (rest : gostring) : Prop :=
  match rest with
  | [] => True
  | c :: _ => bound <= digitValue (byteZ c)
  end.

Lemma read_cur_noDigit bound done c rest es inv buf :
  bound <= 16 -> noDigitNext bound rest ->
  bound <= digitValue (chr (read (cur done c rest es inv buf))).
Proof.
  intros Hb Hn. destruct (read_cur done c rest es inv buf) as (_ & _ & _ & _ & _ & ->).
  destruct rest as [|c' rest]; [rewrite digitValue_EOF; lia|].
  simpl in Hn. destruct (Z.ltb_spec (byteZ c') 128); auto.
  rewrite digitValue_nonascii; auto.
  apply DecodeRuneInString_nonascii; [discriminate|]. exact H.
Qed.

Lemma octalLoop_step fuel s value size :
  digitValue (chr s) < 8 ->
  octalLoop (S fuel) s value size
  = octalLoop fuel (read s) (wrap64 (value * 8 + digitValue (chr s))) (size + 1).
Proof.
  intros H. simpl.
  replace (digitValue (chr s) >=? 8) with false; auto.
  symmetry. rewrite Z.geb_leb. apply Z.leb_gt. auto.
Qed.

Lemma octalLoop_exit fuel s value size :
  8 <= digitValue (chr s) -> octalLoop (S fuel) s value size = Some (s, value, size).
Proof.
  intros H. simpl.
  replace (digitValue (chr s) >=? 8) with true; auto.
  symmetry. rewrite Z.geb_leb. apply Z.leb_le. auto.
Qed.

Definition isOctal (d : ascii) : Prop := In d ["0"; "1"; "2"; "3"; "4"; "5"; "6"; "7"]%char.

Lemma isOctal_digit d :
  isOctal d ->
  byteZ d < 128 /\ 0 <= digitValue (byteZ d) < 8 /\
  byteZ d = rune "0" + digitValue (byteZ d) /\
  caseOf (byteZ d) ["0"; "1"; "2"; "3"; "4"; "5"; "6"; "7"]%char = true.
Proof.
  unfold isOctal. simpl.
  intros [<- | [<- | [<- | [<- | [<- | [<- | [<- | [<- | []]]]]]]]];
    vm_compute; intuition congruence.
Qed.

Lemma wrap64_small v : - 2 ^ 63 <= v < 2 ^ 63 -> wrap64 v = v.
Proof. intros H. unfold wrap64. rewrite Z.mod_small; lia. Qed.

(** Two hexadecimal digits for a byte value. *)
Definition hex2 (v : Z) : gostring := [strconv.digit (v / 16); strconv.digit (v mod 16)].

Lemma hexEscape_byte v : 0 <= v < 256 -> hexEscape v = bytes "\x" ++ hex2 v.
Proof.
  intros H. unfold hexEscape, strconv.AppendInt, strconv.FormatInt, hex2.
  replace (v <? 0) with false by (symmetry; apply Z.ltb_ge; lia).
  rewrite Z.geb_leb. destruct (Z.leb_spec 16 v) as [E | E].
  - cbn [strconv.formatBits].
    replace (v <? 16) with false by (symmetry; apply Z.ltb_ge; lia).
    cbn [strconv.formatBits].
    replace (v / 16 <? 16) with true; [reflexivity|].
    symmetry. apply Z.ltb_lt. apply Z.div_lt_upper_bound; lia.
  - cbn [strconv.formatBits].
    replace (v <? 16) with true by (symmetry; apply Z.ltb_lt; lia).
    rewrite Z.div_small, Z.mod_small by lia. reflexivity.
Qed.

Lemma byteZ_byte_of_Z z : 0 <= z < 256 -> byteZ (byte_of_Z z) = z.
Proof.
  intros H. unfold byteZ, byte_of_Z. rewrite Z.mod_small by lia.
  rewrite N_ascii_embedding; [lia|].
  change 256%N with (Z.to_N 256). lia.
Qed.

Lemma digit_octal d :
  isOctal d -> strconv.digit (digitValue (byteZ d)) = d.
Proof.
  unfold isOctal. simpl.
  intros [<- | [<- | [<- | [<- | [<- | [<- | [<- | [<- | []]]]]]]]]; reflexivity.
Qed.

Lemma scanEscape_octal_run fuel inClass s :
  caseOf (chr s) ["0"; "1"; "2"; "3"; "4"; "5"; "6"; "7"]%char = true ->
  scanEscape isIdentifierPart fuel inClass s =
  ('(s1, value, size) <- octalLoop fuel s 0 0 ;;
   if size =? 1 then
     let s2 := write ["\"%char; byte_of_Z (byteZ (byte_of_Z value) + rune "0")] s1 in
     if negb (value =? 0) then Some (error_ (msg_backreference_d value) s2)
     else Some s2
   else Some (write (hexEscape value) s1)).
Proof. intros H. unfold scanEscape. rewrite H. reflexivity. Qed.

(** *** An escape in its pattern *)

(** The run of [TransformRegExp] on [pattern] writes [out] first and logs
    [errs] first; the flag [invalid] is set, if at all, by an error
    logged after them. *)
Definition rewrites (pattern out : gostring) (errs : list error) : Prop :=
  exists s es bs,
    scanned pattern s /\
    buffer s = out ++ bs /\ errors s = errs ++ es /\
    invalid s = existsb isInvalidMsg es /\
    TransformRegExp isIdentifierPart pattern
    = Some (if invalid s then [] else buffer s, hd_error (errors s)).

Lemma rewrites_of pattern s' s :
  pattern <> [] -> scanned pattern s -> extends s' s -> invalid s' = false ->
  rewrites pattern (buffer s') (errors s').
Proof.
  intros Hne Hs He Hi.
  destruct (extends_log _ _ He) as (es & bs & E1 & E2 & E3).
  exists s, es, bs. rewrite Hi in E3.
  repeat split; auto. apply TransformRegExp_scanned; auto.
Qed.

Lemma backslash_ascii : byteZ "\"%char < 128.
Proof. unfold byteZ. simpl. lia. Qed.

Lemma scan_escape fuel done c rest es inv buf :
  byteZ c < 128 ->
  scan isIdentifierPart (S fuel) (cur done "\"%char (c :: rest) es inv buf)
  = (s' <- scanEscape isIdentifierPart fuel false
                      (cur (done ++ ["\"%char]) c rest es inv buf) ;;
     scan isIdentifierPart fuel s').
Proof.
  intros Hc. cbn [scan]. rewrite cur_chr.
  change (byteZ "\" =? EOF) with false.
  change (byteZ "\" =? rune "\") with true. cbv iota.
  rewrite read_cur_ascii by exact Hc. reflexivity.
Qed.

Lemma scanBracketLoop_escape fuel done c rest es inv buf :
  byteZ c < 128 ->
  scanBracketLoop isIdentifierPart (S fuel) (cur done "\"%char (c :: rest) es inv buf)
  = (s' <- scanEscape isIdentifierPart fuel true
                      (cur (done ++ ["\"%char]) c rest es inv buf) ;;
     scanBracketLoop isIdentifierPart fuel s').
Proof.
  intros Hc. cbn [scanBracketLoop]. rewrite cur_chr.
  change (byteZ "\" =? EOF) with false.
  change (byteZ "\" =? rune "]") with false.
  change (byteZ "\" =? rune "\") with true. cbv iota.
  rewrite read_cur_ascii by exact Hc. reflexivity.
Qed.

Lemma scan_bracket fuel done rest es inv buf :
  asciiHead rest ->
  scan isIdentifierPart (S fuel) (cur done "["%char rest es inv buf)
  = (s' <- scanBracket isIdentifierPart fuel
                       (cursor (done ++ ["["%char]) rest es inv (buf ++ ["["%char])) ;;
     scan isIdentifierPart fuel s').
Proof.
  intros Ha. cbn [scan]. rewrite cur_chr.
  change (byteZ "[" =? EOF) with false.
  change (byteZ "[" =? rune "\") with false.
  change (byteZ "[" =? rune "(") with false.
  change (byteZ "[" =? rune "[") with true. cbv iota.
  rewrite pass_cur by (auto; unfold byteZ; simpl; lia). reflexivity.
Qed.

(** An escape at top level, after ordinary characters. *)
Lemma rewrites_escape pre c rest s' :
  Forall plain pre -> byteZ c < 128 ->
  scanEscape isIdentifierPart (S (S (List.length rest))) false
             (cur (pre ++ ["\"%char]) c rest [] false pre) = Some s' ->
  invalid s' = false ->
  rewrites (pre ++ "\"%char :: c :: rest) (buffer s') (errors s').
Proof.
  intros Hp Hc Hs' Hi.
  destruct (scanEscape_ok (S (S (List.length rest))) false
              (cur (pre ++ ["\"%char]) c rest [] false pre))
    as (s0 & E0 & He0); [apply cur_wf | rewrite cur_remaining; lia|].
  assert (s0 = s') by congruence. subst s0.
  pose proof (extends_remaining _ _ He0) as Hr. rewrite cur_remaining in Hr.
  destruct (scan_ok (S (S (List.length rest))) s') as (s & Hs & He & _);
    [eapply extends_wf; eauto | lia|].
  apply (rewrites_of _ s' s); auto.
  - destruct pre; discriminate.
  - apply scanned_after_plain; [exact Hp | apply backslash_ascii|].
    cbn [List.length]. rewrite scan_escape by exact Hc.
    rewrite Hs'. exact Hs.
Qed.

Lemma scanBracketLoop_plain_prefix w : forall fuel done es inv buf l,
  Forall classPlain w -> asciiHead l ->
  scanBracketLoop isIdentifierPart (List.length w + fuel) (cursor done (w ++ l) es inv buf)
  = scanBracketLoop isIdentifierPart fuel (cursor (done ++ w) l es inv (buf ++ w)).
Proof.
  induction w as [|x w IH]; intros fuel done es inv buf l Hp Hl.
  - simpl. rewrite !app_nil_r. reflexivity.
  - inversion Hp; subst. cbn [List.length Nat.add app cursor].
    assert (Ha : asciiHead (w ++ l)).
    { destruct w as [|y w]; simpl; auto.
      inversion H2; subst. apply classPlain_ascii; auto. }
    rewrite scanBracketLoop_plain by auto.
    rewrite IH by auto. rewrite <- !app_assoc. reflexivity.
Qed.

(** An escape in a character class that opens after ordinary characters
    and holds ordinary characters before the escape. *)
Lemma rewrites_class_escape pre cls c rest s' :
  Forall plain pre -> Forall classPlain cls -> byteZ c < 128 ->
  scanEscape isIdentifierPart (S (S (List.length rest))) true
             (cur (pre ++ "["%char :: cls ++ ["\"%char]) c rest [] false
                  (pre ++ "["%char :: cls)) = Some s' ->
  invalid s' = false ->
  rewrites (pre ++ "["%char :: cls ++ "\"%char :: c :: rest) (buffer s') (errors s').
Proof.
  intros Hp Hcls Hc Hs' Hi.
  set (s0 := cur (pre ++ "["%char :: cls ++ ["\"%char]) c rest [] false
                 (pre ++ "["%char :: cls)) in *.
  destruct (scanEscape_ok (S (S (List.length rest))) true s0)
    as (s0' & E0 & He0); [apply cur_wf | unfold s0; rewrite cur_remaining; lia|].
  assert (s0' = s') by congruence. subst s0'.
  pose proof (extends_remaining _ _ He0) as Hr.
  unfold s0 in Hr. rewrite cur_remaining in Hr.
  assert (Hw' := extends_wf _ _ He0).
  destruct (scanBracketLoop_ok (S (S (List.length rest))) s') as (s2 & Hs2 & He2);
    [auto | lia|].
  assert (Hw2 := extends_wf _ _ He2).
  pose proof (extends_remaining _ _ He2) as Hr2.
  set (s3 := if negb (chr s2 =? rune "]")
             then setInvalid (error_ msg_UnterminatedClass s2) else pass s2).
  assert (He3 : extends s2 s3).
  { unfold s3. destruct (negb (chr s2 =? rune "]")).
    - apply extends_setInvalid; auto.
    - apply extends_pass; auto. }
  pose proof (extends_remaining _ _ He3) as Hr3.
  set (R := cls ++ "\"%char :: c :: rest).
  destruct (scan_ok (S (List.length R)) s3) as (s & Hs & He & _);
    [eapply extends_wf; eauto
    |unfold R; rewrite length_app; cbn [List.length]; lia|].
  apply (rewrites_of _ s' s); auto.
  - destruct pre; discriminate.
  - fold R. apply scanned_after_plain; [exact Hp | unfold byteZ; simpl; lia|].
    assert (HaR : asciiHead R).
    { unfold R. destruct cls as [|y cls]; simpl; [apply backslash_ascii|].
      inversion Hcls; subst. apply classPlain_ascii; auto. }
    assert (Hloop : scanBracketLoop isIdentifierPart (S (List.length R))
                      (cursor (pre ++ ["["%char]) R [] false (pre ++ ["["%char]))
                    = Some s2).
    { replace (S (List.length R))
        with (List.length cls + S (S (S (List.length rest))))%nat
        by (unfold R; rewrite length_app; cbn [List.length]; lia).
      unfold R.
      rewrite scanBracketLoop_plain_prefix by (auto; apply backslash_ascii).
      cbn [cursor]. rewrite scanBracketLoop_escape by exact Hc.
      replace (((pre ++ ["["%char]) ++ cls) ++ ["\"%char])
        with (pre ++ "["%char :: cls ++ ["\"%char])
        by (rewrite <- !app_assoc; reflexivity).
      replace ((pre ++ ["["%char]) ++ cls) with (pre ++ "["%char :: cls)
        by (rewrite <- !app_assoc; reflexivity).
      fold s0. rewrite Hs'. exact Hs2. }
    rewrite scan_bracket by exact HaR.
    unfold scanBracket. rewrite Hloop. cbv beta iota. fold s3.
    destruct (negb (chr s2 =? rune "]")); exact Hs.
  - eapply extends_trans; [exact He2|]. eapply extends_trans; [exact He3 | exact He].
Qed.

(** C7. An escape made of a backslash and a single octal digit other than
    [0] (the next character is not an octal digit): [scanEscape] writes
    the escape back as it stands, logs the error that names it a
    backreference after whatever the fetch of the next character logged,
    and leaves [invalid] alone.  In a pattern where ordinary characters
    [pre] come before the escape, the output starts with [pre] and the
    escape as it stands, and the error is logged; the empty string is
    returned only if a later part of the pattern is invalid.  The
    pattern that is just such an escape is returned unchanged together
    with that error. *)
Theorem scanEscape_backreference :
  (forall fuel inClass done d rest es inv buf,
      isOctal d -> d <> "0"%char -> noDigitNext 8 rest ->
      (remaining (cur done d rest es inv buf) < fuel)%nat ->
      exists s',
        scanEscape isIdentifierPart fuel inClass (cur done d rest es inv buf) = Some s' /\
        buffer s' = buf ++ ["\"%char; d] /\
        errors s' = es ++ followError rest
                       ++ [bytes "re2: Invalid \" ++ [d] ++ bytes " <backreference>"] /\
        invalid s' = inv) /\
  (forall pre d rest,
      Forall plain pre -> isOctal d -> d <> "0"%char -> noDigitNext 8 rest ->
      rewrites (pre ++ "\"%char :: d :: rest) (pre ++ ["\"%char; d])
               (followError rest
                ++ [bytes "re2: Invalid \" ++ [d] ++ bytes " <backreference>"])) /\
  (forall d,
      isOctal d -> d <> "0"%char ->
      TransformRegExp isIdentifierPart ["\"%char; d]
      = Some (["\"%char; d],
              Some (bytes "re2: Invalid \" ++ [d] ++ bytes " <backreference>"))).
Proof.
  match goal with |- ?A /\ _ => assert (Hstate : A) end;
    [|split; [exact Hstate|split]].
  - intros fuel inClass done d rest es inv buf Hd Hnz Hn Hf.
    destruct (isOctal_digit d Hd) as (Ha & Hv & Hb & Hcase).
    assert (Hnext : 8 <= digitValue (chr (read (cur done d rest es inv buf))))
      by (apply read_cur_noDigit; auto; lia).
    rewrite cur_remaining in Hf.
    destruct fuel as [|[|fuel]]; try lia.
    rewrite scanEscape_octal_run by exact Hcase.
    rewrite octalLoop_step by (rewrite cur_chr; lia).
    rewrite octalLoop_exit by exact Hnext.
    rewrite cur_chr. simpl (0 * 8 + _). rewrite wrap64_small by lia.
    change (0 + 1 =? 1) with true. cbv iota.
    assert (Hv0 : digitValue (byteZ d) <> 0).
    { intros E. apply Hnz. rewrite <- (digit_octal d Hd), E. reflexivity. }
    replace (digitValue (byteZ d) =? 0) with false
      by (symmetry; apply Z.eqb_neq; auto).
    cbn [negb].
    rewrite byteZ_byte_of_Z by lia.
    replace (digitValue (byteZ d) + rune "0") with (byteZ d) by lia.
    rewrite byte_of_byteZ.
    assert (Hmsg : msg_backreference_d (digitValue (byteZ d))
                   = bytes "re2: Invalid \" ++ [d] ++ bytes " <backreference>").
    { unfold msg_backreference_d, strconv.FormatInt.
      replace (digitValue (byteZ d) <? 0) with false by (symmetry; apply Z.ltb_ge; lia).
      cbn [strconv.formatBits].
      replace (digitValue (byteZ d) <? 10) with true by (symmetry; apply Z.ltb_lt; lia).
      rewrite digit_octal by auto. reflexivity. }
    rewrite Hmsg.
    destruct (read_cur done d rest es inv buf) as (_ & _ & He & Hi & Hbuf & _).
    eexists. split; [reflexivity|]. simpl.
    rewrite He, Hi, Hbuf, <- app_assoc. auto.
  - intros pre d rest Hp Hd Hnz Hn.
    destruct (Hstate (S (S (List.length rest))) false (pre ++ ["\"%char]) d rest
                     [] false pre Hd Hnz Hn) as (s' & Hs' & Hb & He & Hi);
      [rewrite cur_remaining; lia|].
    pose proof (rewrites_escape pre d rest s' Hp
                  (proj1 (isOctal_digit d Hd)) Hs' Hi) as R.
    rewrite Hb, He in R. exact R.
  - intros d Hd Hnz. unfold isOctal in Hd. simpl in Hd.
    destruct Hd as [<- | [<- | [<- | [<- | [<- | [<- | [<- | [<- | []]]]]]]]];
      try congruence; reflexivity.
Qed.

(** C6 (as amended).  An escape made of a backslash and two or three octal
    digits (the next character is not an octal digit) whose value is at
    most 0377: [scanEscape] writes [\x] and the two hexadecimal digits of
    the value, logs no error of its own (only the fetch of the next
    character may log one) and leaves [invalid] alone.  In a pattern
    where ordinary characters [pre] come before the escape, the output
    starts with [pre] and that rewriting, and the empty string is
    returned only if a later part of the pattern is invalid. *)
Theorem scanEscape_octal :
  (forall fuel inClass done d1 d2 rest es inv buf,
      isOctal d1 -> isOctal d2 -> noDigitNext 8 rest ->
      (remaining (cur done d1 (d2 :: rest) es inv buf) < fuel)%nat ->
      let value := digitValue (byteZ d1) * 8 + digitValue (byteZ d2) in
      exists s',
        scanEscape isIdentifierPart fuel inClass (cur done d1 (d2 :: rest) es inv buf)
        = Some s' /\
        buffer s' = buf ++ bytes "\x" ++ hex2 value /\
        errors s' = es ++ followError rest /\
        invalid s' = inv) /\
  (forall fuel inClass done d1 d2 d3 rest es inv buf,
      isOctal d1 -> isOctal d2 -> isOctal d3 -> noDigitNext 8 rest ->
      (remaining (cur done d1 (d2 :: d3 :: rest) es inv buf) < fuel)%nat ->
      let value := (digitValue (byteZ d1) * 8 + digitValue (byteZ d2)) * 8
                   + digitValue (byteZ d3) in
      value <= 255 ->
      exists s',
        scanEscape isIdentifierPart fuel inClass
                   (cur done d1 (d2 :: d3 :: rest) es inv buf) = Some s' /\
        buffer s' = buf ++ bytes "\x" ++ hex2 value /\
        errors s' = es ++ followError rest /\
        invalid s' = inv) /\
  (forall pre d1 d2 rest,
      Forall plain pre -> isOctal d1 -> isOctal d2 -> noDigitNext 8 rest ->
      rewrites (pre ++ "\"%char :: d1 :: d2 :: rest)
               (pre ++ bytes "\x"
                    ++ hex2 (digitValue (byteZ d1) * 8 + digitValue (byteZ d2)))
               (followError rest)) /\
  (forall pre d1 d2 d3 rest,
      Forall plain pre -> isOctal d1 -> isOctal d2 -> isOctal d3 ->
      noDigitNext 8 rest ->
      let value := (digitValue (byteZ d1) * 8 + digitValue (byteZ d2)) * 8
                   + digitValue (byteZ d3) in
      value <= 255 ->
      rewrites (pre ++ "\"%char :: d1 :: d2 :: d3 :: rest)
               (pre ++ bytes "\x" ++ hex2 value) (followError rest)) /\
  TransformRegExp isIdentifierPart (bytes "\12") = Some (bytes "\x0a", None) /\
  TransformRegExp isIdentifierPart (bytes "\377") = Some (bytes "\xff", None).
Proof.
  match goal with |- ?A /\ ?B /\ _ => assert (Hstate : A /\ B) end;
    [split|destruct Hstate as [Hstate2 Hstate3];
           split; [exact Hstate2|split; [exact Hstate3|split; [|split; [|split; reflexivity]]]]].
  - intros fuel inClass done d1 d2 rest es inv buf H1 H2 Hn Hf value.
    destruct (isOctal_digit d1 H1) as (Ha1 & Hv1 & _ & Hcase).
    destruct (isOctal_digit d2 H2) as (Ha2 & Hv2 & _ & _).
    rewrite cur_remaining in Hf. simpl in Hf.
    destruct fuel as [|[|[|fuel]]]; try lia.
    rewrite scanEscape_octal_run by exact Hcase.
    rewrite octalLoop_step by (rewrite cur_chr; lia).
    rewrite read_cur_ascii by auto.
    rewrite octalLoop_step by (rewrite cur_chr; lia).
    rewrite octalLoop_exit by (apply read_cur_noDigit; auto; lia).
    rewrite !cur_chr. simpl (0 * 8 + _).
    rewrite (wrap64_small (digitValue (byteZ d1))) by lia.
    rewrite wrap64_small by lia.
    fold value. change (0 + 1 + 1 =? 1) with false. cbv iota.
    rewrite hexEscape_byte by (unfold value; lia).
    destruct (read_cur (done ++ [d1]) d2 rest es inv buf) as (_ & _ & He & Hi & Hbuf & _).
    eexists. split; [reflexivity|]. simpl. rewrite He, Hi, Hbuf. auto.
  - intros fuel inClass done d1 d2 d3 rest es inv buf H1 H2 H3 Hn Hf value Hv.
    destruct (isOctal_digit d1 H1) as (Ha1 & Hv1 & _ & Hcase).
    destruct (isOctal_digit d2 H2) as (Ha2 & Hv2 & _ & _).
    destruct (isOctal_digit d3 H3) as (Ha3 & Hv3 & _ & _).
    rewrite cur_remaining in Hf. simpl in Hf.
    destruct fuel as [|[|[|[|fuel]]]]; try lia.
    rewrite scanEscape_octal_run by exact Hcase.
    rewrite octalLoop_step by (rewrite cur_chr; lia).
    rewrite read_cur_ascii by auto.
    rewrite octalLoop_step by (rewrite cur_chr; lia).
    rewrite read_cur_ascii by auto.
    rewrite octalLoop_step by (rewrite cur_chr; lia).
    rewrite octalLoop_exit by (apply read_cur_noDigit; auto; lia).
    rewrite !cur_chr. simpl (0 * 8 + _).
    rewrite (wrap64_small (digitValue (byteZ d1))) by lia.
    rewrite (wrap64_small (_ * 8 + digitValue (byteZ d2))) by lia.
    rewrite wrap64_small by lia.
    fold value. change (0 + 1 + 1 + 1 =? 1) with false. cbv iota.
    rewrite hexEscape_byte by (unfold value in *; lia).
    destruct (read_cur ((done ++ [d1]) ++ [d2]) d3 rest es inv buf)
      as (_ & _ & He & Hi & Hbuf & _).
    eexists. split; [reflexivity|]. simpl. rewrite He, Hi, Hbuf. auto.
  - intros pre d1 d2 rest Hp H1 H2 Hn.
    destruct (Hstate2 (S (S (List.length (d2 :: rest)))) false (pre ++ ["\"%char])
                      d1 d2 rest [] false pre H1 H2 Hn) as (s' & Hs' & Hb & He & Hi);
      [rewrite cur_remaining; lia|].
    pose proof (rewrites_escape pre d1 (d2 :: rest) s' Hp
                  (proj1 (isOctal_digit d1 H1)) Hs' Hi) as R.
    rewrite Hb, He in R. exact R.
  - intros pre d1 d2 d3 rest Hp H1 H2 H3 Hn value Hv.
    destruct (Hstate3 (S (S (List.length (d2 :: d3 :: rest)))) false
                      (pre ++ ["\"%char]) d1 d2 d3 rest [] false pre H1 H2 H3 Hn)
      as (s' & Hs' & Hb & He & Hi); [rewrite cur_remaining; lia | exact Hv|].
    pose proof (rewrites_escape pre d1 (d2 :: d3 :: rest) s' Hp
                  (proj1 (isOctal_digit d1 H1)) Hs' Hi) as R.
    rewrite Hb, He in R. exact R.
Qed.

Definition isHex (h : ascii) : Prop := digitValue (byteZ h) < 16.

Lemma isHex_ascii h : isHex h -> byteZ h < 128.
Proof.
  unfold isHex. intros H. destruct (Z.lt_ge_cases (byteZ h) 128); auto.
  rewrite digitValue_nonascii in H; lia.
Qed.

Lemma hexLoop_step n base s value :
  digitValue (chr s) < base ->
  hexLoop (S n) base s value
  = hexLoop n base (read s) (wrap32u (value * base + digitValue (chr s))).
Proof.
  intros H. cbn [hexLoop]. rewrite wrap32u_digitValue.
  replace (digitValue (chr s) >=? base) with false; auto.
  symmetry. rewrite Z.geb_leb. apply Z.leb_gt. auto.
Qed.

Lemma index_after done c l i :
  0 <= i < len l ->
  index (done ++ c :: l) (len (done ++ [c]) + i) = nth_error l (Z.to_nat i).
Proof.
  intros Hi. unfold index. pose proof (len_nonneg (done ++ [c])).
  replace (done ++ c :: l) with ((done ++ [c]) ++ l)
    by (rewrite <- app_assoc; reflexivity).
  rewrite (len_app (done ++ [c]) l).
  replace ((0 <=? len (done ++ [c]) + i)
           && (len (done ++ [c]) + i <? len (done ++ [c]) + len l)) with true
    by (symmetry; rewrite andb_true_iff, Z.leb_le, Z.ltb_lt; lia).
  replace (Z.to_nat (len (done ++ [c]) + i))
    with (List.length (done ++ [c]) + Z.to_nat i)%nat by (unfold len; lia).
  rewrite nth_error_app2 by lia. f_equal. lia.
Qed.

Lemma scanEscape_u_run fuel inClass s :
  chr s = rune "u" ->
  scanEscape isIdentifierPart fuel inClass s = scanHex (chrOffset s) 4 16 (read s).
Proof. intros H. unfold scanEscape. rewrite H. reflexivity. Qed.

(** C8. The escape [\uHHHH] with four hexadecimal digits: [scanEscape]
    writes [\x{HHHH}] with the four digits as they stand in the source;
    it logs no error of its own and leaves [invalid] alone.  In a pattern
    where ordinary characters [pre] come before the escape, the output
    starts with [pre] and that rewriting, and the empty string is
    returned only if a later part of the pattern is invalid.  The pattern
    made of a backslash and [u0041] is rewritten to [\x{0041}] with a nil
    error. *)
Theorem scanEscape_unicode :
  (forall fuel inClass done h1 h2 h3 h4 rest es inv buf,
      isHex h1 -> isHex h2 -> isHex h3 -> isHex h4 ->
      exists s',
        scanEscape isIdentifierPart fuel inClass
                   (cur done "u"%char (h1 :: h2 :: h3 :: h4 :: rest) es inv buf)
        = Some s' /\
        buffer s' = buf ++ bytes "\x{" ++ [h1; h2; h3; h4] ++ bytes "}" /\
        errors s' = es ++ followError rest /\
        invalid s' = inv) /\
  (forall pre h1 h2 h3 h4 rest,
      Forall plain pre -> isHex h1 -> isHex h2 -> isHex h3 -> isHex h4 ->
      rewrites (pre ++ "\"%char :: "u"%char :: h1 :: h2 :: h3 :: h4 :: rest)
               (pre ++ bytes "\x{" ++ [h1; h2; h3; h4] ++ bytes "}")
               (followError rest)) /\
  TransformRegExp isIdentifierPart ("\"%char :: bytes "u0041")
  = Some (bytes "\x{0041}", None).
Proof.
  match goal with |- ?A /\ _ => assert (Hstate : A) end;
    [|split; [exact Hstate|split; [|reflexivity]]].
  2:{ intros pre h1 h2 h3 h4 rest Hp H1 H2 H3 H4.
      destruct (Hstate (S (S (List.length (h1 :: h2 :: h3 :: h4 :: rest)))) false
                       (pre ++ ["\"%char]) h1 h2 h3 h4 rest [] false pre H1 H2 H3 H4)
        as (s' & Hs' & Hb & He & Hi).
      pose proof (rewrites_escape pre "u"%char (h1 :: h2 :: h3 :: h4 :: rest) s' Hp
                    ltac:(unfold byteZ; simpl; lia) Hs' Hi) as R.
      rewrite Hb, He in R. exact R. }
  intros fuel inClass done h1 h2 h3 h4 rest es inv buf H1 H2 H3 H4.
  pose proof (isHex_ascii _ H1). pose proof (isHex_ascii _ H2).
  pose proof (isHex_ascii _ H3). pose proof (isHex_ascii _ H4).
  rewrite scanEscape_u_run by reflexivity.
  rewrite read_cur_ascii by auto.
  unfold scanHex.
  rewrite hexLoop_step by (rewrite cur_chr; exact H1).
  rewrite read_cur_ascii by auto.
  rewrite hexLoop_step by (rewrite cur_chr; exact H2).
  rewrite read_cur_ascii by auto.
  rewrite hexLoop_step by (rewrite cur_chr; exact H3).
  rewrite read_cur_ascii by auto.
  rewrite hexLoop_step by (rewrite cur_chr; exact H4).
  cbn [hexLoop negb Nat.eqb].
  destruct (read_cur ((((done ++ ["u"%char]) ++ [h1]) ++ [h2]) ++ [h3]) h4 rest es inv buf)
    as (Hstr & _ & He & Hi & Hbuf & _).
  set (s4 := read (cur ((((done ++ ["u"%char]) ++ [h1]) ++ [h2]) ++ [h3])
                       h4 rest es inv buf)) in *.
  rewrite <- !app_assoc in Hstr. simpl app in Hstr.
  rewrite Hstr.
  change (chrOffset (cur (done ++ ["u"%char]) h1 (h2 :: h3 :: h4 :: rest) es inv buf))
    with (len (done ++ ["u"%char])).
  rewrite (index_after done "u"%char (h1 :: h2 :: h3 :: h4 :: rest) 0)
    by (rewrite !len_cons; pose proof (len_nonneg rest); lia).
  rewrite (index_after done "u"%char (h1 :: h2 :: h3 :: h4 :: rest) 1)
    by (rewrite !len_cons; pose proof (len_nonneg rest); lia).
  rewrite (index_after done "u"%char (h1 :: h2 :: h3 :: h4 :: rest) 2)
    by (rewrite !len_cons; pose proof (len_nonneg rest); lia).
  rewrite (index_after done "u"%char (h1 :: h2 :: h3 :: h4 :: rest) 3)
    by (rewrite !len_cons; pose proof (len_nonneg rest); lia).
  cbn [nth_error Z.to_nat Pos.to_nat Pos.iter_op Nat.add].
  eexists. split; [reflexivity|]. simpl. rewrite He, Hi, Hbuf. auto.
Qed.

Lemma scanEscape_b_run fuel inClass s :
  chr s = rune "b" ->
  scanEscape isIdentifierPart fuel inClass s =
  if inClass then Some (read (write (bytes "\x08") s))
  else Some (pass (write (bytes "\") s)).
Proof.
  intros H. unfold scanEscape. rewrite H. destruct inClass; reflexivity.
Qed.

(** *** The other escapes *)

Lemma byteZ_inj a b : byteZ a = byteZ b -> a = b.
Proof. intros H. rewrite <- (byte_of_byteZ a), <- (byte_of_byteZ b), H. reflexivity. Qed.

Lemma caseOf_In c l : caseOf (byteZ c) l = true <-> In c l.
Proof.
  unfold caseOf. rewrite existsb_exists. split.
  - intros (x & Hin & E). apply Z.eqb_eq in E. apply byteZ_inj in E. subst. exact Hin.
  - intros Hin. exists c. split; [exact Hin | apply Z.eqb_refl].
Qed.

Lemma caseOf_notIn c l : ~ In c l -> caseOf (byteZ c) l = false.
Proof.
  intros H. destruct (caseOf (byteZ c) l) eqn:E; [|reflexivity].
  apply caseOf_In in E. contradiction.
Qed.

Lemma caseOf_EOF l : caseOf EOF l = false.
Proof.
  unfold caseOf. induction l as [|x l IH]; [reflexivity|].
  cbn [existsb]. rewrite IH, orb_false_r.
  apply Z.eqb_neq. pose proof (byteZ_range x). unfold EOF, rune. lia.
Qed.

Lemma read_cur_chrOffset done c rest es inv buf :
  chrOffset (read (cur done c rest es inv buf)) = len done + 1.
Proof.
  unfold read, cur. cbn [str length chr chrOffset offset errors invalid buffer].
  rewrite len_app, len_cons. pose proof (len_nonneg rest).
  destruct (Z.ltb_spec (len done + 1) (len done + (1 + len rest))) as [E | E].
  - destruct (byteAt _ _ >=? utf8.RuneSelf); [|reflexivity].
    destruct (utf8.DecodeRuneInString _) as [r w]. reflexivity.
  - cbn [chrOffset]. lia.
Qed.

Lemma slice_middle (a b c : gostring) :
  slice (a ++ b ++ c) (len a) (len a + len b) = Some b.
Proof.
  unfold slice. pose proof (len_nonneg a). pose proof (len_nonneg b).
  pose proof (len_nonneg c). rewrite !len_app.
  replace ((0 <=? len a) && (len a <=? len a + len b)
           && (len a + len b <=? len a + (len b + len c))) with true
    by (symmetry; rewrite !andb_true_iff, !Z.leb_le; lia).
  rewrite skipn_len_app.
  replace (Z.to_nat (len a + len b - len a)) with (List.length b) by (unfold len; lia).
  rewrite firstn_app, firstn_all, Nat.sub_diag, firstn_O, app_nil_r. reflexivity.
Qed.

(** [pass] on an ASCII character, after a write. *)
Lemma pass_write_cur bs done c rest es inv buf :
  byteZ c < 128 ->
  pass (write bs (cur done c rest es inv buf))
  = read (cur done c rest es inv (buf ++ bs ++ [c])).
Proof.
  intros Hc. unfold pass.
  change (chr (write bs (cur done c rest es inv buf))) with (byteZ c).
  rewrite byteZ_not_EOF. unfold writeRune. rewrite EncodeRune_ascii by exact Hc.
  unfold write, cur. cbn [str length chr chrOffset offset errors invalid buffer].
  rewrite <- app_assoc. reflexivity.
Qed.

Lemma pass_cur_read done c rest es inv buf :
  byteZ c < 128 ->
  pass (cur done c rest es inv buf) = read (cur done c rest es inv (buf ++ [c])).
Proof.
  intros Hc. unfold pass. rewrite cur_chr, byteZ_not_EOF.
  unfold writeRune. rewrite EncodeRune_ascii by exact Hc. reflexivity.
Qed.

(** What holds of the parser right after one more character has been
    fetched. *)
Lemma read_cur_log done c rest es inv buf :
  let s := read (cur done c rest es inv buf) in
  buffer s = buf /\ errors s = es ++ followError rest /\ invalid s = inv
  /\ chrOffset s = len done + 1.
Proof.
  intros s. destruct (read_cur done c rest es inv buf) as (_ & _ & He & Hi & Hb & _).
  repeat split; auto. apply read_cur_chrOffset.
Qed.

Ltac eval_caseOf :=
  repeat match goal with
         | |- context [caseOf ?a ?l] =>
           let v := eval vm_compute in (caseOf a l) in
           change (caseOf a l) with v
         end.

(** The escapes that [scanEscape] copies as they stand: the character
    classes, [\B], the escaped backslash and the control characters. *)
Definition classEscapes : list ascii :=
  ["B"; "d"; "D"; "s"; "S"; "w"; "W"; "\"; "f"; "n"; "r"; "t"; "v"]%char.

Lemma classEscapes_ascii c : In c classEscapes -> byteZ c < 128.
Proof.
  unfold classEscapes. simpl.
  intros H; repeat (destruct H as [<- | H]; [vm_compute; reflexivity|]); contradiction.
Qed.

Lemma scanEscape_classEscape_run fuel inClass s c :
  In c classEscapes -> chr s = byteZ c ->
  scanEscape isIdentifierPart fuel inClass s = Some (pass (write (bytes "\") s)).
Proof.
  intros Hin Hc. unfold scanEscape. rewrite Hc.
  unfold classEscapes in Hin. simpl in Hin.
  repeat (destruct Hin as [<- | Hin]; [eval_caseOf; reflexivity|]). contradiction.
Qed.

(** X1. The escapes [\B \d \D \s \S \w \W \\ \f \n \r \t \v], at top
    level, in a group or in a class: [scanEscape] writes the backslash and
    the character as they stand, moves one character on, logs no error of
    its own and leaves [invalid] alone.  In a pattern where ordinary
    characters [pre] come before the escape the output starts with [pre]
    and the escape. *)
Theorem scanEscape_class_escape :
  (forall fuel inClass done c rest es inv buf,
      In c classEscapes ->
      exists s',
        scanEscape isIdentifierPart fuel inClass (cur done c rest es inv buf) = Some s' /\
        buffer s' = buf ++ ["\"%char; c] /\
        errors s' = es ++ followError rest /\ invalid s' = inv /\
        chrOffset s' = len done + 1) /\
  (forall pre c rest,
      Forall plain pre -> In c classEscapes ->
      rewrites (pre ++ "\"%char :: c :: rest) (pre ++ ["\"%char; c]) (followError rest)).
Proof.
  match goal with |- ?A /\ _ => assert (Hstate : A) end; [|split; [exact Hstate|]].
  - intros fuel inClass done c rest es inv buf Hin.
    rewrite (scanEscape_classEscape_run fuel inClass _ c Hin) by reflexivity.
    rewrite pass_write_cur by (apply classEscapes_ascii; exact Hin).
    eexists. split; [reflexivity|]. apply read_cur_log.
  - intros pre c rest Hp Hin.
    destruct (Hstate (S (S (List.length rest))) false (pre ++ ["\"%char]) c rest
                     [] false pre Hin) as (s' & Hs' & Hb & He & Hi & _).
    pose proof (rewrites_escape pre c rest s' Hp (classEscapes_ascii c Hin) Hs' Hi) as R.
    rewrite Hb, He in R. exact R.
Qed.

(** The characters after a backslash that [scanEscape] has a case for. *)
Definition escapeCases : list ascii :=
  ["0"; "1"; "2"; "3"; "4"; "5"; "6"; "7"; "8"; "9"; "x"; "u"; "b"; "c"]%char
  ++ classEscapes.

Lemma scanEscape_default_run fuel inClass s :
  (forall c, In c escapeCases -> chr s <> byteZ c) ->
  scanEscape isIdentifierPart fuel inClass s =
  if (chr s =? rune "$") || negb (isIdentifierPart (chr s))
  then Some (pass (write (bytes "\") s)) else Some (pass s).
Proof.
  intros H. unfold scanEscape.
  assert (Hc : forall l, incl l escapeCases -> caseOf (chr s) l = false).
  { intros l Hl. unfold caseOf.
    destruct (existsb _ l) eqn:E; [|reflexivity].
    apply existsb_exists in E. destruct E as (x & Hin & E).
    apply Z.eqb_eq in E. exfalso. apply (H x); auto. }
  rewrite !Hc; [reflexivity|..];
    intros x Hx; unfold escapeCases, classEscapes; simpl in *; intuition.
Qed.

(** X2. A backslash before any other ASCII character (the default branch
    of [scanEscape]): the backslash is kept when the character is [$] or
    no identifier part, and dropped when it is an identifier part; the
    character itself is copied.  No error is logged for it and [invalid]
    is left alone. *)
Theorem scanEscape_other :
  (forall fuel inClass done c rest es inv buf,
      byteZ c < 128 -> ~ In c escapeCases ->
      exists s',
        scanEscape isIdentifierPart fuel inClass (cur done c rest es inv buf) = Some s' /\
        buffer s' = buf ++ (if (byteZ c =? rune "$") || negb (isIdentifierPart (byteZ c))
                            then ["\"%char; c] else [c]) /\
        errors s' = es ++ followError rest /\ invalid s' = inv /\
        chrOffset s' = len done + 1) /\
  (forall pre c rest,
      Forall plain pre -> byteZ c < 128 -> ~ In c escapeCases ->
      rewrites (pre ++ "\"%char :: c :: rest)
               (pre ++ (if (byteZ c =? rune "$") || negb (isIdentifierPart (byteZ c))
                        then ["\"%char; c] else [c]))
               (followError rest)).
Proof.
  match goal with |- ?A /\ _ => assert (Hstate : A) end; [|split; [exact Hstate|]].
  - intros fuel inClass done c rest es inv buf Hc Hn.
    rewrite scanEscape_default_run
      by (intros x Hx; rewrite cur_chr; intros E; apply byteZ_inj in E; subst; auto).
    rewrite cur_chr.
    destruct ((byteZ c =? rune "$") || negb (isIdentifierPart (byteZ c))).
    + rewrite pass_write_cur by exact Hc.
      eexists. split; [reflexivity|]. apply read_cur_log.
    + rewrite pass_cur_read by exact Hc.
      eexists. split; [reflexivity|]. apply read_cur_log.
  - intros pre c rest Hp Hc Hn.
    destruct (Hstate (S (S (List.length rest))) false (pre ++ ["\"%char]) c rest
                     [] false pre Hc Hn) as (s' & Hs' & Hb & He & Hi & _).
    pose proof (rewrites_escape pre c rest s' Hp Hc Hs' Hi) as R.
    rewrite Hb, He in R. exact R.
Qed.

(** The parser at the end of the input [done]. *)
Lemma read_cur_end done c es inv buf :
  read (cur done c [] es inv buf) = cursor (done ++ [c]) [] es inv buf.
Proof.
  unfold cur at 1.
  replace (len done + 1) with (len (done ++ [c])) by (rewrite len_app; reflexivity).
  replace (done ++ [c]) with ((done ++ [c]) ++ []) at 1 2 by apply app_nil_r.
  apply (read_to_cursor (done ++ [c]) []). exact I.
Qed.

(** X3. A backslash that ends the pattern: [scanEscape] runs on the end of
    input, takes its default branch and writes the backslash unless the
    classifier counts the end-of-input sentinel as an identifier part;
    nothing is logged and the pattern is not invalid. *)
Theorem TransformRegExp_trailing_backslash pre :
  Forall plain pre ->
  TransformRegExp isIdentifierPart (pre ++ ["\"%char])
  = Some (pre ++ (if isIdentifierPart EOF then [] else ["\"%char]), None).
Proof.
  intros Hp.
  set (out := pre ++ (if isIdentifierPart EOF then [] else ["\"%char])).
  assert (Hs : scanned (pre ++ ["\"%char])
                       (cursor (pre ++ ["\"%char]) [] [] false out)).
  { apply scanned_after_plain; [exact Hp | apply backslash_ascii|].
    cbn [scan List.length]. rewrite cur_chr.
    change (byteZ "\" =? EOF) with false.
    change (byteZ "\" =? rune "\") with true. cbv iota.
    rewrite read_cur_end.
    rewrite scanEscape_default_run
      by (intros x Hx; cbn [cursor chr]; pose proof (byteZ_range x); unfold EOF; lia).
    cbn [cursor chr]. change (EOF =? rune "$") with false. cbn [orb].
    unfold out. destruct (isIdentifierPart EOF); cbn [negb]; cbv iota.
    - unfold pass. cbn [chr]. change (EOF =? EOF) with true. cbv iota.
      unfold read. cbn [str length chr chrOffset offset errors invalid buffer].
      rewrite Z.ltb_irrefl, app_nil_r. reflexivity.
    - unfold pass, write. cbn [str length chr chrOffset offset errors invalid buffer].
      change (EOF =? EOF) with true. cbv iota.
      unfold read. cbn [str length chr chrOffset offset errors invalid buffer].
      rewrite Z.ltb_irrefl. reflexivity. }
  assert (Hne : pre ++ ["\"%char] <> []) by (destruct pre; discriminate).
  rewrite (TransformRegExp_scanned _ _ Hne Hs). reflexivity.
Qed.

Lemma scanEscape_x_run fuel inClass s :
  chr s = rune "x" ->
  scanEscape isIdentifierPart fuel inClass s = scanHex (chrOffset s) 2 16 (read s).
Proof. intros H. unfold scanEscape. rewrite H. reflexivity. Qed.

(** The hexadecimal digits [hs] and then something else: the digit loop
    of [\x] and [\u] leaves through [goto skip] when it wanted more
    digits than [hs] has. *)
Lemma hexLoop_stops hs : forall n done c v rest es inv buf,
  Forall isHex hs -> noDigitNext 16 rest -> (List.length hs < n)%nat ->
  exists d' c' v',
    done ++ c :: hs = d' ++ [c'] /\
    hexLoop n 16 (read (cur done c (hs ++ rest) es inv buf)) v
    = (read (cur d' c' rest es inv buf), v', false).
Proof.
  induction hs as [|h t IH]; intros n done c v rest es inv buf Hh Hn Hl;
    (destruct n as [|n]; [simpl in Hl; lia|]).
  - exists done, c, v. split; [reflexivity|]. cbn [app hexLoop].
    rewrite wrap32u_digitValue.
    pose proof (read_cur_noDigit 16 done c rest es inv buf ltac:(lia) Hn) as Hd.
    replace (digitValue (chr (read (cur done c rest es inv buf))) >=? 16) with true
      by (symmetry; rewrite Z.geb_leb; apply Z.leb_le; exact Hd).
    reflexivity.
  - inversion Hh; subst. cbn [app].
    rewrite read_cur_ascii by (apply isHex_ascii; auto).
    rewrite hexLoop_step by (rewrite cur_chr; auto).
    destruct (IH n (done ++ [c]) h (wrap32u (v * 16 + digitValue (chr (cur (done ++ [c]) h (t ++ rest) es inv buf))))
                 rest es inv buf) as (d' & c' & v' & E & Hloop); auto.
    { simpl in Hl. lia. }
    exists d', c', v'. split; [rewrite <- E, <- app_assoc; reflexivity | exact Hloop].
Qed.

(** X4. The escape [\xHH] with two hexadecimal digits is copied with the
    digits as they stand in the source; no error is logged for it and
    [invalid] is left alone. *)
Theorem scanEscape_hex :
  (forall fuel inClass done h1 h2 rest es inv buf,
      isHex h1 -> isHex h2 ->
      exists s',
        scanEscape isIdentifierPart fuel inClass
                   (cur done "x"%char (h1 :: h2 :: rest) es inv buf) = Some s' /\
        buffer s' = buf ++ bytes "\x" ++ [h1; h2] /\
        errors s' = es ++ followError rest /\ invalid s' = inv) /\
  (forall pre h1 h2 rest,
      Forall plain pre -> isHex h1 -> isHex h2 ->
      rewrites (pre ++ "\"%char :: "x"%char :: h1 :: h2 :: rest)
               (pre ++ bytes "\x" ++ [h1; h2]) (followError rest)).
Proof.
  match goal with |- ?A /\ _ => assert (Hstate : A) end; [|split; [exact Hstate|]].
  - intros fuel inClass done h1 h2 rest es inv buf H1 H2.
    pose proof (isHex_ascii _ H1). pose proof (isHex_ascii _ H2).
    rewrite scanEscape_x_run by reflexivity.
    rewrite read_cur_ascii by auto.
    unfold scanHex.
    rewrite hexLoop_step by (rewrite cur_chr; exact H1).
    rewrite read_cur_ascii by auto.
    rewrite hexLoop_step by (rewrite cur_chr; exact H2).
    cbn [hexLoop negb Nat.eqb].
    destruct (read_cur ((done ++ ["x"%char]) ++ [h1]) h2 rest es inv buf)
      as (Hstr & _ & He & Hi & Hbuf & _).
    set (s2 := read (cur ((done ++ ["x"%char]) ++ [h1]) h2 rest es inv buf)) in *.
    rewrite <- !app_assoc in Hstr. simpl app in Hstr.
    rewrite Hstr.
    change (chrOffset (cur (done ++ ["x"%char]) h1 (h2 :: rest) es inv buf))
      with (len (done ++ ["x"%char])).
    rewrite (index_after done "x"%char (h1 :: h2 :: rest) 0)
      by (rewrite !len_cons; pose proof (len_nonneg rest); lia).
    rewrite (index_after done "x"%char (h1 :: h2 :: rest) 1)
      by (rewrite !len_cons; pose proof (len_nonneg rest); lia).
    cbn [nth_error Z.to_nat Pos.to_nat Pos.iter_op Nat.add].
    eexists. split; [reflexivity|]. simpl. rewrite He, Hi, Hbuf. auto.
  - intros pre h1 h2 rest Hp H1 H2.
    destruct (Hstate (S (S (List.length (h1 :: h2 :: rest)))) false
                     (pre ++ ["\"%char]) h1 h2 rest [] false pre H1 H2)
      as (s' & Hs' & Hb & He & Hi).
    pose proof (rewrites_escape pre "x"%char (h1 :: h2 :: rest) s' Hp
                  ltac:(unfold byteZ; simpl; lia) Hs' Hi) as R.
    rewrite Hb, He in R. exact R.
Qed.

(** X5. A [\x] with fewer than two hexadecimal digits after it, or a [\u]
    with fewer than four: [scanEscape] writes the [x] or [u] and the
    digits it has read, without the backslash; it logs no error and
    leaves [invalid] alone.  The character after the digits is not
    consumed. *)
Theorem scanEscape_incomplete_hex :
  (forall fuel inClass done m n hs rest es inv buf,
      (m = "x"%char /\ n = 2%nat) \/ (m = "u"%char /\ n = 4%nat) ->
      Forall isHex hs -> (List.length hs < n)%nat -> noDigitNext 16 rest ->
      exists s',
        scanEscape isIdentifierPart fuel inClass
                   (cur done m (hs ++ rest) es inv buf) = Some s' /\
        buffer s' = buf ++ m :: hs /\
        errors s' = es ++ followError rest /\ invalid s' = inv /\
        chrOffset s' = len done + 1 + len hs) /\
  (forall pre m n hs rest,
      (m = "x"%char /\ n = 2%nat) \/ (m = "u"%char /\ n = 4%nat) ->
      Forall plain pre ->
      Forall isHex hs -> (List.length hs < n)%nat -> noDigitNext 16 rest ->
      rewrites (pre ++ "\"%char :: m :: hs ++ rest) (pre ++ m :: hs) (followError rest)).
Proof.
  match goal with |- ?A /\ _ => assert (Hstate : A) end; [|split; [exact Hstate|]].
  - intros fuel inClass done m n hs rest es inv buf Hm Hh Hl Hn.
    assert (Hrun : scanEscape isIdentifierPart fuel inClass
                              (cur done m (hs ++ rest) es inv buf)
                   = scanHex (len done) n 16 (read (cur done m (hs ++ rest) es inv buf))).
    { destruct Hm as [[-> ->] | [-> ->]]; reflexivity. }
    rewrite Hrun. unfold scanHex.
    destruct (hexLoop_stops hs n done m 0 rest es inv buf Hh Hn Hl)
      as (d' & c' & v' & E & ->).
    cbn [negb]. cbv iota. unfold skip.
    destruct (read_cur d' c' rest es inv buf) as (Hstr & _ & He & Hi & Hbuf & _).
    pose proof (read_cur_chrOffset d' c' rest es inv buf) as Hco.
    set (s1 := read (cur d' c' rest es inv buf)) in *.
    assert (Hlen : len d' + 1 = len done + len (m :: hs)).
    { apply (f_equal len) in E. rewrite !len_app in E.
      change (len [c']) with 1 in E. lia. }
    assert (Hstr' : str s1 = done ++ (m :: hs) ++ rest).
    { rewrite Hstr.
      replace (d' ++ c' :: rest) with ((d' ++ [c']) ++ rest)
        by (rewrite <- app_assoc; reflexivity).
      rewrite <- E, <- app_assoc. reflexivity. }
    rewrite Hstr', Hco, Hlen, slice_middle.
    eexists. split; [reflexivity|]. cbn [write buffer errors invalid chrOffset].
    rewrite He, Hi, Hbuf, Hco, Hlen, len_cons. repeat split; auto. lia.
  - intros pre m n hs rest Hm Hp Hh Hl Hn.
    destruct (Hstate (S (S (List.length (hs ++ rest)))) false
                     (pre ++ ["\"%char]) m n hs rest [] false pre Hm Hh Hl Hn)
      as (s' & Hs' & Hb & He & Hi & _).
    assert (Ha : byteZ m < 128)
      by (destruct Hm as [[-> _] | [-> _]]; unfold byteZ; simpl; lia).
    pose proof (rewrites_escape pre m (hs ++ rest) s' Hp Ha Hs' Hi) as R.
    rewrite Hb, He in R. exact R.
Qed.

Definition isDecimal (d : ascii) : Prop := digitValue (byteZ d) < 10.

Lemma isDecimal_ascii d : isDecimal d -> byteZ d < 128.
Proof.
  unfold isDecimal. intros H. destruct (Z.lt_ge_cases (byteZ d) 128); auto.
  rewrite digitValue_nonascii in H; lia.
Qed.

Lemma decimalLoop_step fuel s :
  digitValue (chr s) < 10 -> decimalLoop (S fuel) s = decimalLoop fuel (read s).
Proof.
  intros H. cbn [decimalLoop].
  replace (digitValue (chr s) >=? 10) with false; auto.
  symmetry. rewrite Z.geb_leb. apply Z.leb_gt. auto.
Qed.

Lemma decimalLoop_exit fuel s :
  10 <= digitValue (chr s) -> decimalLoop (S fuel) s = Some s.
Proof.
  intros H. cbn [decimalLoop].
  replace (digitValue (chr s) >=? 10) with true; auto.
  symmetry. rewrite Z.geb_leb. apply Z.leb_le. auto.
Qed.

(** The decimal digits [c :: ds] and then something else: the loop of the
    ['8', '9'] case reads them all. *)
Lemma decimalLoop_stops ds : forall fuel done c rest es inv buf,
  isDecimal c -> Forall isDecimal ds -> noDigitNext 10 rest ->
  (List.length ds + 1 < fuel)%nat ->
  exists d' c',
    done ++ c :: ds = d' ++ [c'] /\
    decimalLoop fuel (cur done c (ds ++ rest) es inv buf)
    = Some (read (cur d' c' rest es inv buf)).
Proof.
  induction ds as [|d t IH]; intros fuel done c rest es inv buf Hc Hd Hn Hf.
  - destruct fuel as [|[|fuel]]; try (simpl in Hf; lia).
    exists done, c. split; [reflexivity|]. cbn [app].
    rewrite decimalLoop_step by (rewrite cur_chr; exact Hc).
    rewrite decimalLoop_exit by (apply read_cur_noDigit; auto; lia).
    reflexivity.
  - inversion Hd; subst. destruct fuel as [|fuel]; [lia|]. cbn [app].
    rewrite decimalLoop_step by (rewrite cur_chr; exact Hc).
    rewrite read_cur_ascii by (apply isDecimal_ascii; auto).
    destruct (IH fuel (done ++ [c]) d rest es inv buf) as (d' & c' & E & Hloop); auto.
    { simpl in Hf. lia. }
    exists d', c'. split; [rewrite <- E, <- app_assoc; reflexivity | exact Hloop].
Qed.

(** X6. A backslash before [8] or [9] and the decimal digits that follow:
    [scanEscape] copies the backslash and all the digits, logs the error
    that names them a backreference and leaves [invalid] alone. *)
Theorem scanEscape_decimal :
  (forall fuel inClass done d ds rest es inv buf,
      d = "8"%char \/ d = "9"%char -> Forall isDecimal ds -> noDigitNext 10 rest ->
      (remaining (cur done d (ds ++ rest) es inv buf) < fuel)%nat ->
      exists s',
        scanEscape isIdentifierPart fuel inClass
                   (cur done d (ds ++ rest) es inv buf) = Some s' /\
        buffer s' = buf ++ "\"%char :: d :: ds /\
        errors s' = es ++ followError rest
                       ++ [bytes "re2: Invalid \" ++ d :: ds ++ bytes " <backreference>"] /\
        invalid s' = inv) /\
  (forall pre d ds rest,
      Forall plain pre ->
      d = "8"%char \/ d = "9"%char -> Forall isDecimal ds -> noDigitNext 10 rest ->
      rewrites (pre ++ "\"%char :: d :: ds ++ rest) (pre ++ "\"%char :: d :: ds)
               (followError rest
                ++ [bytes "re2: Invalid \" ++ d :: ds ++ bytes " <backreference>"])).
Proof.
  match goal with |- ?A /\ _ => assert (Hstate : A) end; [|split; [exact Hstate|]].
  - intros fuel inClass done d ds rest es inv buf Hd Hds Hn Hf.
    assert (Hdec : isDecimal d) by (destruct Hd as [-> | ->]; vm_compute; reflexivity).
    assert (Hrun : scanEscape isIdentifierPart fuel inClass
                              (cur done d (ds ++ rest) es inv buf)
                   = (s1 <- decimalLoop fuel (cur done d (ds ++ rest) es inv buf) ;;
                      raw <- slice (str s1) (len done) (chrOffset s1) ;;
                      Some (error_ (msg_backreference_s raw)
                                   (write raw (write (bytes "\") s1))))).
    { destruct Hd as [-> | ->]; reflexivity. }
    rewrite Hrun. rewrite cur_remaining, length_app in Hf.
    destruct (decimalLoop_stops ds fuel done d rest es inv buf Hdec Hds Hn ltac:(lia))
      as (d' & c' & E & ->).
    destruct (read_cur d' c' rest es inv buf) as (Hstr & _ & He & Hi & Hbuf & _).
    pose proof (read_cur_chrOffset d' c' rest es inv buf) as Hco.
    set (s1 := read (cur d' c' rest es inv buf)) in *.
    assert (Hlen : len d' + 1 = len done + len (d :: ds)).
    { apply (f_equal len) in E. rewrite !len_app in E.
      change (len [c']) with 1 in E. lia. }
    assert (Hstr' : str s1 = done ++ (d :: ds) ++ rest).
    { rewrite Hstr.
      replace (d' ++ c' :: rest) with ((d' ++ [c']) ++ rest)
        by (rewrite <- app_assoc; reflexivity).
      rewrite <- E, <- app_assoc. reflexivity. }
    rewrite Hstr', Hco, Hlen, slice_middle.
    eexists. split; [reflexivity|].
    cbn [write error_ buffer errors invalid]. rewrite He, Hi, Hbuf.
    unfold msg_backreference_s. rewrite <- !app_assoc. auto.
  - intros pre d ds rest Hp Hd Hds Hn.
    destruct (Hstate (S (S (List.length (ds ++ rest)))) false
                     (pre ++ ["\"%char]) d ds rest [] false pre Hd Hds Hn)
      as (s' & Hs' & Hb & He & Hi); [rewrite cur_remaining; lia|].
    assert (Ha : byteZ d < 128) by (destruct Hd as [-> | ->]; unfold byteZ; simpl; lia).
    pose proof (rewrites_escape pre d (ds ++ rest) s' Hp Ha Hs' Hi) as R.
    rewrite Hb, He in R. exact R.
Qed.

(** The value the loop of the ['0'..'7'] case accumulates over the digits
    [ds], an [int64]. *)
Definition octalValue (ds : gostring) : Z :=
  fold_left (fun v d => wrap64 (v * 8 + digitValue (byteZ d))) ds 0.

(** The number that the octal digits [ds] denote. *)
Definition octal (ds : gostring) : Z :=
  fold_left (fun v d => v * 8 + digitValue (byteZ d)) ds 0.

Lemma octal_fold_small ds : forall v k,
  Forall isOctal ds -> 0 <= k -> 0 <= v < 8 ^ k -> k + len ds <= 21 ->
  fold_left (fun v d => wrap64 (v * 8 + digitValue (byteZ d))) ds v
  = fold_left (fun v d => v * 8 + digitValue (byteZ d)) ds v
  /\ 0 <= fold_left (fun v d => v * 8 + digitValue (byteZ d)) ds v < 8 ^ (k + len ds).
Proof.
  induction ds as [|d t IH]; intros v k Hd Hk Hv Hl.
  - cbn [fold_left]. change (len (@nil ascii)) with 0. rewrite Z.add_0_r. auto.
  - inversion Hd; subst. rewrite len_cons in *. pose proof (len_nonneg t).
    destruct (isOctal_digit d H1) as (_ & Hdv & _).
    assert (Hp : 8 ^ (k + 1) = 8 * 8 ^ k) by (rewrite Z.pow_add_r by lia; lia).
    assert (Hb : 8 ^ (k + 1) <= 2 ^ 63).
    { change (2 ^ 63) with (8 ^ 21). apply Z.pow_le_mono_r; lia. }
    cbn [fold_left]. rewrite wrap64_small by lia.
    replace (k + (1 + len t)) with ((k + 1) + len t) by lia.
    apply IH; auto; lia.
Qed.

Lemma octalLoop_stops ds : forall fuel done c v size rest es inv buf,
  isOctal c -> Forall isOctal ds -> noDigitNext 8 rest ->
  (List.length ds + 1 < fuel)%nat ->
  exists d' c',
    done ++ c :: ds = d' ++ [c'] /\
    octalLoop fuel (cur done c (ds ++ rest) es inv buf) v size
    = Some (read (cur d' c' rest es inv buf),
            fold_left (fun v d => wrap64 (v * 8 + digitValue (byteZ d))) (c :: ds) v,
            size + 1 + len ds).
Proof.
  induction ds as [|d t IH]; intros fuel done c v size rest es inv buf Hc Hd Hn Hf.
  - destruct fuel as [|[|fuel]]; try (simpl in Hf; lia).
    exists done, c. split; [reflexivity|]. cbn [app].
    rewrite octalLoop_step
      by (rewrite cur_chr; apply (isOctal_digit c Hc)).
    rewrite octalLoop_exit by (apply read_cur_noDigit; auto; lia).
    rewrite cur_chr. change (len (@nil ascii)) with 0. rewrite Z.add_0_r. reflexivity.
  - inversion Hd; subst. destruct fuel as [|fuel]; [lia|]. cbn [app].
    rewrite octalLoop_step
      by (rewrite cur_chr; apply (isOctal_digit c Hc)).
    rewrite read_cur_ascii by (apply (isOctal_digit d H1)).
    rewrite cur_chr.
    destruct (IH fuel (done ++ [c]) d (wrap64 (v * 8 + digitValue (byteZ c))) (size + 1)
                 rest es inv buf) as (d' & c' & E & Hloop); auto.
    { simpl in Hf. lia. }
    exists d', c'. split; [rewrite <- E, <- app_assoc; reflexivity|].
    rewrite Hloop, len_cons. cbn [fold_left].
    replace (size + 1 + (1 + len t)) with (size + 1 + 1 + len t) by lia. reflexivity.
Qed.

(** X7. An octal escape takes every octal digit that follows the
    backslash, however many.  With two digits or more [scanEscape] writes
    [\x] and the hexadecimal digits of their value, with one [0] in
    front when the value is below 16: two hexadecimal digits for a value
    up to 0377, more beyond.  The value is the number the digits denote
    as long as there are at most 21 of them (it is an [int64] and wraps
    beyond).  The single digit [0] is copied as [\0].  None of these logs
    an error or touches [invalid]. *)
Theorem scanEscape_octal_digits :
  (forall fuel inClass done d ds rest es inv buf,
      isOctal d -> Forall isOctal ds -> ds <> [] -> noDigitNext 8 rest ->
      (remaining (cur done d (ds ++ rest) es inv buf) < fuel)%nat ->
      let value := octalValue (d :: ds) in
      exists s',
        scanEscape isIdentifierPart fuel inClass
                   (cur done d (ds ++ rest) es inv buf) = Some s' /\
        buffer s' = buf ++ bytes "\x" ++ (if value <? 16 then ["0"%char] else [])
                        ++ strconv.FormatInt value 16 /\
        errors s' = es ++ followError rest /\ invalid s' = inv) /\
  (forall ds,
      Forall isOctal ds -> len ds <= 21 ->
      octalValue ds = octal ds /\ 0 <= octal ds < 8 ^ len ds) /\
  (forall fuel inClass done rest es inv buf,
      noDigitNext 8 rest ->
      (remaining (cur done "0"%char rest es inv buf) < fuel)%nat ->
      exists s',
        scanEscape isIdentifierPart fuel inClass (cur done "0"%char rest es inv buf)
        = Some s' /\
        buffer s' = buf ++ bytes "\0" /\
        errors s' = es ++ followError rest /\ invalid s' = inv) /\
  (forall pre d ds rest,
      Forall plain pre ->
      isOctal d -> Forall isOctal ds -> ds <> [] -> noDigitNext 8 rest ->
      let value := octalValue (d :: ds) in
      rewrites (pre ++ "\"%char :: d :: ds ++ rest)
               (pre ++ bytes "\x" ++ (if value <? 16 then ["0"%char] else [])
                    ++ strconv.FormatInt value 16)
               (followError rest)).
Proof.
  match goal with |- ?A /\ _ => assert (Hstate : A) end;
    [|split; [exact Hstate|split; [|split]]].
  - intros fuel inClass done d ds rest es inv buf Hd Hds Hne Hn Hf value.
    destruct (isOctal_digit d Hd) as (_ & _ & _ & Hcase).
    rewrite scanEscape_octal_run by (rewrite cur_chr; exact Hcase).
    rewrite cur_remaining, length_app in Hf.
    destruct (octalLoop_stops ds fuel done d 0 0 rest es inv buf Hd Hds Hn ltac:(lia))
      as (d' & c' & _ & ->).
    fold (octalValue (d :: ds)). fold value.
    assert (Hsize : (0 + 1 + len ds =? 1) = false).
    { apply Z.eqb_neq. destruct ds; [congruence|].
      rewrite len_cons. pose proof (len_nonneg ds). lia. }
    rewrite Hsize.
    destruct (read_cur d' c' rest es inv buf) as (_ & _ & He & Hi & Hbuf & _).
    eexists. split; [reflexivity|].
    cbn [write buffer errors invalid]. rewrite He, Hi, Hbuf.
    unfold hexEscape, strconv.AppendInt. rewrite Z.geb_leb.
    destruct (Z.leb_spec 16 value) as [E | E];
      [replace (value <? 16) with false by (symmetry; apply Z.ltb_ge; lia)
      |replace (value <? 16) with true by (symmetry; apply Z.ltb_lt; lia)];
      auto.
  - intros ds Hds Hl.
    destruct (octal_fold_small ds 0 0 Hds ltac:(lia) ltac:(simpl; lia) ltac:(lia))
      as (E & Hb).
    split; [exact E | exact Hb].
  - intros fuel inClass done rest es inv buf Hn Hf.
    rewrite scanEscape_octal_run by reflexivity.
    rewrite cur_remaining in Hf.
    destruct fuel as [|[|fuel]]; try lia.
    rewrite octalLoop_step by (rewrite cur_chr; vm_compute; reflexivity).
    rewrite octalLoop_exit by (apply read_cur_noDigit; auto; lia).
    change (0 + 1 =? 1) with true. cbv iota.
    rewrite cur_chr.
    change (wrap64 (0 * 8 + digitValue (byteZ "0"))) with 0.
    change (negb (0 =? 0)) with false. cbv iota.
    destruct (read_cur done "0"%char rest es inv buf) as (_ & _ & He & Hi & Hbuf & _).
    eexists. split; [reflexivity|].
    cbn [write buffer errors invalid]. rewrite He, Hi, Hbuf. auto.
  - intros pre d ds rest Hp Hd Hds Hne Hn value.
    destruct (Hstate (S (S (List.length (ds ++ rest)))) false
                     (pre ++ ["\"%char]) d ds rest [] false pre Hd Hds Hne Hn)
      as (s' & Hs' & Hb & He & Hi); [rewrite cur_remaining; lia|].
    pose proof (rewrites_escape pre d (ds ++ rest) s' Hp
                  (proj1 (isOctal_digit d Hd)) Hs' Hi) as R.
    rewrite Hb, He in R. exact R.
Qed.

Definition isLetter (l : ascii) : Prop :=
  rune "a" <= byteZ l <= rune "z" \/ rune "A" <= byteZ l <= rune "Z".

(** The character at the head of [rest], if any, is no ASCII letter. *)
Definition noLetterNext (rest : gostring) : Prop :=
  match rest with
  | [] => True
  | c :: _ => ~ isLetter c
  end.

Lemma scanEscape_c_run fuel inClass s :
  chr s = rune "c" ->
  scanEscape isIdentifierPart fuel inClass s =
  let s1 := read s in
  if (rune "a" <=? chr s1) && (chr s1 <=? rune "z") then
    Some (read (write (hexEscape (chr s1 - rune "a" + 1)) s1))
  else if (rune "A" <=? chr s1) && (chr s1 <=? rune "Z") then
    Some (read (write (hexEscape (chr s1 - rune "A" + 1)) s1))
  else Some (write (bytes "c") s1).
Proof. intros H. unfold scanEscape. rewrite H. reflexivity. Qed.

(** X8. The control escape [\cX]: for a letter [X] of either case
    [scanEscape] writes [\x] and the two hexadecimal digits of the
    letter's rank, 1 to 26 ([byteZ X mod 32]), and consumes the letter.
    When no letter follows it writes the [c] alone, without the
    backslash, and does not consume what follows.  Neither logs an error
    nor touches [invalid]. *)
Theorem scanEscape_control :
  (forall fuel inClass done l rest es inv buf,
      isLetter l ->
      exists s',
        scanEscape isIdentifierPart fuel inClass
                   (cur done "c"%char (l :: rest) es inv buf) = Some s' /\
        buffer s' = buf ++ bytes "\x" ++ hex2 (byteZ l mod 32) /\
        1 <= byteZ l mod 32 <= 26 /\
        errors s' = es ++ followError rest /\ invalid s' = inv /\
        chrOffset s' = len done + 2) /\
  (forall fuel inClass done rest es inv buf,
      noLetterNext rest ->
      exists s',
        scanEscape isIdentifierPart fuel inClass
                   (cur done "c"%char rest es inv buf) = Some s' /\
        buffer s' = buf ++ bytes "c" /\
        errors s' = es ++ followError rest /\ invalid s' = inv /\
        chrOffset s' = len done + 1) /\
  (forall pre l rest,
      Forall plain pre -> isLetter l ->
      rewrites (pre ++ "\"%char :: "c"%char :: l :: rest)
               (pre ++ bytes "\x" ++ hex2 (byteZ l mod 32)) (followError rest)) /\
  (forall pre rest,
      Forall plain pre -> noLetterNext rest ->
      rewrites (pre ++ "\"%char :: "c"%char :: rest) (pre ++ bytes "c")
               (followError rest)).
Proof.
  match goal with |- ?A /\ ?B /\ _ => assert (Hstate : A /\ B) end;
    [split|destruct Hstate as [Hletter Hother];
           split; [exact Hletter|split; [exact Hother|split]]].
  - intros fuel inClass done l rest es inv buf Hl.
    assert (Ha : byteZ l < 128)
      by (unfold isLetter, rune in Hl; change (byteZ "z") with 122 in Hl;
          change (byteZ "Z") with 90 in Hl; lia).
    rewrite scanEscape_c_run by reflexivity. cbv zeta.
    rewrite read_cur_ascii by exact Ha. rewrite cur_chr.
    assert (Hr : 1 <= byteZ l mod 32 <= 26).
    { unfold isLetter, rune in Hl.
      change (byteZ "a") with 97 in Hl. change (byteZ "z") with 122 in Hl.
      change (byteZ "A") with 65 in Hl. change (byteZ "Z") with 90 in Hl.
      Z.div_mod_to_equations. lia. }
    assert (Hout : exists s',
               (if (rune "a" <=? byteZ l) && (byteZ l <=? rune "z")
                then Some (read (write (hexEscape (byteZ l - rune "a" + 1))
                                       (cur (done ++ ["c"%char]) l rest es inv buf)))
                else if (rune "A" <=? byteZ l) && (byteZ l <=? rune "Z")
                     then Some (read (write (hexEscape (byteZ l - rune "A" + 1))
                                            (cur (done ++ ["c"%char]) l rest es inv buf)))
                     else Some (write (bytes "c")
                                      (cur (done ++ ["c"%char]) l rest es inv buf)))
               = Some s' /\
               s' = read (write (bytes "\x" ++ hex2 (byteZ l mod 32))
                                (cur (done ++ ["c"%char]) l rest es inv buf))).
    { unfold isLetter, rune in Hl. unfold rune.
      change (byteZ "a") with 97 in *. change (byteZ "z") with 122 in *.
      change (byteZ "A") with 65 in *. change (byteZ "Z") with 90 in *.
      destruct Hl as [Hl | Hl].
      - replace ((97 <=? byteZ l) && (byteZ l <=? 122)) with true
          by (symmetry; rewrite andb_true_iff, !Z.leb_le; lia).
        eexists. split; [reflexivity|].
        rewrite hexEscape_byte by lia.
        replace (byteZ l - 97 + 1) with (byteZ l mod 32)
          by (Z.div_mod_to_equations; lia).
        reflexivity.
      - replace ((97 <=? byteZ l) && (byteZ l <=? 122)) with false
          by (symmetry; rewrite andb_false_iff, !Z.leb_gt; lia).
        replace ((65 <=? byteZ l) && (byteZ l <=? 90)) with true
          by (symmetry; rewrite andb_true_iff, !Z.leb_le; lia).
        eexists. split; [reflexivity|].
        rewrite hexEscape_byte by lia.
        replace (byteZ l - 65 + 1) with (byteZ l mod 32)
          by (Z.div_mod_to_equations; lia).
        reflexivity. }
    destruct Hout as (s' & -> & ->).
    eexists. split; [reflexivity|].
    rewrite read_write. cbn [write buffer errors invalid chrOffset].
    destruct (read_cur_log (done ++ ["c"%char]) l rest es inv buf)
      as (Hb & He & Hi & Hco).
    rewrite Hb, He, Hi, Hco, len_app. change (len ["c"%char]) with 1.
    repeat split; auto; lia.
  - intros fuel inClass done rest es inv buf Hn.
    rewrite scanEscape_c_run by reflexivity. cbv zeta.
    destruct (read_cur done "c"%char rest es inv buf)
      as (_ & _ & He & Hi & Hb & Hc).
    pose proof (read_cur_chrOffset done "c"%char rest es inv buf) as Hco.
    set (s1 := read (cur done "c"%char rest es inv buf)) in *.
    assert (Hnl : ~ (rune "a" <= chr s1 <= rune "z")
                  /\ ~ (rune "A" <= chr s1 <= rune "Z")).
    { rewrite Hc. unfold rune.
      change (byteZ "a") with 97. change (byteZ "z") with 122.
      change (byteZ "A") with 65. change (byteZ "Z") with 90.
      destruct rest as [|c' rest]; [unfold EOF; lia|].
      simpl in Hn. unfold isLetter, rune in Hn.
      change (byteZ "a") with 97 in Hn. change (byteZ "z") with 122 in Hn.
      change (byteZ "A") with 65 in Hn. change (byteZ "Z") with 90 in Hn.
      destruct (Z.ltb_spec (byteZ c') 128) as [E | E]; [lia|].
      pose proof (DecodeRuneInString_nonascii (c' :: rest) ltac:(discriminate) E).
      lia. }
    destruct Hnl as [Hn1 Hn2].
    replace ((rune "a" <=? chr s1) && (chr s1 <=? rune "z")) with false
      by (symmetry; rewrite andb_false_iff, !Z.leb_gt; lia).
    replace ((rune "A" <=? chr s1) && (chr s1 <=? rune "Z")) with false
      by (symmetry; rewrite andb_false_iff, !Z.leb_gt; lia).
    eexists. split; [reflexivity|].
    cbn [write buffer errors invalid chrOffset]. rewrite He, Hi, Hb, Hco. auto.
  - intros pre l rest Hp Hl.
    destruct (Hletter (S (S (List.length (l :: rest)))) false
                      (pre ++ ["\"%char]) l rest [] false pre Hl)
      as (s' & Hs' & Hb & _ & He & Hi & _).
    pose proof (rewrites_escape pre "c"%char (l :: rest) s' Hp
                  ltac:(unfold byteZ; simpl; lia) Hs' Hi) as R.
    rewrite Hb, He in R. exact R.
  - intros pre rest Hp Hn.
    destruct (Hother (S (S (List.length rest))) false
                     (pre ++ ["\"%char]) rest [] false pre Hn)
      as (s' & Hs' & Hb & He & Hi & _).
    pose proof (rewrites_escape pre "c"%char rest s' Hp
                  ltac:(unfold byteZ; simpl; lia) Hs' Hi) as R.
    rewrite Hb, He in R. exact R.
Qed.

(** *** What an escape never does *)

(** The current character is the end-of-input sentinel, a rune outside
    ASCII, or the byte of the input at [chrOffset]. *)
Definition chrFrom (s : _RegExp_parser) : Prop :=
  chr s = EOF \/ 128 <= chr s \/
  (0 <= chrOffset s < len (str s) /\ chr s = byteAt (str s) (chrOffset s)).

Lemma read_chrFrom s : readable s -> chrFrom (read s).
Proof.
  intros [Hl Ho]. unfold chrFrom, read.
  destruct (Z.ltb_spec (offset s) (length s)) as [E | E]; [|left; reflexivity].
  right.
  destruct (byteAt (str s) (offset s) >=? utf8.RuneSelf) eqn:E1.
  - left. rewrite Z.geb_leb in E1. apply Z.leb_le in E1. unfold utf8.RuneSelf in E1.
    pose proof (DecodeRuneInString_nonascii (skipn (Z.to_nat (offset s)) (str s))
                  (skipn_nonempty (str s) (offset s) ltac:(lia))) as Hd.
    rewrite byteAt_skipn, Z.add_0_r in Hd by lia. specialize (Hd E1).
    destruct (utf8.DecodeRuneInString _) as [c w]. cbn [fst] in Hd.
    destruct ((c =? utf8.RuneError) && (w =? 1)); exact Hd.
  - right. cbn [str chr chrOffset]. split; [lia | reflexivity].
Qed.

(** [s'] is [s] after some scanning that did not touch [invalid] and
    logged no error of the invalid kind. *)
Definition tame (s s' : _RegExp_parser) : Prop :=
  wf s' /\ (chrFrom s -> chrFrom s') /\ str s' = str s /\ invalid s' = invalid s /\
  exists es bs, errors s' = errors s ++ es /\ buffer s' = buffer s ++ bs /\
                existsb isInvalidMsg es = false.

Lemma tame_refl s : wf s -> tame s s.
Proof.
  intros H. split; [exact H|]. split; [auto|]. split; [reflexivity|].
  split; [reflexivity|]. exists [], []. rewrite !app_nil_r. auto.
Qed.

Lemma tame_trans s1 s2 s3 : tame s1 s2 -> tame s2 s3 -> tame s1 s3.
Proof.
  intros (_ & Hc1 & Hs1 & Hi1 & es1 & bs1 & He1 & Hb1 & Hn1)
         (Hw & Hc2 & Hs2 & Hi2 & es2 & bs2 & He2 & Hb2 & Hn2).
  split; [exact Hw|]. split; [auto|]. split; [congruence|]. split; [congruence|].
  exists (es1 ++ es2), (bs1 ++ bs2).
  rewrite He2, He1, Hb2, Hb1, <- !app_assoc, existsb_app, Hn1, Hn2. auto.
Qed.

Lemma tame_read s : readable s -> tame s (read s).
Proof.
  intros H. destruct (read_fields s) as (Hs & _ & Hi & Hb).
  split; [apply read_wf; exact H|].
  split; [intros _; apply read_chrFrom; exact H|].
  split; [exact Hs|]. split; [exact Hi|].
  destruct (read_errors s) as [E | E].
  - exists [], []. rewrite E, Hb, !app_nil_r. auto.
  - exists [msg_RuneError], []. rewrite E, Hb, !app_nil_r. auto.
Qed.

Lemma tame_write bs s : wf s -> tame s (write bs s).
Proof.
  intros H. split; [exact H|]. split; [auto|]. split; [reflexivity|].
  split; [reflexivity|]. exists [], bs. cbn. rewrite app_nil_r. auto.
Qed.

Lemma tame_error e s : wf s -> isInvalidMsg e = false -> tame s (error_ e s).
Proof.
  intros H He. split; [exact H|]. split; [auto|]. split; [reflexivity|].
  split; [reflexivity|]. exists [e], []. cbn.
  rewrite app_nil_r, He. auto.
Qed.

Lemma tame_wf s s' : tame s s' -> wf s'.
Proof. intros (H & _). exact H. Qed.

Lemma tame_pass s : wf s -> tame s (pass s).
Proof.
  intros H. unfold pass. destruct (chr s =? EOF).
  - apply tame_read, wf_readable, H.
  - eapply tame_trans; [apply (tame_write (utf8.EncodeRune (chr s))); exact H|].
    apply tame_read, wf_readable. exact H.
Qed.

Lemma octalLoop_tame fuel : forall s v n s1 v1 n1,
  wf s -> octalLoop fuel s v n = Some (s1, v1, n1) -> tame s s1.
Proof.
  induction fuel as [|fuel IH]; intros s v n s1 v1 n1 H Hl; [discriminate|].
  cbn [octalLoop] in Hl. destruct (digitValue (chr s) >=? 8).
  - inversion Hl; subst. apply tame_refl; auto.
  - eapply tame_trans; [apply tame_read, wf_readable, H|].
    eapply IH; [|exact Hl]. apply read_wf, wf_readable, H.
Qed.

Lemma decimalLoop_tame fuel : forall s s1,
  wf s -> decimalLoop fuel s = Some s1 -> tame s s1.
Proof.
  induction fuel as [|fuel IH]; intros s s1 H Hl; [discriminate|].
  cbn [decimalLoop] in Hl. destruct (digitValue (chr s) >=? 10).
  - inversion Hl; subst. apply tame_refl; auto.
  - eapply tame_trans; [apply tame_read, wf_readable, H|].
    eapply IH; [|exact Hl]. apply read_wf, wf_readable, H.
Qed.

Lemma hexLoop_tame n : forall base s v s1 v1 ok,
  wf s -> hexLoop n base s v = (s1, v1, ok) -> tame s s1.
Proof.
  induction n as [|n IH]; intros base s v s1 v1 ok H Hl; cbn [hexLoop] in Hl.
  - inversion Hl; subst. apply tame_refl; auto.
  - destruct (wrap32u (digitValue (chr s)) >=? base).
    + inversion Hl; subst. apply tame_refl; auto.
    + eapply tame_trans; [apply tame_read, wf_readable, H|].
      eapply IH; [|exact Hl]. apply read_wf, wf_readable, H.
Qed.

Lemma skip_tame offset0 s s' : wf s -> skip offset0 s = Some s' -> tame s s'.
Proof.
  intros H Hs. unfold skip in Hs.
  destruct (slice _ _ _) as [raw|]; [|discriminate].
  inversion Hs; subst. apply tame_write; auto.
Qed.

Lemma scanHex_tame offset0 n s s' :
  wf s -> scanHex offset0 n 16 s = Some s' -> tame s s'.
Proof.
  intros H Hs. unfold scanHex in Hs.
  destruct (hexLoop n 16 s 0) as [[s1 v1] ok] eqn:El.
  pose proof (hexLoop_tame _ _ _ _ _ _ _ H El) as Ht.
  assert (H1 := tame_wf _ _ Ht).
  destruct (negb ok).
  { eapply tame_trans; [exact Ht|]. eapply skip_tame; eauto. }
  destruct (Nat.eqb n 4).
  { repeat (destruct (index _ _); [|discriminate]).
    inversion Hs; subst. eapply tame_trans; [exact Ht|]. apply tame_write; auto. }
  destruct (Nat.eqb n 2).
  { repeat (destruct (index _ _); [|discriminate]).
    inversion Hs; subst. eapply tame_trans; [exact Ht|]. apply tame_write; auto. }
  eapply tame_trans; [exact Ht|].
  eapply tame_trans; [apply (tame_error msg_IllegalBranch); auto|].
  eapply skip_tame; [|exact Hs]. exact H1.
Qed.

Lemma scanEscape_tame fuel inClass s s' :
  wf s -> scanEscape isIdentifierPart fuel inClass s = Some s' -> tame s s'.
Proof.
  intros H Hs. unfold scanEscape in Hs.
  destruct (caseOf (chr s) _).
  { destruct (octalLoop fuel s 0 0) as [[[s1 v] n]|] eqn:El; [|discriminate].
    pose proof (octalLoop_tame _ _ _ _ _ _ _ H El) as Ht.
    assert (H1 := tame_wf _ _ Ht).
    eapply tame_trans; [exact Ht|].
    destruct (n =? 1).
    - destruct (negb (v =? 0)); inversion Hs; subst.
      + eapply tame_trans; [apply tame_write; exact H1|].
        apply tame_error; [apply H1 | apply msg_backreference_d_plain].
      + apply tame_write; auto.
    - inversion Hs; subst. apply tame_write; auto. }
  destruct (caseOf (chr s) _).
  { destruct (decimalLoop fuel s) as [s1|] eqn:El; [|discriminate].
    pose proof (decimalLoop_tame _ _ _ H El) as Ht.
    assert (H1 := tame_wf _ _ Ht).
    destruct (slice _ _ _) as [raw|]; [|discriminate].
    inversion Hs; subst.
    eapply tame_trans; [exact Ht|].
    eapply tame_trans; [apply (tame_write (bytes "\")); exact H1|].
    eapply tame_trans; [apply (tame_write raw); exact H1|].
    apply tame_error; [exact H1 | apply msg_backreference_s_plain]. }
  destruct (caseOf (chr s) _).
  { eapply tame_trans; [apply tame_read, wf_readable, H|].
    eapply scanHex_tame; [|exact Hs]. apply read_wf, wf_readable, H. }
  destruct (caseOf (chr s) _).
  { eapply tame_trans; [apply tame_read, wf_readable, H|].
    eapply scanHex_tame; [|exact Hs]. apply read_wf, wf_readable, H. }
  destruct (caseOf (chr s) _ && inClass).
  { inversion Hs; subst.
    eapply tame_trans; [apply tame_write; exact H|].
    apply tame_read, wf_readable. exact H. }
  destruct (caseOf (chr s) _).
  { inversion Hs; subst.
    eapply tame_trans; [apply tame_write; exact H|]. apply tame_pass. exact H. }
  destruct (caseOf (chr s) _).
  { assert (H1 : wf (read s)) by (apply read_wf, wf_readable, H).
    eapply tame_trans; [apply tame_read, wf_readable, H|].
    destruct ((rune "a" <=? chr (read s)) && (chr (read s) <=? rune "z"));
      [|destruct ((rune "A" <=? chr (read s)) && (chr (read s) <=? rune "Z"))];
      inversion Hs; subst.
    - eapply tame_trans; [apply tame_write; exact H1|].
      apply tame_read, wf_readable. exact H1.
    - eapply tame_trans; [apply tame_write; exact H1|].
      apply tame_read, wf_readable. exact H1.
    - apply tame_write; exact H1. }
  destruct ((chr s =? rune "$") || negb (isIdentifierPart (chr s)));
    inversion Hs; subst.
  - eapply tame_trans; [apply tame_write; exact H|]. apply tame_pass. exact H.
  - apply tame_pass. exact H.
Qed.

(** X9. No escape makes a pattern invalid: whatever follows the backslash,
    [scanEscape] returns, leaves the input and the flag [invalid] as they
    are, only appends to the output and to the error list, and none of
    the errors it logs is one of the three that come with [invalid]. *)
Theorem scanEscape_never_invalid fuel inClass s :
  wf s -> (remaining s < fuel)%nat ->
  exists s',
    scanEscape isIdentifierPart fuel inClass s = Some s' /\
    str s' = str s /\ invalid s' = invalid s /\
    exists es bs,
      errors s' = errors s ++ es /\ buffer s' = buffer s ++ bs /\
      forall e, In e es ->
                e <> msg_Unmatched /\ e <> msg_UnterminatedGroup
                /\ e <> msg_UnterminatedClass.
Proof.
  intros H Hf.
  destruct (scanEscape_ok fuel inClass s H Hf) as (s' & Hs & _).
  exists s'. split; [exact Hs|].
  destruct (scanEscape_tame _ _ _ _ H Hs)
    as (_ & _ & Hstr & Hi & es & bs & He & Hb & Hn).
  split; [exact Hstr|]. split; [exact Hi|].
  exists es, bs. split; [exact He|]. split; [exact Hb|].
  intros e Hin.
  assert (Hf' : isInvalidMsg e = false).
  { destruct (isInvalidMsg e) eqn:E; [|reflexivity].
    assert (existsb isInvalidMsg es = true)
      by (apply existsb_exists; exists e; auto).
    congruence. }
  unfold isInvalidMsg in Hf'. rewrite !orb_false_iff in Hf'.
  destruct Hf' as [[H1 H2] H3].
  repeat split; intros ->; [rewrite (proj2 (geqb_eq _ _) eq_refl) in H1
                           |rewrite (proj2 (geqb_eq _ _) eq_refl) in H2
                           |rewrite (proj2 (geqb_eq _ _) eq_refl) in H3];
    discriminate.
Qed.

(** A pattern without the bytes [(], [)] and [[]. *)
Definition noBrackets (l : gostring) : Prop :=
  forall c, In c l -> c <> "("%char /\ c <> ")"%char /\ c <> "["%char.

Lemma chr_noBracket s :
  chrFrom s -> noBrackets (str s) ->
  chr s <> rune "(" /\ chr s <> rune ")" /\ chr s <> rune "[".
Proof.
  intros Hc Hn. unfold rune.
  change (byteZ "(") with 40. change (byteZ ")") with 41. change (byteZ "[") with 91.
  destruct Hc as [E | [E | [Ho E]]]; [unfold EOF in E; lia | lia|].
  assert (Hin : In (nth (Z.to_nat (chrOffset s)) (str s) zero) (str s))
    by (apply nth_In; unfold len in Ho; lia).
  destruct (Hn _ Hin) as (N1 & N2 & N3).
  rewrite E. unfold byteAt.
  repeat split; intros E'.
  - apply N1, byteZ_inj. exact E'.
  - apply N2, byteZ_inj. exact E'.
  - apply N3, byteZ_inj. exact E'.
Qed.

Lemma scan_tame fuel : forall s s',
  wf s -> chrFrom s -> noBrackets (str s) ->
  scan isIdentifierPart fuel s = Some s' -> tame s s'.
Proof.
  induction fuel as [|fuel IH]; intros s s' H Hc Hn Hs; [discriminate|].
  cbn [scan] in Hs.
  destruct (chr s =? EOF).
  { inversion Hs; subst. apply tame_refl; auto. }
  assert (Hcont : forall s1, tame s s1 -> scan isIdentifierPart fuel s1 = Some s' ->
                             tame s s').
  { intros s1 Ht Hs1. eapply tame_trans; [exact Ht|].
    destruct Ht as (H1 & Hc1 & Hstr & _).
    apply IH; auto. rewrite Hstr. exact Hn. }
  destruct (chr_noBracket s Hc Hn) as (N1 & N2 & N3).
  apply Z.eqb_neq in N1, N2, N3.
  destruct (chr s =? rune "\").
  { destruct (scanEscape isIdentifierPart fuel false (read s)) as [s1|] eqn:E;
      [|discriminate].
    apply (Hcont s1); [|exact Hs].
    eapply tame_trans; [apply tame_read, wf_readable, H|].
    eapply scanEscape_tame; [|exact E]. apply read_wf, wf_readable, H. }
  rewrite N1, N3, N2 in Hs.
  apply (Hcont (pass s)); [apply tame_pass; exact H | exact Hs].
Qed.

(** X10. A pattern without the bytes [(], [)] and [[] is never rejected:
    whatever escapes and malformed UTF-8 it holds, [TransformRegExp]
    returns the rewritten pattern (not the invalid outcome), and none of
    the errors logged is one that comes with [invalid]. *)
Theorem TransformRegExp_without_brackets pattern :
  noBrackets pattern ->
  exists s,
    scanned pattern s /\ invalid s = false /\
    existsb isInvalidMsg (errors s) = false /\
    TransformRegExp isIdentifierPart pattern = Some (buffer s, hd_error (errors s)).
Proof.
  intros Hn. destruct (scanned_ok pattern) as (s & Hs & _ & _).
  exists s. split; [exact Hs|].
  assert (Ht : tame (newParser pattern) s).
  { eapply tame_trans; [apply tame_read, newParser_readable|].
    apply (scan_tame (S (List.length pattern))); auto.
    - apply firstRead_wf.
    - apply read_chrFrom, newParser_readable.
    - destruct (read_fields (newParser pattern)) as (-> & _). exact Hn. }
  destruct Ht as (_ & _ & _ & Hi & es & bs & He & _ & Hes).
  cbn [newParser invalid errors] in Hi, He. cbn [app] in He.
  split; [exact Hi|]. split; [rewrite He; exact Hes|].
  destruct pattern as [|b t].
  - unfold scanned in Hs. cbn in Hs. inversion Hs; subst. reflexivity.
  - assert (Hne : b :: t <> []) by discriminate.
    rewrite (TransformRegExp_scanned _ s Hne Hs), Hi. reflexivity.
Qed.

(** *** Patterns that need no rewriting *)

Lemma read_cur_cursor done c rest es inv buf :
  asciiHead rest ->
  read (cur done c rest es inv buf) = cursor (done ++ [c]) rest es inv buf.
Proof.
  intros Ha. destruct rest as [|c' rest].
  - apply read_cur_end.
  - apply read_cur_ascii. exact Ha.
Qed.

Lemma cursor_str done rest es inv buf :
  str (cursor done rest es inv buf) = done ++ rest
  /\ chrOffset (cursor done rest es inv buf) = len done.
Proof.
  destruct rest; cbn [cursor cur str chrOffset]; rewrite ?app_nil_r; auto.
Qed.

Lemma asciiHead_cons c l : byteZ c < 128 -> asciiHead (c :: l).
Proof. intros H. exact H. Qed.

(** The two loops that scan items: [scan] and the loop of [scanGroup]. *)
Record itemLoop (loop : nat -> _RegExp_parser -> option _RegExp_parser) : Prop := {
  loop_mono : forall fuel fuel' s r,
      loop fuel s = Some r -> (fuel <= fuel')%nat -> loop fuel' s = Some r;
  loop_plain : forall fuel done c rest es inv buf,
      plain c -> asciiHead rest ->
      loop (S fuel) (cur done c rest es inv buf)
      = loop fuel (cursor (done ++ [c]) rest es inv (buf ++ [c]));
  loop_escape : forall fuel done c rest es inv buf,
      byteZ c < 128 ->
      loop (S fuel) (cur done "\"%char (c :: rest) es inv buf)
      = (s' <- scanEscape isIdentifierPart fuel false
                          (cur (done ++ ["\"%char]) c rest es inv buf) ;;
         loop fuel s');
  loop_group : forall fuel done rest es inv buf,
      asciiHead rest ->
      loop (S fuel) (cur done "("%char rest es inv buf)
      = (s' <- scanGroup isIdentifierPart fuel
                         (cursor (done ++ ["("%char]) rest es inv (buf ++ ["("%char])) ;;
         loop fuel s');
  loop_bracket : forall fuel done rest es inv buf,
      asciiHead rest ->
      loop (S fuel) (cur done "["%char rest es inv buf)
      = (s' <- scanBracket isIdentifierPart fuel
                           (cursor (done ++ ["["%char]) rest es inv (buf ++ ["["%char])) ;;
         loop fuel s')
}.

Lemma scan_group fuel done rest es inv buf :
  asciiHead rest ->
  scan isIdentifierPart (S fuel) (cur done "("%char rest es inv buf)
  = (s' <- scanGroup isIdentifierPart fuel
                     (cursor (done ++ ["("%char]) rest es inv (buf ++ ["("%char])) ;;
     scan isIdentifierPart fuel s').
Proof.
  intros Ha. cbn [scan]. rewrite cur_chr.
  change (byteZ "(" =? EOF) with false.
  change (byteZ "(" =? rune "\") with false.
  change (byteZ "(" =? rune "(") with true. cbv iota.
  rewrite pass_cur by (auto; unfold byteZ; simpl; lia). reflexivity.
Qed.

Lemma itemLoop_scan : itemLoop (scan isIdentifierPart).
Proof.
  split.
  - intros fuel fuel' s r Hr Hle. eapply scan_mono; eauto.
  - intros. apply scan_plain; auto.
  - intros. apply scan_escape; auto.
  - intros. apply scan_group; auto.
  - intros. apply scan_bracket; auto.
Qed.

Lemma itemLoop_scanGroupLoop : itemLoop (scanGroupLoop isIdentifierPart).
Proof.
  split.
  - intros fuel fuel' s r Hr Hle. eapply scanGroupLoop_mono; eauto.
  - intros. apply scanGroupLoop_plain; auto.
  - intros fuel done c rest es inv buf Hc. cbn [scanGroupLoop]. rewrite cur_chr.
    change ((byteZ "\" =? EOF) || (byteZ "\" =? rune ")")) with false.
    change (byteZ "\" =? rune "\") with true. cbv iota.
    rewrite read_cur_ascii by exact Hc. reflexivity.
  - intros fuel done rest es inv buf Ha. cbn [scanGroupLoop]. rewrite cur_chr.
    change ((byteZ "(" =? EOF) || (byteZ "(" =? rune ")")) with false.
    change (byteZ "(" =? rune "\") with false.
    change (byteZ "(" =? rune "(") with true. cbv iota.
    rewrite pass_cur by (auto; unfold byteZ; simpl; lia). reflexivity.
  - intros fuel done rest es inv buf Ha. cbn [scanGroupLoop]. rewrite cur_chr.
    change ((byteZ "[" =? EOF) || (byteZ "[" =? rune ")")) with false.
    change (byteZ "[" =? rune "\") with false.
    change (byteZ "[" =? rune "(") with false.
    change (byteZ "[" =? rune "[") with true. cbv iota.
    rewrite pass_cur by (auto; unfold byteZ; simpl; lia). reflexivity.
Qed.

(** [loop] run with some amount of fuel. *)
Definition runs (loop : nat -> _RegExp_parser -> option _RegExp_parser)
           (s s' : _RegExp_parser) : Prop :=
  exists fuel, loop fuel s = Some s'.

(** The content of a character class that is copied as it stands:
    ordinary characters and the escapes of [classEscapes]. *)
Inductive classBody : gostring -> Prop :=
| classBody_nil : classBody []
| classBody_char c w : classPlain c -> classBody w -> classBody (c :: w)
| classBody_escape c w :
    In c classEscapes -> classBody w -> classBody ("\"%char :: c :: w).

(** The error, if any, that the opening of a group with the content [g]
    logs: [g] starts with [?=] or [?!]. *)
Definition lookaheadErrors (g : gostring) : list error :=
  match g with
  | q :: c :: _ =>
    if (byteZ q =? rune "?") && ((byteZ c =? rune "=") || (byteZ c =? rune "!"))
    then [msg_lookahead [q; c]] else []
  | _ => []
  end.

(** The message for the backreference [\d], [\dd...]. *)
Definition backreference (ds : gostring) : error :=
  bytes "re2: Invalid \" ++ ds ++ bytes " <backreference>".

(** [copied w es]: the pattern [w] is valid ECMAScript of the following
    kind, and scanning it logs the errors [es].  It is made of ordinary
    ASCII characters, the escapes of [classEscapes], [\0], the
    backreferences [\1] to [\7] and [\8...], [\9...], character classes,
    and properly nested groups, lookahead groups included. *)
Inductive copied : gostring -> list error -> Prop :=
| copied_nil : copied [] []
| copied_char c w es : plain c -> copied w es -> copied (c :: w) es
| copied_escape c w es :
    In c classEscapes -> copied w es -> copied ("\"%char :: c :: w) es
| copied_null w es :
    noDigitNext 8 w -> copied w es -> copied ("\"%char :: "0"%char :: w) es
| copied_backreference d w es :
    isOctal d -> d <> "0"%char -> noDigitNext 8 w -> copied w es ->
    copied ("\"%char :: d :: w) (backreference [d] :: es)
| copied_decimal d ds w es :
    d = "8"%char \/ d = "9"%char -> Forall isDecimal ds -> noDigitNext 10 w ->
    copied w es ->
    copied ("\"%char :: d :: ds ++ w) (backreference (d :: ds) :: es)
| copied_group g w eg es :
    copied g eg -> copied w es ->
    copied ("("%char :: g ++ ")"%char :: w) (lookaheadErrors g ++ eg ++ es)
| copied_class cls w es :
    classBody cls -> copied w es ->
    copied ("["%char :: cls ++ "]"%char :: w) es.

Lemma classBody_asciiHead cls l : classBody cls -> asciiHead l -> asciiHead (cls ++ l).
Proof.
  intros H Hl. destruct H; cbn [app asciiHead]; auto.
  - apply classPlain_ascii; auto.
  - apply backslash_ascii.
Qed.

Lemma copied_asciiHead w es l : copied w es -> asciiHead l -> asciiHead (w ++ l).
Proof.
  intros H Hl. destruct H; cbn [app asciiHead]; auto;
    try (vm_compute; reflexivity).
  apply plain_ascii; auto.
Qed.

Lemma noDigitNext_app bound w l :
  noDigitNext bound w -> noDigitNext bound l -> noDigitNext bound (w ++ l).
Proof. intros Hw Hl. destruct w; [exact Hl | exact Hw]. Qed.

Lemma noDigitNext_le b1 b2 l : b1 <= b2 -> noDigitNext b2 l -> noDigitNext b1 l.
Proof. intros Hb H. destruct l; [exact I|]. simpl in *. lia. Qed.

Lemma write_cursor bs done rest es inv buf :
  write bs (cursor done rest es inv buf) = cursor done rest es inv (buf ++ bs).
Proof. destruct rest; reflexivity. Qed.

Lemma lookahead_group done g t es inv buf :
  lookahead (cursor done (g ++ ")"%char :: t) es inv buf)
  = Some (cursor done (g ++ ")"%char :: t) (es ++ lookaheadErrors g) inv buf).
Proof.
  unfold lookahead.
  destruct (cursor_str done (g ++ ")"%char :: t) es inv buf) as (Hs & Ho).
  rewrite Hs, Ho. pose proof (len_nonneg done).
  rewrite sliceFrom_skipn
    by (rewrite len_app; pose proof (len_nonneg (g ++ ")"%char :: t)); lia).
  rewrite skipn_len_app.
  destruct g as [|a [|b g]].
  - cbn [app lookaheadErrors]. rewrite app_nil_r.
    change (byteAt (")"%char :: t) 0 =? rune "?") with false.
    destruct (1 <? len (")"%char :: t)); reflexivity.
  - cbn [app lookaheadErrors]. rewrite app_nil_r.
    change (byteAt [a; ")"%char] 1) with (byteZ ")").
    change (byteAt (a :: ")"%char :: t) 1) with (byteZ ")").
    change ((byteZ ")" =? rune "=") || (byteZ ")" =? rune "!")) with false.
    destruct (1 <? len (a :: ")"%char :: t)); [|reflexivity].
    destruct (byteAt (a :: ")"%char :: t) 0 =? rune "?"); reflexivity.
  - cbn [app lookaheadErrors].
    rewrite !len_cons. pose proof (len_nonneg (g ++ ")"%char :: t)).
    replace (1 <? 1 + (1 + len (g ++ ")"%char :: t))) with true
      by (symmetry; apply Z.ltb_lt; lia).
    change (byteAt (a :: b :: g ++ ")"%char :: t) 0) with (byteZ a).
    change (byteAt (a :: b :: g ++ ")"%char :: t) 1) with (byteZ b).
    destruct (byteZ a =? rune "?"); cbn [andb]; [|rewrite app_nil_r; reflexivity].
    destruct ((byteZ b =? rune "=") || (byteZ b =? rune "!"));
      [|rewrite app_nil_r; reflexivity].
    replace (done ++ a :: b :: g ++ ")"%char :: t)
      with (done ++ [a; b] ++ (g ++ ")"%char :: t)) by reflexivity.
    change 2 with (len [a; b]). rewrite slice_middle.
    rewrite error_cursor. reflexivity.
Qed.

(** The escapes of [copied], on a parser that stands on ASCII input. *)
Lemma null_cursor fuel inClass done rest es inv buf :
  noDigitNext 8 rest -> asciiHead rest -> (S (List.length rest) < fuel)%nat ->
  scanEscape isIdentifierPart fuel inClass (cur done "0"%char rest es inv buf)
  = Some (cursor (done ++ ["0"%char]) rest es inv (buf ++ bytes "\0")).
Proof.
  intros Hn Ha Hf.
  rewrite scanEscape_octal_run by reflexivity.
  destruct fuel as [|[|fuel]]; try lia.
  rewrite octalLoop_step by (rewrite cur_chr; vm_compute; reflexivity).
  rewrite octalLoop_exit by (apply read_cur_noDigit; auto; lia).
  change (0 + 1 =? 1) with true. cbv iota.
  rewrite cur_chr.
  change (wrap64 (0 * 8 + digitValue (byteZ "0"))) with 0.
  change (negb (0 =? 0)) with false. cbv iota.
  rewrite read_cur_cursor by exact Ha. rewrite write_cursor. reflexivity.
Qed.

Lemma msg_backreference_digit d :
  isOctal d -> msg_backreference_d (digitValue (byteZ d)) = backreference [d].
Proof.
  intros Hd. destruct (isOctal_digit d Hd) as (_ & Hv & _).
  unfold msg_backreference_d, backreference, strconv.FormatInt.
  replace (digitValue (byteZ d) <? 0) with false by (symmetry; apply Z.ltb_ge; lia).
  cbn [strconv.formatBits].
  replace (digitValue (byteZ d) <? 10) with true by (symmetry; apply Z.ltb_lt; lia).
  rewrite digit_octal by auto. reflexivity.
Qed.

Lemma backreference_cursor fuel inClass done d rest es inv buf :
  isOctal d -> d <> "0"%char -> noDigitNext 8 rest -> asciiHead rest ->
  (S (List.length rest) < fuel)%nat ->
  scanEscape isIdentifierPart fuel inClass (cur done d rest es inv buf)
  = Some (cursor (done ++ [d]) rest (es ++ [backreference [d]]) inv
                 (buf ++ ["\"%char; d])).
Proof.
  intros Hd Hnz Hn Ha Hf.
  destruct (isOctal_digit d Hd) as (_ & Hv & Hb & Hcase).
  rewrite scanEscape_octal_run by (rewrite cur_chr; exact Hcase).
  destruct fuel as [|[|fuel]]; try lia.
  rewrite octalLoop_step by (rewrite cur_chr; lia).
  rewrite octalLoop_exit by (apply read_cur_noDigit; auto; lia).
  rewrite cur_chr. simpl (0 * 8 + _). rewrite wrap64_small by lia.
  change (0 + 1 =? 1) with true. cbv iota.
  assert (Hv0 : digitValue (byteZ d) <> 0).
  { intros E. apply Hnz. rewrite <- (digit_octal d Hd), E. reflexivity. }
  replace (digitValue (byteZ d) =? 0) with false
    by (symmetry; apply Z.eqb_neq; auto).
  cbn [negb]. rewrite byteZ_byte_of_Z by lia.
  replace (digitValue (byteZ d) + rune "0") with (byteZ d) by lia.
  rewrite byte_of_byteZ, msg_backreference_digit by exact Hd.
  rewrite read_cur_cursor by exact Ha.
  rewrite write_cursor, error_cursor. reflexivity.
Qed.

Lemma decimal_cursor fuel inClass done d ds rest es inv buf :
  d = "8"%char \/ d = "9"%char -> Forall isDecimal ds -> noDigitNext 10 rest ->
  asciiHead rest -> (S (List.length (ds ++ rest)) < fuel)%nat ->
  scanEscape isIdentifierPart fuel inClass (cur done d (ds ++ rest) es inv buf)
  = Some (cursor (done ++ d :: ds) rest (es ++ [backreference (d :: ds)]) inv
                 (buf ++ "\"%char :: d :: ds)).
Proof.
  intros Hd Hds Hn Ha Hf.
  assert (Hdec : isDecimal d) by (destruct Hd as [-> | ->]; vm_compute; reflexivity).
  assert (Hrun : scanEscape isIdentifierPart fuel inClass
                            (cur done d (ds ++ rest) es inv buf)
                 = (s1 <- decimalLoop fuel (cur done d (ds ++ rest) es inv buf) ;;
                    raw <- slice (str s1) (len done) (chrOffset s1) ;;
                    Some (error_ (msg_backreference_s raw)
                                 (write raw (write (bytes "\") s1))))).
  { destruct Hd as [-> | ->]; reflexivity. }
  rewrite Hrun. rewrite length_app in Hf.
  destruct (decimalLoop_stops ds fuel done d rest es inv buf Hdec Hds Hn ltac:(lia))
    as (d' & c' & E & ->).
  rewrite read_cur_cursor by exact Ha. rewrite <- E.
  destruct (cursor_str (done ++ d :: ds) rest es inv buf) as (Hs & Ho).
  rewrite Hs, Ho, <- app_assoc, len_app, slice_middle.
  rewrite !write_cursor, error_cursor.
  unfold msg_backreference_s, backreference. rewrite <- !app_assoc. reflexivity.
Qed.

Lemma scanEscape_classEscape_cursor fuel inClass done c rest es inv buf :
  In c classEscapes -> asciiHead rest ->
  scanEscape isIdentifierPart fuel inClass (cur done c rest es inv buf)
  = Some (cursor (done ++ [c]) rest es inv (buf ++ ["\"%char; c])).
Proof.
  intros Hin Ha.
  rewrite (scanEscape_classEscape_run fuel inClass _ c Hin) by reflexivity.
  rewrite pass_write_cur by (apply classEscapes_ascii; exact Hin).
  rewrite read_cur_cursor by exact Ha. reflexivity.
Qed.

Lemma classBody_advance cls : classBody cls ->
  forall done l es inv buf s',
    asciiHead l ->
    runs (scanBracketLoop isIdentifierPart) (cursor (done ++ cls) l es inv (buf ++ cls)) s' ->
    runs (scanBracketLoop isIdentifierPart) (cursor done (cls ++ l) es inv buf) s'.
Proof.
  induction 1 as [|c w Hc Hw IH|c w Hc Hw IH]; intros done l es inv buf s' Hl Hr.
  - rewrite !app_nil_r in Hr. exact Hr.
  - specialize (IH (done ++ [c]) l es inv (buf ++ [c]) s' Hl).
    rewrite <- !app_assoc in IH. destruct (IH Hr) as (fuel & Hf).
    exists (S fuel). cbn [app cursor].
    rewrite scanBracketLoop_plain
      by (auto using classBody_asciiHead). exact Hf.
  - specialize (IH (done ++ ["\"%char; c]) l es inv (buf ++ ["\"%char; c]) s' Hl).
    rewrite <- !app_assoc in IH. destruct (IH Hr) as (fuel & Hf).
    exists (S fuel). cbn [app cursor].
    rewrite scanBracketLoop_escape by (apply classEscapes_ascii; auto).
    rewrite scanEscape_classEscape_cursor by (auto using classBody_asciiHead).
    rewrite <- app_assoc. exact Hf.
Qed.

(** An escape as an item of a loop: when [scanEscape] takes the parser to
    [X] with enough fuel, the loop goes on from [X]. *)
Lemma advance_escape loop (HL : itemLoop loop) done c rest es inv buf X s' n :
  byteZ c < 128 ->
  (forall fuel, (n <= fuel)%nat ->
     scanEscape isIdentifierPart fuel false
                (cur (done ++ ["\"%char]) c rest es inv buf) = Some X) ->
  runs loop X s' ->
  runs loop (cur done "\"%char (c :: rest) es inv buf) s'.
Proof.
  intros Hc Hesc (f & Hf). exists (S (Nat.max n f)).
  rewrite (loop_escape loop HL) by exact Hc.
  rewrite Hesc by apply Nat.le_max_l.
  apply (loop_mono loop HL _ _ _ _ Hf (Nat.le_max_r n f)).
Qed.

Lemma copied_advance w ew : copied w ew ->
  forall loop, itemLoop loop ->
  forall done l es inv buf s',
    asciiHead l -> noDigitNext 10 l ->
    runs loop (cursor (done ++ w) l (es ++ ew) inv (buf ++ w)) s' ->
    runs loop (cursor done (w ++ l) es inv buf) s'.
Proof.
  induction 1 as [|c w ew Hc Hw IH|c w ew Hc Hw IH|w ew Hn Hw IH
                  |d w ew Hd Hnz Hn Hw IH|d ds w ew Hd Hds Hn Hw IH
                  |g w eg ew Hg IHg Hw IHw|cls w ew Hcls Hw IH];
    intros loop HL done l es inv buf s' Hl Hnl Hr.
  - rewrite !app_nil_r in Hr. exact Hr.
  - (* an ordinary character *)
    specialize (IH loop HL (done ++ [c]) l es inv (buf ++ [c]) s' Hl Hnl).
    rewrite <- !app_assoc in IH. destruct (IH Hr) as (fuel & Hf).
    exists (S fuel). cbn [app cursor].
    rewrite (loop_plain loop HL) by (eauto using copied_asciiHead). exact Hf.
  - (* a class escape *)
    specialize (IH loop HL (done ++ ["\"%char; c]) l es inv (buf ++ ["\"%char; c])
                   s' Hl Hnl).
    rewrite <- !app_assoc in IH. cbn [app cursor].
    apply (advance_escape loop HL done c (w ++ l) es inv buf
             (cursor (done ++ ["\"%char; c]) (w ++ l) es inv (buf ++ ["\"%char; c]))
             s' 0%nat).
    + apply classEscapes_ascii; auto.
    + intros fuel _.
      rewrite scanEscape_classEscape_cursor by (eauto using copied_asciiHead).
      rewrite <- app_assoc. reflexivity.
    + apply IH. exact Hr.
  - (* \0 *)
    specialize (IH loop HL (done ++ bytes "\0") l es inv (buf ++ bytes "\0")
                   s' Hl Hnl).
    rewrite <- !app_assoc in IH. cbn [app cursor].
    apply (advance_escape loop HL done "0"%char (w ++ l) es inv buf
             (cursor (done ++ bytes "\0") (w ++ l) es inv (buf ++ bytes "\0"))
             s' (S (S (List.length (w ++ l))))).
    + vm_compute. reflexivity.
    + intros fuel Hfuel.
      rewrite null_cursor;
        [rewrite <- app_assoc; reflexivity
        |apply noDigitNext_app; [exact Hn | apply (noDigitNext_le 8 10); [lia | exact Hnl]]
        |eauto using copied_asciiHead
        |lia].
    + apply IH. exact Hr.
  - (* \1 .. \7 *)
    specialize (IH loop HL (done ++ ["\"%char; d]) l (es ++ [backreference [d]]) inv
                   (buf ++ ["\"%char; d]) s' Hl Hnl).
    rewrite <- !app_assoc in IH. cbn [app cursor]. cbn [app] in Hr, IH.
    apply (advance_escape loop HL done d (w ++ l) es inv buf
             (cursor (done ++ ["\"%char; d]) (w ++ l) (es ++ [backreference [d]]) inv
                     (buf ++ ["\"%char; d]))
             s' (S (S (List.length (w ++ l))))).
    + apply (isOctal_digit d Hd).
    + intros fuel Hfuel.
      rewrite backreference_cursor;
        [rewrite <- app_assoc; reflexivity
        |exact Hd | exact Hnz
        |apply noDigitNext_app; [exact Hn | apply (noDigitNext_le 8 10); [lia | exact Hnl]]
        |eauto using copied_asciiHead
        |lia].
    + apply IH. exact Hr.
  - (* \8..., \9... *)
    specialize (IH loop HL (done ++ "\"%char :: d :: ds) l
                   (es ++ [backreference (d :: ds)]) inv
                   (buf ++ "\"%char :: d :: ds) s' Hl Hnl).
    rewrite <- !app_assoc in IH. cbn [app] in Hr, IH. cbn [app cursor].
    rewrite <- app_assoc.
    apply (advance_escape loop HL done d (ds ++ w ++ l) es inv buf
             (cursor (done ++ "\"%char :: d :: ds) (w ++ l)
                     (es ++ [backreference (d :: ds)]) inv
                     (buf ++ "\"%char :: d :: ds))
             s' (S (S (List.length (ds ++ w ++ l))))).
    + destruct Hd as [-> | ->]; vm_compute; reflexivity.
    + intros fuel Hfuel.
      rewrite decimal_cursor;
        [rewrite <- app_assoc; reflexivity
        |exact Hd | exact Hds
        |apply noDigitNext_app; [exact Hn | exact Hnl]
        |eauto using copied_asciiHead
        |lia].
    + apply IH. exact Hr.
  - (* a group *)
    assert (Ha : asciiHead (w ++ l)) by (eauto using copied_asciiHead).
    specialize (IHw loop HL (done ++ "("%char :: g ++ [")"%char]) l
                    (es ++ lookaheadErrors g ++ eg) inv
                    (buf ++ "("%char :: g ++ [")"%char]) s' Hl Hnl).
    replace ((done ++ "("%char :: g ++ [")"%char]) ++ w)
      with (done ++ ("("%char :: g ++ ")"%char :: w)) in IHw
      by (rewrite <- !app_assoc; cbn [app]; rewrite <- !app_assoc; reflexivity).
    replace ((buf ++ "("%char :: g ++ [")"%char]) ++ w)
      with (buf ++ ("("%char :: g ++ ")"%char :: w)) in IHw
      by (rewrite <- !app_assoc; cbn [app]; rewrite <- !app_assoc; reflexivity).
    replace ((es ++ lookaheadErrors g ++ eg) ++ ew)
      with (es ++ lookaheadErrors g ++ eg ++ ew) in IHw
      by (rewrite <- !app_assoc; reflexivity).
    destruct (IHw Hr) as (f2 & Hf2).
    destruct (IHg (scanGroupLoop isIdentifierPart) itemLoop_scanGroupLoop
                  (done ++ ["("%char]) (")"%char :: w ++ l) (es ++ lookaheadErrors g)
                  inv (buf ++ ["("%char])
                  (cursor ((done ++ ["("%char]) ++ g) (")"%char :: w ++ l)
                          ((es ++ lookaheadErrors g) ++ eg) inv
                          ((buf ++ ["("%char]) ++ g)))
      as (f1 & Hf1).
    { apply asciiHead_cons. vm_compute. reflexivity. }
    { vm_compute. discriminate. }
    { exists 1%nat. reflexivity. }
    exists (S (Nat.max f1 f2)).
    replace (("("%char :: g ++ ")"%char :: w) ++ l)
      with ("("%char :: g ++ ")"%char :: w ++ l)
      by (cbn [app]; rewrite <- app_assoc; reflexivity).
    cbn [cursor].
    rewrite (loop_group loop HL)
      by (eapply copied_asciiHead; [exact Hg | apply asciiHead_cons; vm_compute; reflexivity]).
    unfold scanGroup, scanGroupWith.
    rewrite lookahead_group.
    rewrite (scanGroupLoop_mono _ _ _ _ Hf1 (Nat.le_max_l f1 f2)).
    unfold closeGroup. cbn [cursor]. rewrite cur_chr.
    change (negb (byteZ ")" =? rune ")")) with false. cbv iota.
    rewrite pass_cur by (auto; vm_compute; reflexivity).
    replace (((done ++ ["("%char]) ++ g) ++ [")"%char])
      with (done ++ "("%char :: g ++ [")"%char])
      by (rewrite <- !app_assoc; reflexivity).
    replace (((buf ++ ["("%char]) ++ g) ++ [")"%char])
      with (buf ++ "("%char :: g ++ [")"%char])
      by (rewrite <- !app_assoc; reflexivity).
    replace ((es ++ lookaheadErrors g) ++ eg)
      with (es ++ lookaheadErrors g ++ eg)
      by (rewrite <- !app_assoc; reflexivity).
    apply (loop_mono loop HL _ _ _ _ Hf2 (Nat.le_max_r f1 f2)).
  - (* a character class *)
    assert (Ha : asciiHead (w ++ l)) by (eauto using copied_asciiHead).
    specialize (IH loop HL (done ++ "["%char :: cls ++ ["]"%char]) l es inv
                   (buf ++ "["%char :: cls ++ ["]"%char]) s' Hl Hnl).
    replace ((done ++ "["%char :: cls ++ ["]"%char]) ++ w)
      with (done ++ ("["%char :: cls ++ "]"%char :: w)) in IH
      by (rewrite <- !app_assoc; cbn [app]; rewrite <- !app_assoc; reflexivity).
    replace ((buf ++ "["%char :: cls ++ ["]"%char]) ++ w)
      with (buf ++ ("["%char :: cls ++ "]"%char :: w)) in IH
      by (rewrite <- !app_assoc; cbn [app]; rewrite <- !app_assoc; reflexivity).
    destruct (IH Hr) as (f2 & Hf2).
    destruct (classBody_advance cls Hcls
                  (done ++ ["["%char]) ("]"%char :: w ++ l) es inv (buf ++ ["["%char])
                  (cursor ((done ++ ["["%char]) ++ cls) ("]"%char :: w ++ l) es inv
                          ((buf ++ ["["%char]) ++ cls)))
      as (f1 & Hf1).
    { apply asciiHead_cons. vm_compute. reflexivity. }
    { exists 1%nat. reflexivity. }
    exists (S (Nat.max f1 f2)).
    replace (("["%char :: cls ++ "]"%char :: w) ++ l)
      with ("["%char :: cls ++ "]"%char :: w ++ l)
      by (cbn [app]; rewrite <- app_assoc; reflexivity).
    cbn [cursor].
    rewrite (loop_bracket loop HL)
      by (apply classBody_asciiHead; [exact Hcls | apply asciiHead_cons; vm_compute; reflexivity]).
    unfold scanBracket.
    rewrite (scanBracketLoop_mono _ _ _ _ Hf1 (Nat.le_max_l f1 f2)).
    cbn [cursor]. rewrite cur_chr.
    change (negb (byteZ "]" =? rune "]")) with false. cbv iota.
    rewrite pass_cur by (auto; vm_compute; reflexivity).
    replace (((done ++ ["["%char]) ++ cls) ++ ["]"%char])
      with (done ++ "["%char :: cls ++ ["]"%char])
      by (rewrite <- !app_assoc; reflexivity).
    replace (((buf ++ ["["%char]) ++ cls) ++ ["]"%char])
      with (buf ++ "["%char :: cls ++ ["]"%char])
      by (rewrite <- !app_assoc; reflexivity).
    apply (loop_mono loop HL _ _ _ _ Hf2 (Nat.le_max_r f1 f2)).
Qed.

(** X11. A pattern made of ordinary ASCII characters, the escapes
    [\B \d \D \s \S \w \W \\ \f \n \r \t \v] and [\0], backreferences,
    character classes and properly nested groups, lookahead groups
    included, is returned as it stands.  The error returned with it is
    the first lookahead or backreference error in the order of the
    pattern, and nil when the pattern has neither. *)
Theorem TransformRegExp_copied w es :
  copied w es -> TransformRegExp isIdentifierPart w = Some (w, hd_error es).
Proof.
  intros Hv.
  destruct (copied_advance w es Hv (scan isIdentifierPart) itemLoop_scan
              [] [] [] false [] (cursor w [] es false w) I I)
    as (f & Hf).
  { exists 1%nat. reflexivity. }
  rewrite app_nil_r in Hf.
  rewrite <- firstRead_cursor in Hf
    by (rewrite <- (app_nil_r w); eapply copied_asciiHead; [exact Hv | exact I]).
  destruct (scanned_ok w) as (s & Hs & _).
  assert (E : s = cursor w [] es false w).
  { unfold scanned in Hs.
    pose proof (scan_mono _ _ _ _ Hs (Nat.le_max_l (S (List.length w)) f)) as H1.
    pose proof (scan_mono _ _ _ _ Hf (Nat.le_max_r (S (List.length w)) f)) as H2.
    congruence. }
  subst s.
  destruct w as [|b t].
  - inversion Hv. reflexivity.
  - assert (Hne : b :: t <> []) by discriminate.
    rewrite (TransformRegExp_scanned _ _ Hne Hs). reflexivity.
Qed.

(** *** Patterns without special characters, in any encoding *)

(** The parser after a [read] that fetched the character at the head of
    [rest], [done] being the input before it. *)
Definition landing (done rest : gostring)
           (es : list error) (inv : bool) (buf : gostring) : _RegExp_parser :=
  read (mkParser (done ++ rest) (len (done ++ rest)) 0 0 (len done) es inv buf).

Lemma Decode_ascii b t :
  byteZ b < 128 -> utf8.DecodeRuneInString (b :: t) = (byteZ b, 1).
Proof.
  intros H. unfold utf8.DecodeRuneInString, utf8.first.
  replace (byteZ b <? 128) with true by (symmetry; apply Z.ltb_lt; lia).
  reflexivity.
Qed.

Lemma landing_nil done es inv buf :
  landing done [] es inv buf = cursor done [] es inv buf.
Proof.
  unfold landing, read. cbn [str length chr chrOffset offset errors invalid buffer].
  rewrite app_nil_r, Z.ltb_irrefl. reflexivity.
Qed.

Lemma landing_cons done b t es inv buf :
  landing done (b :: t) es inv buf
  = mkParser (done ++ b :: t) (len (done ++ b :: t))
             (fst (utf8.DecodeRuneInString (b :: t))) (len done)
             (len done + snd (utf8.DecodeRuneInString (b :: t)))
             (es ++ followError (b :: t)) inv buf.
Proof.
  unfold landing, read. cbn [str length chr chrOffset offset errors invalid buffer].
  rewrite len_app, len_cons. pose proof (len_nonneg t).
  replace (len done <? len done + (1 + len t)) with true
    by (symmetry; apply Z.ltb_lt; lia).
  rewrite byteAt_app, skipn_len_app. unfold followError.
  destruct (byteZ b >=? utf8.RuneSelf) eqn:E.
  - destruct (utf8.DecodeRuneInString (b :: t)) as [r w].
    destruct ((r =? utf8.RuneError) && (w =? 1));
      cbn [fst snd error_ str length chr chrOffset offset errors invalid buffer];
      rewrite ?app_nil_r; reflexivity.
  - rewrite Z.geb_leb in E. apply Z.leb_gt in E. unfold utf8.RuneSelf in E.
    rewrite Decode_ascii by exact E. cbn [fst snd]. rewrite app_nil_r. reflexivity.
Qed.

Lemma firstRead_landing pattern :
  read (newParser pattern) = landing [] pattern [] false [].
Proof. reflexivity. Qed.

Lemma read_ext s1 s2 :
  str s1 = str s2 -> length s1 = length s2 -> offset s1 = offset s2 ->
  errors s1 = errors s2 -> invalid s1 = invalid s2 -> buffer s1 = buffer s2 ->
  read s1 = read s2.
Proof.
  destruct s1, s2. cbn [str length offset errors invalid buffer].
  intros; subst. unfold read.
  cbn [str length chr chrOffset offset errors invalid buffer].
  destruct (_ <? _); [|reflexivity].
  destruct (_ >=? _); [|reflexivity].
  destruct (utf8.DecodeRuneInString _) as [c w].
  destruct ((c =? utf8.RuneError) && (w =? 1)); reflexivity.
Qed.

(** [pass] on any character: its encoding is written and the next one
    fetched. *)
Lemma pass_landing done b t es inv buf :
  let r := fst (utf8.DecodeRuneInString (b :: t)) in
  let w := Z.to_nat (snd (utf8.DecodeRuneInString (b :: t))) in
  pass (landing done (b :: t) es inv buf)
  = landing (done ++ firstn w (b :: t)) (skipn w (b :: t))
            (es ++ followError (b :: t)) inv (buf ++ utf8.EncodeRune r).
Proof.
  intros r w. rewrite landing_cons. fold r.
  destruct (DecodeRuneInString_width (b :: t) ltac:(discriminate)) as (Hw & Hr).
  fold r in Hr. unfold pass. cbn [chr].
  replace (r =? EOF) with false by (symmetry; apply Z.eqb_neq; unfold EOF; lia).
  unfold landing. apply read_ext;
    cbn [writeRune write str length chr chrOffset offset errors invalid buffer];
    rewrite <- ?app_assoc, ?firstn_skipn; try reflexivity.
  rewrite len_app. unfold len at 3. rewrite length_firstn.
  unfold w, len in *. lia.
Qed.

(** [string([]rune(s))]: every character re-encoded, a byte that belongs
    to no valid encoding giving U+FFFD.  [inside] counts the bytes of the
    current character still to be stepped over. *)
Fixpoint restring (rest : gostring) (inside : nat) : gostring :=
  match rest with
  | [] => []
  | _ :: rest' =>
    match inside with
    | S inside' => restring rest' inside'
    | O =>
      let '(r, w) := utf8.DecodeRuneInString rest in
      utf8.EncodeRune r ++ restring rest' (Z.to_nat w - 1)
    end
  end.

(** One [RuneError] for every byte that belongs to no valid encoding. *)
Fixpoint runeErrors (rest : gostring) (inside : nat) : list error :=
  match rest with
  | [] => []
  | _ :: rest' =>
    match inside with
    | S inside' => runeErrors rest' inside'
    | O =>
      followError rest
      ++ runeErrors rest' (Z.to_nat (snd (utf8.DecodeRuneInString rest)) - 1)
    end
  end.

(** [utf8.ValidString]: no character decodes to the error rune of width
    one. *)
Fixpoint validString (rest : gostring) (inside : nat) : bool :=
  match rest with
  | [] => true
  | _ :: rest' =>
    match inside with
    | S inside' => validString rest' inside'
    | O =>
      let '(r, w) := utf8.DecodeRuneInString rest in
      negb ((r =? utf8.RuneError) && (w =? 1))
      && validString rest' (Z.to_nat w - 1)
    end
  end.

Lemma restring_skip rest : forall k,
  (k <= List.length rest)%nat -> restring rest k = restring (skipn k rest) 0.
Proof.
  induction rest as [|b t IH]; intros k Hk.
  - destruct k; reflexivity.
  - destruct k as [|k]; [reflexivity|]. cbn [restring skipn].
    apply IH. simpl in Hk. lia.
Qed.

Lemma runeErrors_skip rest : forall k,
  (k <= List.length rest)%nat -> runeErrors rest k = runeErrors (skipn k rest) 0.
Proof.
  induction rest as [|b t IH]; intros k Hk.
  - destruct k; reflexivity.
  - destruct k as [|k]; [reflexivity|]. cbn [runeErrors skipn].
    apply IH. simpl in Hk. lia.
Qed.

Lemma validString_skip rest : forall k,
  (k <= List.length rest)%nat -> validString rest k = validString (skipn k rest) 0.
Proof.
  induction rest as [|b t IH]; intros k Hk.
  - destruct k; reflexivity.
  - destruct k as [|k]; [reflexivity|]. cbn [validString skipn].
    apply IH. simpl in Hk. lia.
Qed.

Lemma restring_cons b t :
  let r := fst (utf8.DecodeRuneInString (b :: t)) in
  let w := Z.to_nat (snd (utf8.DecodeRuneInString (b :: t))) in
  restring (b :: t) 0 = utf8.EncodeRune r ++ restring (skipn w (b :: t)) 0.
Proof.
  intros r w. unfold r, w.
  destruct (DecodeRuneInString_width (b :: t) ltac:(discriminate)) as (Hw & _).
  cbn [restring]. destruct (utf8.DecodeRuneInString (b :: t)) as [r0 w0].
  cbn [fst snd] in *. f_equal. rewrite len_cons in Hw. unfold len in Hw.
  destruct (Z.to_nat w0) as [|k] eqn:E; [lia|]. cbn [skipn].
  replace (S k - 1)%nat with k by lia. apply restring_skip. lia.
Qed.

Lemma runeErrors_cons b t :
  let w := Z.to_nat (snd (utf8.DecodeRuneInString (b :: t))) in
  runeErrors (b :: t) 0 = followError (b :: t) ++ runeErrors (skipn w (b :: t)) 0.
Proof.
  intros w. unfold w.
  destruct (DecodeRuneInString_width (b :: t) ltac:(discriminate)) as (Hw & _).
  cbn [runeErrors]. f_equal. rewrite len_cons in Hw. unfold len in Hw.
  destruct (Z.to_nat (snd (utf8.DecodeRuneInString (b :: t)))) as [|k] eqn:E; [lia|].
  cbn [skipn]. replace (S k - 1)%nat with k by lia. apply runeErrors_skip. lia.
Qed.

(** A pattern without the bytes [\ ( [ )]. *)
Definition noSpecial (l : gostring) : Prop :=
  forall c, In c l ->
            c <> "\"%char /\ c <> "("%char /\ c <> "["%char /\ c <> ")"%char.

Lemma scan_pass fuel s :
  chr s <> EOF -> chr s <> rune "\" -> chr s <> rune "(" -> chr s <> rune "[" ->
  chr s <> rune ")" ->
  scan isIdentifierPart (S fuel) s = scan isIdentifierPart fuel (pass s).
Proof.
  intros N0 N1 N2 N3 N4. apply Z.eqb_neq in N0, N1, N2, N3, N4.
  cbn [scan]. rewrite N0, N1, N2, N3, N4. reflexivity.
Qed.

Lemma scan_landing n : forall rest done es inv buf,
  (List.length rest <= n)%nat -> noSpecial rest ->
  scan isIdentifierPart (S n) (landing done rest es inv buf)
  = Some (landing (done ++ rest) [] (es ++ runeErrors rest 0) inv
                  (buf ++ restring rest 0)).
Proof.
  induction n as [|n IH]; intros rest done es inv buf Hl Hn.
  - destruct rest; [|simpl in Hl; lia].
    rewrite !landing_nil. cbn [runeErrors restring]. rewrite !app_nil_r. reflexivity.
  - destruct rest as [|b t].
    { rewrite !landing_nil. cbn [runeErrors restring]. rewrite !app_nil_r. reflexivity. }
    destruct (DecodeRuneInString_width (b :: t) ltac:(discriminate)) as (Hw & Hr).
    assert (Hchr : chr (landing done (b :: t) es inv buf)
                   = fst (utf8.DecodeRuneInString (b :: t)))
      by (rewrite landing_cons; reflexivity).
    assert (Hns : let c := chr (landing done (b :: t) es inv buf) in
                  c <> EOF /\ c <> rune "\" /\ c <> rune "(" /\ c <> rune "["
                  /\ c <> rune ")").
    { cbv zeta. rewrite Hchr. unfold rune.
      change (byteZ "\") with 92. change (byteZ "(") with 40.
      change (byteZ "[") with 91. change (byteZ ")") with 41.
      destruct (Z.lt_ge_cases (byteZ b) 128) as [E | E].
      - rewrite Decode_ascii by exact E. cbn [fst].
        destruct (Hn b (or_introl eq_refl)) as (N1 & N2 & N3 & N4).
        pose proof (byteZ_range b). unfold EOF.
        repeat split; try lia; intros E'.
        + apply N1, byteZ_inj. exact E'.
        + apply N2, byteZ_inj. exact E'.
        + apply N3, byteZ_inj. exact E'.
        + apply N4, byteZ_inj. exact E'.
      - pose proof (DecodeRuneInString_nonascii (b :: t) ltac:(discriminate) E).
        unfold EOF. lia. }
    cbv zeta in Hns. destruct Hns as (N0 & N1 & N2 & N3 & N4).
    rewrite scan_pass by assumption.
    rewrite pass_landing.
    set (w := Z.to_nat (snd (utf8.DecodeRuneInString (b :: t)))).
    rewrite IH.
    + rewrite <- !app_assoc, firstn_skipn.
      rewrite (restring_cons b t), (runeErrors_cons b t). reflexivity.
    + rewrite length_skipn. simpl in Hl. cbn [List.length]. unfold w. lia.
    + intros c Hc. apply Hn. rewrite <- (firstn_skipn w (b :: t)).
      apply in_or_app. right. exact Hc.
Qed.

(** *** Encoding a decoded character gives its bytes back *)

Lemma lor_t2 y : 0 <= y < 32 -> Z.lor utf8.t2 y = 192 + y.
Proof.
  intros H. change utf8.t2 with (Z.shiftl 3 6).
  rewrite lor_shiftl_low; lia.
Qed.

Lemma lor_tx y : 0 <= y < 64 -> Z.lor utf8.tx y = 128 + y.
Proof.
  intros H. change utf8.tx with (Z.shiftl 2 6).
  rewrite lor_shiftl_low; lia.
Qed.

Lemma lor_t3 y : 0 <= y < 16 -> Z.lor utf8.t3 y = 224 + y.
Proof.
  intros H. change utf8.t3 with (Z.shiftl 14 4).
  rewrite lor_shiftl_low; lia.
Qed.

Lemma lor_t4 y : 0 <= y < 8 -> Z.lor utf8.t4 y = 240 + y.
Proof.
  intros H. change utf8.t4 with (Z.shiftl 30 3).
  rewrite lor_shiftl_low; lia.
Qed.

Lemma land_maskx a : Z.land a utf8.maskx = a mod 64.
Proof. change utf8.maskx with (2 ^ 6 - 1). rewrite land_low_mask by lia. reflexivity. Qed.

Lemma byte_of_Z_eq z c : z = byteZ c -> byte_of_Z z = c.
Proof. intros ->. apply byte_of_byteZ. Qed.

Lemma EncodeRune_Decode l :
  l <> [] ->
  ~ (fst (utf8.DecodeRuneInString l) = utf8.RuneError
     /\ snd (utf8.DecodeRuneInString l) = 1) ->
  utf8.EncodeRune (fst (utf8.DecodeRuneInString l))
  = firstn (Z.to_nat (snd (utf8.DecodeRuneInString l))) l.
Proof.
  intros Hl Hv. pose proof (DecodeRuneInString_decoded l Hl) as H.
  destruct (utf8.DecodeRuneInString l) as [r w]. cbn [fst snd] in *.
  inversion H; subst; clear H.
  - (* one byte *)
    destruct l as [|x0 t]; [congruence|].
    unfold byteAt in *. change (Z.to_nat 0) with 0%nat in *. cbn [nth] in *.
    rewrite EncodeRune_ascii by assumption. reflexivity.
  - exfalso. apply Hv. auto.
  - (* two bytes *)
    destruct l as [|x0 [|x1 t]];
      try (rewrite ?len_cons in *; change (len (@nil ascii)) with 0 in *; lia).
    unfold byteAt in *.
    change (Z.to_nat 0) with 0%nat in *. change (Z.to_nat 1) with 1%nat in *.
    cbn [nth] in *.
    pose proof (byteZ_range x0). pose proof (byteZ_range x1).
    set (r := byteZ x0 mod 32 * 64 + byteZ x1 mod 64).
    assert (Hr : 128 <= r <= 2047) by (unfold r; Z.div_mod_to_equations; lia).
    unfold utf8.EncodeRune, utf8.rune1Max, utf8.rune2Max.
    replace ((0 <=? r) && (r <=? 127)) with false
      by (symmetry; rewrite andb_false_iff, Z.leb_gt; lia).
    replace ((0 <=? r) && (r <=? 2047)) with true
      by (symmetry; rewrite andb_true_iff, !Z.leb_le; lia).
    rewrite land_maskx, Z.shiftr_div_pow2 by lia.
    rewrite lor_t2, lor_tx by (Z.div_mod_to_equations; lia).
    change (Z.to_nat 2) with 2%nat. cbn [firstn].
    f_equal; [|f_equal]; apply byte_of_Z_eq; unfold r; Z.div_mod_to_equations; lia.
  - (* three bytes *)
    destruct l as [|x0 [|x1 [|x2 t]]];
      try (rewrite ?len_cons in *; change (len (@nil ascii)) with 0 in *; lia).
    unfold byteAt in *.
    change (Z.to_nat 0) with 0%nat in *. change (Z.to_nat 1) with 1%nat in *.
    change (Z.to_nat 2) with 2%nat in *.
    cbn [nth] in *.
    pose proof (byteZ_range x0). pose proof (byteZ_range x1).
    pose proof (byteZ_range x2).
    set (r := (byteZ x0 mod 16 * 64 + byteZ x1 mod 64) * 64 + byteZ x2 mod 64).
    assert (Hr : 2048 <= r <= 65535 /\ ~ (55296 <= r <= 57343)).
    { unfold r. Z.div_mod_to_equations. lia. }
    unfold utf8.EncodeRune, utf8.rune1Max, utf8.rune2Max, utf8.rune3Max,
      utf8.MaxRune, utf8.surrogateMin, utf8.surrogateMax.
    replace ((0 <=? r) && (r <=? 127)) with false
      by (symmetry; rewrite andb_false_iff, Z.leb_gt; lia).
    replace ((0 <=? r) && (r <=? 2047)) with false
      by (symmetry; rewrite andb_false_iff, Z.leb_gt; lia).
    replace ((r <? 0) || (1114111 <? r) || ((55296 <=? r) && (r <=? 57343)))
      with false
      by (symmetry; rewrite !orb_false_iff, andb_false_iff, !Z.ltb_ge, !Z.leb_gt; lia).
    replace (r <=? 65535) with true by (symmetry; apply Z.leb_le; lia).
    unfold utf8.encode3.
    rewrite !land_maskx, !Z.shiftr_div_pow2 by lia.
    rewrite lor_t3, !lor_tx by (Z.div_mod_to_equations; lia).
    change (Z.to_nat 3) with 3%nat. cbn [firstn].
    f_equal; [|f_equal; [|f_equal]]; apply byte_of_Z_eq; unfold r;
      Z.div_mod_to_equations; lia.
  - (* four bytes *)
    destruct l as [|x0 [|x1 [|x2 [|x3 t]]]];
      try (rewrite ?len_cons in *; change (len (@nil ascii)) with 0 in *; lia).
    unfold byteAt in *.
    change (Z.to_nat 0) with 0%nat in *. change (Z.to_nat 1) with 1%nat in *.
    change (Z.to_nat 2) with 2%nat in *. change (Z.to_nat 3) with 3%nat in *.
    cbn [nth] in *.
    pose proof (byteZ_range x0). pose proof (byteZ_range x1).
    pose proof (byteZ_range x2). pose proof (byteZ_range x3).
    set (r := ((byteZ x0 mod 8 * 64 + byteZ x1 mod 64) * 64 + byteZ x2 mod 64) * 64
              + byteZ x3 mod 64).
    assert (Hr : 65536 <= r <= 1114111).
    { unfold r. Z.div_mod_to_equations. lia. }
    unfold utf8.EncodeRune, utf8.rune1Max, utf8.rune2Max, utf8.rune3Max,
      utf8.MaxRune, utf8.surrogateMin, utf8.surrogateMax.
    replace ((0 <=? r) && (r <=? 127)) with false
      by (symmetry; rewrite andb_false_iff, Z.leb_gt; lia).
    replace ((0 <=? r) && (r <=? 2047)) with false
      by (symmetry; rewrite andb_false_iff, Z.leb_gt; lia).
    replace ((r <? 0) || (1114111 <? r) || ((55296 <=? r) && (r <=? 57343)))
      with false
      by (symmetry; rewrite !orb_false_iff, andb_false_iff, !Z.ltb_ge, !Z.leb_gt; lia).
    replace (r <=? 65535) with false by (symmetry; apply Z.leb_gt; lia).
    rewrite !land_maskx, !Z.shiftr_div_pow2 by lia.
    rewrite lor_t4, !lor_tx by (Z.div_mod_to_equations; lia).
    change (Z.to_nat 4) with 4%nat. cbn [firstn].
    f_equal; [|f_equal; [|f_equal; [|f_equal]]]; apply byte_of_Z_eq; unfold r;
      Z.div_mod_to_equations; lia.
Qed.

Lemma restring_valid n : forall rest,
  (List.length rest <= n)%nat -> validString rest 0 = true ->
  restring rest 0 = rest /\ runeErrors rest 0 = [].
Proof.
  induction n as [|n IH]; intros rest Hl Hv.
  - destruct rest; [auto | simpl in Hl; lia].
  - destruct rest as [|b t]; [auto|].
    destruct (DecodeRuneInString_width (b :: t) ltac:(discriminate)) as (Hw & _).
    rewrite len_cons in Hw. unfold len in Hw.
    pose proof (EncodeRune_Decode (b :: t) ltac:(discriminate)) as Hrt.
    rewrite restring_cons, runeErrors_cons.
    cbn [validString] in Hv. unfold followError.
    destruct (utf8.DecodeRuneInString (b :: t)) as [r w] eqn:Ed.
    cbn [fst snd] in *.
    apply andb_true_iff in Hv. destruct Hv as [Hv1 Hv2].
    rewrite validString_skip in Hv2 by lia.
    assert (Hnot : (r =? utf8.RuneError) && (w =? 1) = false)
      by (destruct ((r =? utf8.RuneError) && (w =? 1)); [discriminate | reflexivity]).
    rewrite Hnot.
    destruct (IH (skipn (Z.to_nat w) (b :: t))) as (E1 & E2).
    + rewrite length_skipn. simpl in Hl. cbn [List.length]. lia.
    + replace (Z.to_nat w) with (S (Z.to_nat w - 1)) by lia. exact Hv2.
    + rewrite E1, E2, Hrt.
      * rewrite firstn_skipn. destruct (byteZ b >=? utf8.RuneSelf); auto.
      * intros [-> ->]. discriminate.
Qed.

Lemma runeErrors_all rest : forall k e,
  In e (runeErrors rest k) -> e = msg_RuneError.
Proof.
  induction rest as [|b t IH]; intros k e Hin; [destruct k; contradiction|].
  destruct k as [|k]; cbn [runeErrors] in Hin; [|eauto].
  apply in_app_or in Hin. destruct Hin as [Hin | Hin]; [|eauto].
  unfold followError in Hin.
  destruct (byteZ b >=? utf8.RuneSelf); [|contradiction].
  destruct (utf8.DecodeRuneInString (b :: t)) as [r w].
  destruct ((r =? utf8.RuneError) && (w =? 1)); [|contradiction].
  destruct Hin as [<- | []]. reflexivity.
Qed.

(** X12. On a pattern without the bytes [\ ( [ )], in any encoding,
    [TransformRegExp] returns [string([]rune(pattern))]: every character
    is written back in UTF-8 and every byte that belongs to no valid
    encoding is replaced by U+FFFD; one [RuneError] is logged for each
    such byte and the pattern is not invalid.  Valid UTF-8 is returned
    unchanged with a nil error. *)
Theorem TransformRegExp_text pattern :
  noSpecial pattern ->
  TransformRegExp isIdentifierPart pattern
  = Some (restring pattern 0, hd_error (runeErrors pattern 0))
  /\ (forall e, In e (runeErrors pattern 0) -> e = msg_RuneError)
  /\ (validString pattern 0 = true ->
      TransformRegExp isIdentifierPart pattern = Some (pattern, None)).
Proof.
  intros Hn.
  assert (Hrun : TransformRegExp isIdentifierPart pattern
                 = Some (restring pattern 0, hd_error (runeErrors pattern 0))).
  { destruct pattern as [|b t]; [reflexivity|].
    assert (Hs : scanned (b :: t)
                         (landing (b :: t) [] (runeErrors (b :: t) 0) false
                                  (restring (b :: t) 0))).
    { unfold scanned. rewrite firstRead_landing.
      rewrite scan_landing by (auto; lia). reflexivity. }
    assert (Hne : b :: t <> []) by discriminate.
    rewrite (TransformRegExp_scanned _ _ Hne Hs), landing_nil. reflexivity. }
  split; [exact Hrun|]. split; [apply runeErrors_all|].
  intros Hv. rewrite Hrun.
  destruct (restring_valid (List.length pattern) pattern (Nat.le_refl _) Hv) as (-> & ->).
  reflexivity.
Qed.

(** *** The size of the output *)

(** The encoding of the current character is at most three times as long
    as the character is in the input. *)
Definition encFits (s : _RegExp_parser) : Prop :=
  chr s <> EOF -> len (utf8.EncodeRune (chr s)) <= 3 * (offset s - chrOffset s).

Lemma read_encFits s : readable s -> encFits (read s).
Proof.
  intros [Hl Ho]. unfold encFits, read.
  destruct (Z.ltb_spec (offset s) (length s)) as [E | E];
    [|cbn [chr]; congruence].
  destruct (byteAt (str s) (offset s) >=? utf8.RuneSelf) eqn:E1.
  - set (l := skipn (Z.to_nat (offset s)) (str s)).
    assert (Hne : l <> []) by (apply skipn_nonempty; lia).
    pose proof (DecodeRuneInString_width l Hne) as (Hw & _).
    pose proof (EncodeRune_Decode l Hne) as Hrt.
    destruct (utf8.DecodeRuneInString l) as [c w]. cbn [fst snd] in *.
    intros _. cbn [chr chrOffset offset].
    destruct ((c =? utf8.RuneError) && (w =? 1)) eqn:Ec.
    + apply andb_true_iff in Ec. destruct Ec as [Ec Ew].
      apply Z.eqb_eq in Ec, Ew. subst.
      change (len (utf8.EncodeRune utf8.RuneError)) with 3. lia.
    + rewrite Hrt.
      * unfold len at 1. rewrite length_firstn. lia.
      * intros [-> ->]. discriminate.
  - intros _. cbn [chr chrOffset offset].
    rewrite Z.geb_leb in E1. apply Z.leb_gt in E1. unfold utf8.RuneSelf in E1.
    unfold byteAt in *. rewrite EncodeRune_ascii by exact E1.
    change (len [nth (Z.to_nat (offset s)) (str s) zero]) with 1. lia.
Qed.

Lemma read_chrOffset_ge s : readable s -> offset s <= chrOffset (read s).
Proof.
  intros [Hl Ho]. unfold read.
  destruct (Z.ltb_spec (offset s) (length s)) as [E | E]; [|cbn [chrOffset]; lia].
  destruct (byteAt (str s) (offset s) >=? utf8.RuneSelf); [|cbn [chrOffset]; lia].
  destruct (utf8.DecodeRuneInString _) as [c w]. cbn [chrOffset]. lia.
Qed.

(** From [s] to [s'] the output grew by at most three bytes for every
    byte of input the parser moved over, and [k] more. *)
Definition grows (k : Z) (s s' : _RegExp_parser) : Prop :=
  wf s' /\ encFits s' /\ length s' = length s /\ chrOffset s <= chrOffset s' /\
  len (buffer s') - len (buffer s) <= 3 * (chrOffset s' - chrOffset s) + k.

Lemma grows_refl s : wf s -> encFits s -> grows 0 s s.
Proof.
  intros H He. unfold grows. split; [exact H|]. split; [exact He|].
  split; [reflexivity|]. split; lia.
Qed.

Lemma grows_trans k1 k2 s1 s2 s3 :
  grows k1 s1 s2 -> grows k2 s2 s3 -> grows (k1 + k2) s1 s3.
Proof.
  intros (_ & _ & Hl1 & Hc1 & Hb1) (Hw & He & Hl2 & Hc2 & Hb2).
  unfold grows. split; [exact Hw|]. split; [exact He|].
  split; [congruence|]. split; lia.
Qed.

Lemma grows_weaken k k' s s' : k <= k' -> grows k s s' -> grows k' s s'.
Proof.
  intros Hk (Hw & He & Hl & Hc & Hb). unfold grows.
  split; [exact Hw|]. split; [exact He|]. split; [exact Hl|]. split; lia.
Qed.

Lemma grows_wf k s s' : grows k s s' -> wf s' /\ encFits s'.
Proof. intros (Hw & He & _). auto. Qed.

Lemma grows_read s : wf s -> grows 0 s (read s).
Proof.
  intros H. destruct (read_fields s) as (_ & Hl & _ & Hb).
  unfold grows. split; [apply read_wf, wf_readable, H|].
  split; [apply read_encFits, wf_readable, H|].
  split; [exact Hl|]. pose proof (read_chrOffset_le s H).
  split; [lia|]. rewrite Hb. lia.
Qed.

Lemma grows_read_strict s : wf s -> chr s <> EOF -> grows (-3) s (read s).
Proof.
  intros H Hc. destruct (grows_read s H) as (Hw & He & Hl & _ & _).
  destruct (read_fields s) as (_ & _ & _ & Hb).
  pose proof (read_chrOffset s H Hc).
  unfold grows. split; [exact Hw|]. split; [exact He|]. split; [exact Hl|].
  split; [lia|]. rewrite Hb. lia.
Qed.

Lemma grows_write bs s : wf s -> encFits s -> grows (len bs) s (write bs s).
Proof.
  intros H He. unfold grows. split; [exact H|]. split; [exact He|].
  cbn [write length chrOffset buffer]. rewrite len_app.
  split; [reflexivity|]. split; lia.
Qed.

Lemma grows_error e s : wf s -> encFits s -> grows 0 s (error_ e s).
Proof.
  intros H He. unfold grows. split; [exact H|]. split; [exact He|].
  cbn [error_ length chrOffset buffer]. split; [reflexivity|]. split; lia.
Qed.

Lemma grows_setInvalid s : wf s -> encFits s -> grows 0 s (setInvalid s).
Proof.
  intros H He. unfold grows. split; [exact H|]. split; [exact He|].
  cbn [setInvalid length chrOffset buffer]. split; [reflexivity|]. split; lia.
Qed.

Lemma grows_pass s : wf s -> encFits s -> grows 0 s (pass s).
Proof.
  intros H He. unfold pass. destruct (Z.eqb_spec (chr s) EOF) as [E | E].
  - apply grows_read. exact H.
  - specialize (He E).
    set (s1 := writeRune (chr s) s).
    assert (H1 : wf s1) by exact H.
    destruct (read_fields s1) as (_ & Hl & _ & Hb).
    pose proof (read_chrOffset_ge s1 (wf_readable _ H1)) as Hge.
    pose proof (read_chrOffset_le s1 H1) as Hle.
    unfold grows. split; [apply read_wf, wf_readable, H1|].
    split; [apply read_encFits, wf_readable, H1|].
    split; [exact Hl|]. split; [exact Hle|].
    rewrite Hb. unfold s1 in *. cbn [writeRune write buffer offset chrOffset] in *.
    rewrite len_app. lia.
Qed.

Lemma caseOf_byte c l : caseOf c l = true -> exists x, In x l /\ c = byteZ x.
Proof.
  unfold caseOf. rewrite existsb_exists. intros (x & Hin & E).
  apply Z.eqb_eq in E. eauto.
Qed.

Lemma caseOf_not_EOF c l : caseOf c l = true -> c <> EOF.
Proof.
  intros H E. subst. rewrite caseOf_EOF in H. discriminate.
Qed.

Lemma slice_len l lo hi raw : slice l lo hi = Some raw -> len raw = hi - lo.
Proof.
  unfold slice. destruct ((0 <=? lo) && (lo <=? hi) && (hi <=? len l)) eqn:E;
    [|discriminate].
  rewrite !andb_true_iff, !Z.leb_le in E. intros H. inversion H; subst.
  unfold len in *. rewrite length_firstn, length_skipn. lia.
Qed.

(** The length of a number in hexadecimal. *)
Lemma formatBits_length n : forall u acc (m : nat),
  0 <= u < 16 ^ Z.of_nat m -> (1 <= m <= n)%nat ->
  (List.length (strconv.formatBits n u 16 acc) <= m + List.length acc)%nat.
Proof.
  induction n as [|n IH]; intros u acc m Hu Hm; [lia|].
  cbn [strconv.formatBits].
  destruct (Z.ltb_spec u 16) as [E | E]; [cbn [List.length]; lia|].
  destruct m as [|[|m]]; [lia | simpl in Hu; lia |].
  assert (Hd : 0 <= u / 16 < 16 ^ Z.of_nat (S m)).
  { replace (Z.of_nat (S (S m))) with (Z.of_nat (S m) + 1) in Hu by lia.
    rewrite Z.pow_add_r in Hu by lia. change (16 ^ 1) with 16 in Hu.
    split; [apply Z.div_pos; lia|].
    apply Z.div_lt_upper_bound; lia. }
  specialize (IH (u / 16) (strconv.digit (u mod 16) :: acc) (S m) Hd ltac:(lia)).
  cbn [List.length] in IH. lia.
Qed.

Lemma FormatInt_length v :
  - 2 ^ 63 <= v < 2 ^ 63 -> len (strconv.FormatInt v 16) <= 17.
Proof.
  intros Hv. unfold strconv.FormatInt, len.
  destruct (Z.ltb_spec v 0).
  - pose proof (formatBits_length 64 (- v) [] 16
                  ltac:(change (16 ^ Z.of_nat 16) with (2 ^ 64); lia) ltac:(lia)).
    cbn [List.length] in *. lia.
  - pose proof (formatBits_length 64 v [] 16
                  ltac:(change (16 ^ Z.of_nat 16) with (2 ^ 64); lia) ltac:(lia)).
    cbn [List.length] in *. lia.
Qed.

Lemma FormatInt_length_small v :
  0 <= v < 2 ^ 16 -> len (strconv.FormatInt v 16) <= 4.
Proof.
  intros Hv. unfold strconv.FormatInt, len.
  replace (v <? 0) with false by (symmetry; apply Z.ltb_ge; lia).
  pose proof (formatBits_length 64 v [] 4
                ltac:(change (16 ^ Z.of_nat 4) with (2 ^ 16); lia) ltac:(lia)).
  cbn [List.length] in *. lia.
Qed.

Lemma hexEscape_length v n :
  2 <= n -> - 2 ^ 63 <= v < 2 ^ 63 -> (n <= 5 -> 0 <= v < 8 ^ n) ->
  len (hexEscape v) <= 3 * n + 3.
Proof.
  intros Hn Hv Hs. unfold hexEscape, strconv.AppendInt.
  assert (Hf : len (strconv.FormatInt v 16) <= 3 * n).
  { destruct (Z.le_gt_cases n 5) as [E | E].
    - specialize (Hs E).
      assert (H5 : 8 ^ n <= 8 ^ 5) by (apply Z.pow_le_mono_r; lia).
      change (8 ^ 5) with 32768 in H5.
      assert (Hv16 : 0 <= v < 2 ^ 16) by (change (2 ^ 16) with 65536; lia).
      pose proof (FormatInt_length_small v Hv16). lia.
    - pose proof (FormatInt_length v Hv). lia. }
  destruct (v >=? 16); rewrite len_app;
    [change (len (bytes "\x")) with 2 | change (len (bytes "\x0")) with 3]; lia.
Qed.

Lemma wrap64_range z : - 2 ^ 63 <= wrap64 z < 2 ^ 63.
Proof.
  unfold wrap64. pose proof (Z.mod_pos_bound (z + 2 ^ 63) (2 ^ 64) ltac:(lia)). lia.
Qed.

(** The value and the count of the octal digit loop. *)
Definition octalState (v n : Z) : Prop :=
  - 2 ^ 63 <= v < 2 ^ 63 /\ 0 <= n /\ (n <= 5 -> 0 <= v < 8 ^ n).

Lemma octalLoop_grows fuel : forall s v n s1 v1 n1,
  wf s -> encFits s -> octalState v n ->
  octalLoop fuel s v n = Some (s1, v1, n1) ->
  grows (-3 * (n1 - n)) s s1 /\ octalState v1 n1 /\ n <= n1.
Proof.
  induction fuel as [|fuel IH]; intros s v n s1 v1 n1 H He Hv Hl; [discriminate|].
  cbn [octalLoop] in Hl. rewrite Z.geb_leb in Hl.
  destruct (Z.leb_spec 8 (digitValue (chr s))) as [E | E].
  - inversion Hl; subst. split; [|split; [exact Hv | lia]].
    replace (-3 * (n1 - n1)) with 0 by lia. apply grows_refl; auto.
  - assert (Hc : chr s <> EOF) by (apply digit_not_EOF; lia).
    pose proof (grows_read_strict s H Hc) as Hr.
    destruct (grows_wf _ _ _ Hr) as (H1 & He1).
    pose proof (digitValue_range (chr s)) as Hd.
    assert (Hv' : octalState (wrap64 (v * 8 + digitValue (chr s))) (n + 1)).
    { destruct Hv as (Hv1 & Hn & Hs). split; [apply wrap64_range|].
      split; [lia|]. intros Hn5. specialize (Hs ltac:(lia)).
      assert (Hp : 8 ^ (n + 1) = 8 * 8 ^ n) by (rewrite Z.pow_add_r by lia; lia).
      assert (H5 : 8 ^ (n + 1) <= 8 ^ 5) by (apply Z.pow_le_mono_r; lia).
      change (8 ^ 5) with 32768 in H5.
      rewrite wrap64_small by (change (2 ^ 63) with 9223372036854775808; lia). lia. }
    destruct (IH _ _ _ _ _ _ H1 He1 Hv' Hl) as (Hg & Hv1 & Hn).
    split; [|split; [exact Hv1 | lia]].
    eapply grows_weaken; [|eapply grows_trans; [exact Hr | exact Hg]]. lia.
Qed.

Lemma decimalLoop_grows fuel : forall s s1,
  wf s -> encFits s -> decimalLoop fuel s = Some s1 ->
  grows 0 s s1 /\ buffer s1 = buffer s.
Proof.
  induction fuel as [|fuel IH]; intros s s1 H He Hl; [discriminate|].
  cbn [decimalLoop] in Hl. destruct (digitValue (chr s) >=? 10).
  - inversion Hl; subst. split; [apply grows_refl; auto | reflexivity].
  - pose proof (grows_read s H) as Hr.
    destruct (grows_wf _ _ _ Hr) as (H1 & He1).
    destruct (read_fields s) as (_ & _ & _ & Hb).
    destruct (IH _ _ H1 He1 Hl) as (Hg & Hb1).
    split; [|congruence].
    eapply grows_weaken; [|eapply grows_trans; [exact Hr | exact Hg]]. lia.
Qed.

Lemma hexLoop_grows n : forall s v s1 v1 ok,
  wf s -> encFits s -> hexLoop n 16 s v = (s1, v1, ok) ->
  grows 0 s s1 /\ buffer s1 = buffer s
  /\ (ok = true -> chrOffset s + Z.of_nat n <= chrOffset s1).
Proof.
  induction n as [|n IH]; intros s v s1 v1 ok H He Hl; cbn [hexLoop] in Hl.
  - inversion Hl; subst.
    split; [apply grows_refl; auto|]. split; [reflexivity | intros _; simpl; lia].
  - rewrite wrap32u_digitValue, Z.geb_leb in Hl.
    destruct (Z.leb_spec 16 (digitValue (chr s))) as [E | E].
    + inversion Hl; subst.
      split; [apply grows_refl; auto|]. split; [reflexivity | discriminate].
    + assert (Hc : chr s <> EOF) by (apply digit_not_EOF; lia).
      pose proof (grows_read s H) as Hr.
      destruct (grows_wf _ _ _ Hr) as (H1 & He1).
      destruct (read_fields s) as (_ & _ & _ & Hb).
      pose proof (read_chrOffset s H Hc) as Hs.
      destruct (IH _ _ _ _ _ H1 He1 Hl) as (Hg & Hb1 & Hok).
      split; [|split; [congruence|]].
      * eapply grows_weaken; [|eapply grows_trans; [exact Hr | exact Hg]]. lia.
      * intros Ht. specialize (Hok Ht). lia.
Qed.

Lemma skip_grows offset0 s s' :
  wf s -> encFits s -> offset0 <= chrOffset s ->
  skip offset0 s = Some s' ->
  wf s' /\ encFits s' /\ length s' = length s /\ chrOffset s' = chrOffset s /\
  len (buffer s') = len (buffer s) + (chrOffset s - offset0).
Proof.
  intros H He Ho Hs. unfold skip in Hs.
  destruct (slice (str s) offset0 (chrOffset s)) as [raw|] eqn:E; [|discriminate].
  inversion Hs; subst. apply slice_len in E.
  cbn [write length chrOffset buffer]. rewrite len_app.
  split; [exact H|]. split; [exact He|]. split; [reflexivity|].
  split; [reflexivity | lia].
Qed.

Lemma scanHex_grows offset0 n s s' :
  (n = 2 \/ n = 4)%nat -> wf s -> encFits s -> 0 <= offset0 < chrOffset s ->
  scanHex offset0 n 16 s = Some s' ->
  wf s' /\ encFits s' /\ length s' = length s /\ chrOffset s <= chrOffset s' /\
  len (buffer s') - len (buffer s) <= 3 * (chrOffset s' - offset0).
Proof.
  intros Hn H He Ho Hs. unfold scanHex in Hs.
  destruct (hexLoop n 16 s 0) as [[s1 v1] ok] eqn:El.
  destruct (hexLoop_grows _ _ _ _ _ _ H He El)
    as ((H1 & He1 & Hl1 & Hc1 & _) & Hb1 & Hok).
  destruct ok; cbn [negb] in Hs.
  - specialize (Hok eq_refl).
    destruct Hn as [-> | ->]; cbn [Nat.eqb] in Hs.
    + destruct (index _ _) as [b0|]; [|discriminate].
      destruct (index _ _) as [b1|]; [|discriminate].
      inversion Hs; subst. cbn [write length chrOffset buffer].
      rewrite len_app, Hb1. cbn [bytes list_ascii_of_string app].
      rewrite !len_cons. change (len (@nil ascii)) with 0.
      change (Z.of_nat 2) with 2 in Hok.
      split; [exact H1|]. split; [exact He1|]. split; [exact Hl1|]. split; lia.
    + destruct (index _ _) as [b0|]; [|discriminate].
      destruct (index _ _) as [b1|]; [|discriminate].
      destruct (index _ _) as [b2|]; [|discriminate].
      destruct (index _ _) as [b3|]; [|discriminate].
      inversion Hs; subst. cbn [write length chrOffset buffer].
      rewrite len_app, Hb1. cbn [bytes list_ascii_of_string app].
      rewrite !len_cons. change (len (@nil ascii)) with 0.
      change (Z.of_nat 4) with 4 in Hok.
      split; [exact H1|]. split; [exact He1|]. split; [exact Hl1|]. split; lia.
  - destruct (skip_grows offset0 s1 s' H1 He1 ltac:(lia) Hs)
      as (Hw & He' & Hl & Hc & Hb).
    split; [exact Hw|]. split; [exact He'|]. split; [congruence|].
    rewrite Hb, Hb1, Hc. split; lia.
Qed.

Lemma grows_step k1 k2 k s1 s2 s3 :
  grows k1 s1 s2 -> grows k2 s2 s3 -> k1 + k2 <= k -> grows k s1 s3.
Proof.
  intros H1 H2 Hk. eapply grows_weaken; [exact Hk|].
  eapply grows_trans; [exact H1 | exact H2].
Qed.

Ltac len_lia :=
  rewrite ?len_app; cbn [bytes list_ascii_of_string app];
  rewrite ?len_cons; change (len (@nil ascii)) with 0; lia.

Lemma octalLoop_size fuel : forall s v n s1 v1 n1,
  octalLoop fuel s v n = Some (s1, v1, n1) ->
  n <= n1 /\ (digitValue (chr s) < 8 -> n < n1).
Proof.
  induction fuel as [|fuel IH]; intros s v n s1 v1 n1 Hl; [discriminate|].
  cbn [octalLoop] in Hl. rewrite Z.geb_leb in Hl.
  destruct (Z.leb_spec 8 (digitValue (chr s))) as [E | E].
  - inversion Hl; subst. split; lia.
  - apply IH in Hl. destruct Hl as [Hl _]. split; lia.
Qed.

Lemma octal_digitValue c :
  caseOf c ["0"; "1"; "2"; "3"; "4"; "5"; "6"; "7"]%char = true ->
  digitValue c < 8.
Proof.
  intros H. apply caseOf_byte in H. destruct H as (x & Hin & ->).
  cbn [In] in Hin.
  repeat (destruct Hin as [<- | Hin]; [vm_compute; reflexivity|]).
  destruct Hin.
Qed.

Lemma scanHex_escape n s s' :
  (n = 2 \/ n = 4)%nat -> wf s -> chr s <> EOF ->
  scanHex (chrOffset s) n 16 (read s) = Some s' -> grows 3 s s'.
Proof.
  intros Hn H Hc Hs.
  pose proof (read_chrOffset s H Hc) as Ho.
  pose proof (wf_chrOffset s H) as H0.
  destruct (read_fields s) as (_ & Hl & _ & Hb).
  destruct (scanHex_grows (chrOffset s) n (read s) s' Hn
              (read_wf _ (wf_readable _ H)) (read_encFits _ (wf_readable _ H))
              ltac:(lia) Hs) as (Hw & He' & Hl' & Hc' & Hb').
  unfold grows. split; [exact Hw|]. split; [exact He'|].
  split; [congruence|]. rewrite Hb in Hb'. split; lia.
Qed.

Lemma control_length v : 1 <= v <= 26 -> len (hexEscape v) <= 9.
Proof.
  intros Hv. apply (hexEscape_length v 2); [lia | |].
  - change (2 ^ 63) with 9223372036854775808. lia.
  - intros _. change (8 ^ 2) with 64. lia.
Qed.

Ltac head_case Hs C :=
  match type of Hs with (if ?b then _ else _) = _ => destruct b eqn:C end.

(** An escape writes at most three bytes more than three times what it
    reads. *)
Lemma scanEscape_grows fuel inClass s s' :
  wf s -> encFits s ->
  scanEscape isIdentifierPart fuel inClass s = Some s' -> grows 3 s s'.
Proof.
  intros H He Hs. unfold scanEscape in Hs.
  head_case Hs C0.
  { destruct (octalLoop fuel s 0 0) as [[[s1 v] n]|] eqn:El; [|discriminate].
    assert (Hv0 : octalState 0 0).
    { unfold octalState. change (8 ^ 0) with 1.
      change (2 ^ 63) with 9223372036854775808. lia. }
    destruct (octalLoop_grows _ _ _ _ _ _ _ H He Hv0 El)
      as (Hg & (Hv & Hn0 & Hvs) & _).
    destruct (octalLoop_size _ _ _ _ _ _ _ El) as (_ & Hn).
    specialize (Hn (octal_digitValue _ C0)).
    destruct (grows_wf _ _ _ Hg) as (H1 & He1).
    destruct (Z.eqb_spec n 1) as [E | E].
    - set (s2 := write _ s1) in Hs.
      assert (Hw : grows 3 s s2).
      { unfold s2. eapply grows_step;
          [exact Hg | apply grows_write; [exact H1 | exact He1] |]. len_lia. }
      destruct (grows_wf _ _ _ Hw) as (H2 & He2).
      destruct (negb (v =? 0)); inversion Hs; subst.
      + eapply grows_step; [exact Hw | apply grows_error; [exact H2 | exact He2] |].
        lia.
      + exact Hw.
    - inversion Hs; subst.
      eapply grows_step; [exact Hg | apply grows_write; [exact H1 | exact He1] |].
      pose proof (hexEscape_length v n ltac:(lia) Hv Hvs). lia. }
  head_case Hs C1.
  { destruct (decimalLoop fuel s) as [s1|] eqn:El; [|discriminate].
    destruct (decimalLoop_grows _ _ _ H He El) as (Hg & Hb).
    destruct (grows_wf _ _ _ Hg) as (H1 & He1).
    destruct (slice _ _ _) as [raw|] eqn:Er; [|discriminate].
    inversion Hs; subst. apply slice_len in Er.
    destruct Hg as (_ & _ & Hl & Hc & _).
    unfold grows. split; [exact H1|]. split; [exact He1|].
    cbn [error_ write length chrOffset buffer].
    split; [exact Hl|]. split; [exact Hc|].
    rewrite !len_app, Hb. cbn [bytes list_ascii_of_string].
    rewrite !len_cons. change (len (@nil ascii)) with 0. lia. }
  head_case Hs C2.
  { apply (scanHex_escape 2); auto. apply (caseOf_not_EOF _ _ C2). }
  head_case Hs C3.
  { apply (scanHex_escape 4); auto. apply (caseOf_not_EOF _ _ C3). }
  head_case Hs C4.
  { inversion Hs; subst. apply andb_true_iff in C4. destruct C4 as [C4 _].
    match goal with |- grows _ _ (read (write ?bs _)) =>
      apply (grows_step (len bs) (-3) _ s (write bs s)) end;
      [apply grows_write; [exact H | exact He]
      |apply grows_read_strict; [exact H | apply (caseOf_not_EOF _ _ C4)]
      |len_lia]. }
  head_case Hs C5.
  { inversion Hs; subst.
    match goal with |- grows _ _ (pass (write ?bs _)) =>
      apply (grows_step (len bs) 0 _ s (write bs s)) end;
      [apply grows_write; [exact H | exact He]
      |apply grows_pass; [exact H | exact He]
      |len_lia]. }
  head_case Hs C6.
  { pose proof (grows_read_strict s H (caseOf_not_EOF _ _ C6)) as Hr.
    destruct (grows_wf _ _ _ Hr) as (H1 & He1).
    assert (Hletter : forall v lo,
               0 <= lo -> lo <= chr (read s) -> 1 <= v <= 26 ->
               grows 3 s (read (write (hexEscape v) (read s)))).
    { intros v lo Hlo Hc Hv. pose proof (control_length v Hv) as Hlen.
      apply (grows_step (-3) (len (hexEscape v) + -3) _ s (read s));
        [exact Hr | | lia].
      apply (grows_step (len (hexEscape v)) (-3) _ (read s)
                        (write (hexEscape v) (read s)));
        [apply grows_write; [exact H1 | exact He1]
        |apply grows_read_strict; [exact H1 |]
        |lia].
      cbn [write chr]. unfold EOF. lia. }
    destruct ((rune "a" <=? chr (read s)) && (chr (read s) <=? rune "z")) eqn:L1;
      [|destruct ((rune "A" <=? chr (read s)) && (chr (read s) <=? rune "Z")) eqn:L2];
      inversion Hs; subst.
    - apply andb_true_iff in L1. rewrite !Z.leb_le in L1. unfold rune in *.
      change (byteZ "a") with 97 in *. change (byteZ "z") with 122 in *.
      apply (Hletter _ 97); lia.
    - apply andb_true_iff in L2. rewrite !Z.leb_le in L2. unfold rune in *.
      change (byteZ "A") with 65 in *. change (byteZ "Z") with 90 in *.
      apply (Hletter _ 65); lia.
    - eapply grows_step; [exact Hr | apply grows_write; [exact H1 | exact He1] |].
      len_lia. }
  destruct ((chr s =? rune "$") || negb (isIdentifierPart (chr s)));
    inversion Hs; subst.
  - match goal with |- grows _ _ (pass (write ?bs _)) =>
      apply (grows_step (len bs) 0 _ s (write bs s)) end;
      [apply grows_write; [exact H | exact He]
      |apply grows_pass; [exact H | exact He]
      |len_lia].
  - eapply grows_weaken; [|apply grows_pass; [exact H | exact He]]. lia.
Qed.

(** A backslash and its escape together keep within the bound. *)
Lemma escape_grows fuel inClass s s' :
  wf s -> chr s = rune "\" ->
  scanEscape isIdentifierPart fuel inClass (read s) = Some s' -> grows 0 s s'.
Proof.
  intros H Hc Hs.
  assert (Hne : chr s <> EOF) by (rewrite Hc; vm_compute; discriminate).
  pose proof (grows_read_strict s H Hne) as Hr.
  destruct (grows_wf _ _ _ Hr) as (H1 & He1).
  eapply grows_step; [exact Hr | eapply scanEscape_grows; eauto | lia].
Qed.

Lemma scanBracketLoop_grows fuel : forall s s',
  wf s -> encFits s ->
  scanBracketLoop isIdentifierPart fuel s = Some s' -> grows 0 s s'.
Proof.
  induction fuel as [|fuel IH]; intros s s' H He Hs; [discriminate|].
  cbn [scanBracketLoop] in Hs.
  destruct (chr s =? EOF); [inversion Hs; subst; apply grows_refl; auto|].
  destruct (chr s =? rune "]"); [inversion Hs; subst; apply grows_refl; auto|].
  destruct (Z.eqb_spec (chr s) (rune "\")) as [E | E].
  - destruct (scanEscape isIdentifierPart fuel true (read s)) as [s1|] eqn:Es;
      [|discriminate].
    pose proof (escape_grows _ _ _ _ H E Es) as Hg.
    destruct (grows_wf _ _ _ Hg) as (H1 & He1).
    eapply grows_step; [exact Hg | apply IH; eauto | lia].
  - pose proof (grows_pass s H He) as Hg.
    destruct (grows_wf _ _ _ Hg) as (H1 & He1).
    eapply grows_step; [exact Hg | apply IH; eauto | lia].
Qed.

Lemma scanBracket_grows fuel s s' :
  wf s -> encFits s ->
  scanBracket isIdentifierPart fuel s = Some s' -> grows 0 s s'.
Proof.
  intros H He Hs. unfold scanBracket in Hs.
  destruct (scanBracketLoop isIdentifierPart fuel s) as [s1|] eqn:El; [|discriminate].
  pose proof (scanBracketLoop_grows _ _ _ H He El) as Hg.
  destruct (grows_wf _ _ _ Hg) as (H1 & He1).
  destruct (negb (chr s1 =? rune "]")); inversion Hs; subst.
  - eapply grows_step; [exact Hg | | apply Z.le_refl].
    eapply grows_step;
      [apply grows_error; [exact H1 | exact He1]
      |apply grows_setInvalid; [exact H1 | exact He1]
      |lia].
  - eapply grows_step; [exact Hg | apply grows_pass; [exact H1 | exact He1] | lia].
Qed.

Lemma lookahead_grows s s' :
  wf s -> encFits s -> lookahead s = Some s' -> grows 0 s s'.
Proof.
  intros H He Hs. unfold lookahead in Hs.
  destruct (sliceFrom _ _) as [str0|]; [|discriminate].
  destruct (1 <? len str0); [|inversion Hs; subst; apply grows_refl; auto].
  destruct (byteAt str0 0 =? rune "?");
    [|inversion Hs; subst; apply grows_refl; auto].
  destruct (_ || _); [|inversion Hs; subst; apply grows_refl; auto].
  destruct (slice _ _ _) as [raw|]; [|discriminate].
  inversion Hs; subst. apply grows_error; auto.
Qed.

Lemma closeGroup_grows s : wf s -> encFits s -> grows 0 s (closeGroup s).
Proof.
  intros H He. unfold closeGroup. destruct (negb (chr s =? rune ")")).
  - eapply grows_step;
      [apply grows_error; [exact H | exact He]
      |apply grows_setInvalid; [exact H | exact He]
      |lia].
  - apply grows_pass; auto.
Qed.

Lemma scanGroupWith_grows loop s s' :
  (forall s0 s1, wf s0 -> encFits s0 -> loop s0 = Some s1 -> grows 0 s0 s1) ->
  wf s -> encFits s -> scanGroupWith loop s = Some s' -> grows 0 s s'.
Proof.
  intros Hloop H He Hs. unfold scanGroupWith in Hs.
  destruct (lookahead s) as [s1|] eqn:E1; [|discriminate].
  pose proof (lookahead_grows _ _ H He E1) as Hg1.
  destruct (grows_wf _ _ _ Hg1) as (H1 & He1).
  destruct (loop s1) as [s2|] eqn:E2; [|discriminate].
  pose proof (Hloop _ _ H1 He1 E2) as Hg2.
  destruct (grows_wf _ _ _ Hg2) as (H2 & He2).
  inversion Hs; subst.
  eapply grows_step; [exact Hg1 | | apply Z.le_refl].
  eapply grows_step; [exact Hg2 | apply closeGroup_grows; auto | lia].
Qed.

Lemma scanGroupLoop_grows fuel : forall s s',
  wf s -> encFits s ->
  scanGroupLoop isIdentifierPart fuel s = Some s' -> grows 0 s s'.
Proof.
  induction fuel as [|fuel IH]; intros s s' H He Hs; [discriminate|].
  cbn [scanGroupLoop] in Hs.
  destruct ((chr s =? EOF) || (chr s =? rune ")"));
    [inversion Hs; subst; apply grows_refl; auto|].
  assert (Hcont : forall s1, grows 0 s s1 ->
                             scanGroupLoop isIdentifierPart fuel s1 = Some s' ->
                             grows 0 s s').
  { intros s1 Hg Hs1. destruct (grows_wf _ _ _ Hg) as (H1 & He1).
    eapply grows_step; [exact Hg | apply IH; eauto | lia]. }
  pose proof (grows_pass s H He) as Hp.
  destruct (grows_wf _ _ _ Hp) as (Hp1 & Hpe).
  destruct (Z.eqb_spec (chr s) (rune "\")) as [E | E].
  { destruct (scanEscape isIdentifierPart fuel false (read s)) as [s1|] eqn:Es;
      [|discriminate].
    apply (Hcont s1); [|exact Hs]. eapply escape_grows; eauto. }
  destruct (chr s =? rune "(").
  { destruct (scanGroupWith _ (pass s)) as [s1|] eqn:Eg; [|discriminate].
    apply (Hcont s1); [|exact Hs].
    eapply grows_step; [exact Hp | | apply Z.le_refl].
    eapply scanGroupWith_grows; [|exact Hp1 | exact Hpe | exact Eg].
    intros s0 s2. apply IH. }
  destruct (chr s =? rune "[").
  { destruct (scanBracket isIdentifierPart fuel (pass s)) as [s1|] eqn:Eb;
      [|discriminate].
    apply (Hcont s1); [|exact Hs].
    eapply grows_step; [exact Hp | | apply Z.le_refl].
    eapply scanBracket_grows; eauto. }
  apply (Hcont (pass s)); [exact Hp | exact Hs].
Qed.

Lemma scan_grows fuel : forall s s',
  wf s -> encFits s ->
  scan isIdentifierPart fuel s = Some s' -> grows 0 s s'.
Proof.
  induction fuel as [|fuel IH]; intros s s' H He Hs; [discriminate|].
  cbn [scan] in Hs.
  destruct (chr s =? EOF); [inversion Hs; subst; apply grows_refl; auto|].
  assert (Hcont : forall s1, grows 0 s s1 ->
                             scan isIdentifierPart fuel s1 = Some s' ->
                             grows 0 s s').
  { intros s1 Hg Hs1. destruct (grows_wf _ _ _ Hg) as (H1 & He1).
    eapply grows_step; [exact Hg | apply IH; eauto | lia]. }
  pose proof (grows_pass s H He) as Hp.
  destruct (grows_wf _ _ _ Hp) as (Hp1 & Hpe).
  destruct (Z.eqb_spec (chr s) (rune "\")) as [E | E].
  { destruct (scanEscape isIdentifierPart fuel false (read s)) as [s1|] eqn:Es;
      [|discriminate].
    apply (Hcont s1); [|exact Hs]. eapply escape_grows; eauto. }
  destruct (chr s =? rune "(").
  { destruct (scanGroup isIdentifierPart fuel (pass s)) as [s1|] eqn:Eg;
      [|discriminate].
    apply (Hcont s1); [|exact Hs].
    eapply grows_step; [exact Hp | | apply Z.le_refl].
    unfold scanGroup in Eg.
    eapply scanGroupWith_grows; [|exact Hp1 | exact Hpe | exact Eg].
    intros s0 s2. apply scanGroupLoop_grows. }
  destruct (chr s =? rune "[").
  { destruct (scanBracket isIdentifierPart fuel (pass s)) as [s1|] eqn:Eb;
      [|discriminate].
    apply (Hcont s1); [|exact Hs].
    eapply grows_step; [exact Hp | | apply Z.le_refl].
    eapply scanBracket_grows; eauto. }
  destruct (chr s =? rune ")").
  { apply (Hcont (pass (setInvalid (error_ msg_Unmatched s)))); [|exact Hs].
    apply (grows_pass (setInvalid (error_ msg_Unmatched s))); [exact H | exact He]. }
  apply (Hcont (pass s)); [exact Hp | exact Hs].
Qed.

(** X19. The output is never more than three times as long as the
    pattern: whatever the pattern holds (escapes that are expanded, such
    as a control escape or a backspace in a class, and bytes that are not
    UTF-8, each of which is written as the three bytes of the replacement
    character), [TransformRegExp] returns a text of at most
    [3 * len pattern] bytes. *)
Theorem TransformRegExp_output_size pattern :
  exists out err,
    TransformRegExp isIdentifierPart pattern = Some (out, err)
    /\ len out <= 3 * len pattern.
Proof.
  destruct pattern as [|b t].
  { exists [], None. split; [reflexivity|]. change (len (@nil ascii)) with 0. lia. }
  set (pattern := b :: t).
  assert (Hne : pattern <> []) by discriminate.
  destruct (scanned_ok pattern) as (s & Hs & _ & _).
  exists (if invalid s then [] else buffer s), (hd_error (errors s)).
  split; [apply TransformRegExp_scanned; assumption|].
  pose proof (len_nonneg pattern) as Hp.
  destruct (invalid s); [change (len (@nil ascii)) with 0; lia|].
  destruct (scan_grows _ _ _ (firstRead_wf pattern)
              (read_encFits _ (newParser_readable pattern)) Hs)
    as (Hw & _ & Hl & _ & Hb).
  destruct (read_fields (newParser pattern)) as (_ & Hl0 & _ & Hb0).
  pose proof (wf_chrOffset _ (firstRead_wf pattern)) as Hc0.
  pose proof (wf_chrOffset _ Hw) as Hc.
  destruct Hw as (Hlen & _).
  rewrite Hb0 in Hb. rewrite Hl0 in Hl. cbn [newParser buffer length] in Hb, Hl.
  change (len (@nil ascii)) with 0 in Hb. lia.
Qed.

(** *** The escape \b wherever it stands *)

(** A loop that returns on every parser, the parser it returns being an
    extension of the one it started on. *)
Definition totalLoop (loop : nat -> _RegExp_parser -> option _RegExp_parser) : Prop :=
  forall s, wf s -> exists r, runs loop s r /\ extends s r.

Definition monoLoop (loop : nat -> _RegExp_parser -> option _RegExp_parser) : Prop :=
  forall fuel fuel' s r,
    loop fuel s = Some r -> (fuel <= fuel')%nat -> loop fuel' s = Some r.

Lemma totalLoop_scan : totalLoop (scan isIdentifierPart).
Proof.
  intros s H.
  destruct (scan_ok (S (remaining s)) s H ltac:(lia)) as (r & Hr & He & _).
  exists r. split; [exists (S (remaining s)); exact Hr | exact He].
Qed.

Lemma totalLoop_scanGroupLoop : totalLoop (scanGroupLoop isIdentifierPart).
Proof.
  intros s H.
  destruct (scanGroupLoop_ok (S (remaining s)) s H ltac:(lia)) as (r & Hr & He).
  exists r. split; [exists (S (remaining s)); exact Hr | exact He].
Qed.

Lemma totalLoop_scanBracketLoop : totalLoop (scanBracketLoop isIdentifierPart).
Proof.
  intros s H.
  destruct (scanBracketLoop_ok (S (remaining s)) s H ltac:(lia)) as (r & Hr & He).
  exists r. split; [exists (S (remaining s)); exact Hr | exact He].
Qed.

Lemma monoLoop_scanBracketLoop : monoLoop (scanBracketLoop isIdentifierPart).
Proof. intros fuel fuel' s r Hr Hle. eapply scanBracketLoop_mono; eauto. Qed.

Lemma runs_unique loop s r r' :
  monoLoop loop -> runs loop s r -> runs loop s r' -> r = r'.
Proof.
  intros Hm (f & Hf) (f' & Hf').
  pose proof (Hm _ _ _ _ Hf (Nat.le_max_l f f')) as H1.
  pose proof (Hm _ _ _ _ Hf' (Nat.le_max_r f f')) as H2. congruence.
Qed.

(** The run of [loop] from [s] goes through the parser [X]: where it
    ends is an extension of [X]. *)
Definition passes (loop : nat -> _RegExp_parser -> option _RegExp_parser)
           (s X : _RegExp_parser) : Prop :=
  forall r, runs loop s r -> extends X r.

Lemma passes_here loop s :
  monoLoop loop -> totalLoop loop -> wf s -> passes loop s s.
Proof.
  intros Hm Ht H r Hr. destruct (Ht s H) as (r' & Hr' & He).
  rewrite (runs_unique loop s r r' Hm Hr Hr'). exact He.
Qed.

Lemma passes_after loop s t X :
  monoLoop loop -> totalLoop loop -> wf t ->
  (forall r, runs loop t r -> runs loop s r) ->
  passes loop t X -> passes loop s X.
Proof.
  intros Hm Ht Hw Hadv Hp r Hr. destruct (Ht t Hw) as (r' & Hr' & _).
  rewrite (runs_unique loop s r r' Hm Hr (Hadv _ Hr')). apply Hp. exact Hr'.
Qed.

Lemma passes_copied w ew loop done l es inv buf X :
  copied w ew -> itemLoop loop -> totalLoop loop ->
  asciiHead l -> noDigitNext 10 l ->
  passes loop (cursor (done ++ w) l (es ++ ew) inv (buf ++ w)) X ->
  passes loop (cursor done (w ++ l) es inv buf) X.
Proof.
  intros Hw HL Ht Ha Hn. apply passes_after.
  - exact (loop_mono loop HL).
  - exact Ht.
  - apply cursor_wf.
  - intros r. apply (copied_advance w ew Hw loop HL); assumption.
Qed.

Lemma passes_classBody cls done l es inv buf X :
  classBody cls -> asciiHead l ->
  passes (scanBracketLoop isIdentifierPart)
         (cursor (done ++ cls) l es inv (buf ++ cls)) X ->
  passes (scanBracketLoop isIdentifierPart) (cursor done (cls ++ l) es inv buf) X.
Proof.
  intros Hc Ha. apply passes_after.
  - exact monoLoop_scanBracketLoop.
  - exact totalLoop_scanBracketLoop.
  - apply cursor_wf.
  - intros r. apply (classBody_advance cls Hc); assumption.
Qed.

Lemma passes_escape loop done c rest es inv buf X :
  itemLoop loop -> totalLoop loop -> byteZ c < 128 -> wf X ->
  (forall fuel, scanEscape isIdentifierPart fuel false
                           (cur (done ++ ["\"%char]) c rest es inv buf) = Some X) ->
  passes loop (cur done "\"%char (c :: rest) es inv buf) X.
Proof.
  intros HL Ht Hc Hw Hesc.
  apply (passes_after loop _ X); auto.
  - exact (loop_mono loop HL).
  - intros r Hr.
    apply (advance_escape loop HL done c rest es inv buf X r 0%nat); auto.
  - apply passes_here; auto. exact (loop_mono loop HL).
Qed.

Lemma passes_class_escape done c rest es inv buf X :
  byteZ c < 128 -> wf X ->
  (forall fuel, scanEscape isIdentifierPart fuel true
                           (cur (done ++ ["\"%char]) c rest es inv buf) = Some X) ->
  passes (scanBracketLoop isIdentifierPart)
         (cur done "\"%char (c :: rest) es inv buf) X.
Proof.
  intros Hc Hw Hesc.
  apply (passes_after _ _ X); auto.
  - exact monoLoop_scanBracketLoop.
  - exact totalLoop_scanBracketLoop.
  - intros r (f & Hf). exists (S f).
    rewrite scanBracketLoop_escape by exact Hc. rewrite Hesc. exact Hf.
  - apply passes_here; auto.
    + exact monoLoop_scanBracketLoop.
    + exact totalLoop_scanBracketLoop.
Qed.

Lemma passes_group loop done rest t es inv buf X :
  itemLoop loop -> totalLoop loop -> asciiHead rest ->
  lookahead (cursor (done ++ ["("%char]) rest es inv (buf ++ ["("%char])) = Some t ->
  passes (scanGroupLoop isIdentifierPart) t X ->
  passes loop (cur done "("%char rest es inv buf) X.
Proof.
  intros HL Ht Ha Hl Hp r (f & Hf).
  apply (loop_mono loop HL _ (S f)) in Hf; [|lia].
  rewrite (loop_group loop HL) in Hf by exact Ha.
  unfold scanGroup, scanGroupWith in Hf. rewrite Hl in Hf.
  destruct (scanGroupLoop isIdentifierPart f t) as [s2|] eqn:E2; [|discriminate].
  assert (He2 : extends X s2) by (apply Hp; exists f; exact E2).
  assert (H2 := extends_wf _ _ He2).
  assert (He3 := closeGroup_ok s2 H2).
  assert (H3 := extends_wf _ _ He3).
  eapply extends_trans; [exact He2|]. eapply extends_trans; [exact He3|].
  apply (passes_here loop _ (loop_mono loop HL) Ht H3). exists f. exact Hf.
Qed.

Lemma passes_bracket loop done rest es inv buf X :
  itemLoop loop -> totalLoop loop -> asciiHead rest ->
  passes (scanBracketLoop isIdentifierPart)
         (cursor (done ++ ["["%char]) rest es inv (buf ++ ["["%char])) X ->
  passes loop (cur done "["%char rest es inv buf) X.
Proof.
  intros HL Ht Ha Hp r (f & Hf).
  apply (loop_mono loop HL _ (S f)) in Hf; [|lia].
  rewrite (loop_bracket loop HL) in Hf by exact Ha.
  unfold scanBracket in Hf.
  destruct (scanBracketLoop isIdentifierPart f _) as [s1|] eqn:E1; [|discriminate].
  assert (He1 : extends X s1) by (apply Hp; exists f; exact E1).
  assert (H1 := extends_wf _ _ He1).
  set (s2 := if negb (chr s1 =? rune "]")
             then setInvalid (error_ msg_UnterminatedClass s1) else pass s1).
  assert (He2 : extends s1 s2).
  { unfold s2. destruct (negb (chr s1 =? rune "]")).
    - apply extends_setInvalid; auto.
    - apply extends_pass; auto. }
  assert (H2 := extends_wf _ _ He2).
  assert (Hf' : loop f s2 = Some r).
  { unfold s2. destruct (negb (chr s1 =? rune "]")); exact Hf. }
  eapply extends_trans; [exact He1|]. eapply extends_trans; [exact He2|].
  apply (passes_here loop _ (loop_mono loop HL) Ht H2). exists f. exact Hf'.
Qed.

(** What a group logs when it opens, read off the content [g] that
    precedes a byte [c] other than [?], [=] and [!]. *)
Lemma lookahead_before done g c t es inv buf :
  byteZ c <> rune "?" -> byteZ c <> rune "=" -> byteZ c <> rune "!" ->
  lookahead (cursor done (g ++ c :: t) es inv buf)
  = Some (cursor done (g ++ c :: t) (es ++ lookaheadErrors g) inv buf).
Proof.
  intros N1 N2 N3. apply Z.eqb_neq in N1, N2, N3.
  unfold lookahead.
  destruct (cursor_str done (g ++ c :: t) es inv buf) as (Hs & Ho).
  rewrite Hs, Ho. pose proof (len_nonneg done).
  rewrite sliceFrom_skipn
    by (rewrite len_app; pose proof (len_nonneg (g ++ c :: t)); lia).
  rewrite skipn_len_app.
  destruct g as [|a [|b g]].
  - cbn [app lookaheadErrors]. rewrite app_nil_r.
    change (byteAt (c :: t) 0) with (byteZ c). rewrite N1.
    destruct (1 <? len (c :: t)); reflexivity.
  - cbn [app lookaheadErrors]. rewrite app_nil_r.
    change (byteAt (a :: c :: t) 1) with (byteZ c). rewrite N2, N3.
    destruct (1 <? len (a :: c :: t)); [|reflexivity].
    destruct (byteAt (a :: c :: t) 0 =? rune "?"); reflexivity.
  - cbn [app lookaheadErrors].
    rewrite !len_cons. pose proof (len_nonneg (g ++ c :: t)).
    replace (1 <? 1 + (1 + len (g ++ c :: t))) with true
      by (symmetry; apply Z.ltb_lt; lia).
    change (byteAt (a :: b :: g ++ c :: t) 0) with (byteZ a).
    change (byteAt (a :: b :: g ++ c :: t) 1) with (byteZ b).
    destruct (byteZ a =? rune "?"); cbn [andb]; [|rewrite app_nil_r; reflexivity].
    destruct ((byteZ b =? rune "=") || (byteZ b =? rune "!"));
      [|rewrite app_nil_r; reflexivity].
    replace (done ++ a :: b :: g ++ c :: t)
      with (done ++ [a; b] ++ (g ++ c :: t)) by reflexivity.
    change 2 with (len [a; b]). rewrite slice_middle.
    rewrite error_cursor. reflexivity.
Qed.

(** [nested p ep]: [p] is what a pattern holds before some place in it,
    at top level or inside any number of groups still open there: items
    of [copied], then possibly an opening parenthesis and the same
    again.  Scanning [p] logs the errors [ep]. *)
Inductive nested : gostring -> list error -> Prop :=
| nested_top w e : copied w e -> nested w e
| nested_group w e g eg :
    copied w e -> nested g eg ->
    nested (w ++ "("%char :: g) (e ++ lookaheadErrors g ++ eg).

(** The two bytes before which the lemmas below stop: the backslash of an
    escape and the bracket that opens a class. *)
Definition opens (c : ascii) : Prop := c = "\"%char \/ c = "["%char.

Lemma opens_head c rest :
  opens c ->
  asciiHead (c :: rest) /\ noDigitNext 10 (c :: rest) /\
  byteZ c <> rune "?" /\ byteZ c <> rune "=" /\ byteZ c <> rune "!".
Proof.
  intros [-> | ->]; vm_compute; repeat split; discriminate.
Qed.

Lemma nested_asciiHead p ep l : nested p ep -> asciiHead l -> asciiHead (p ++ l).
Proof.
  intros H Hl. destruct H as [w e Hw | w e g eg Hw Hg].
  - eapply copied_asciiHead; eauto.
  - rewrite <- app_assoc. eapply copied_asciiHead; [exact Hw|].
    apply asciiHead_cons. vm_compute. reflexivity.
Qed.

Lemma nested_passes p ep : nested p ep ->
  forall loop, itemLoop loop -> totalLoop loop ->
  forall done c rest es inv buf X,
    opens c ->
    (forall loop', itemLoop loop' -> totalLoop loop' ->
       passes loop' (cur (done ++ p) c rest (es ++ ep) inv (buf ++ p)) X) ->
    passes loop (cursor done (p ++ c :: rest) es inv buf) X.
Proof.
  induction 1 as [w e Hw | w e g eg Hw Hg IH];
    intros loop HL Ht done c rest es inv buf X Hc HX.
  - destruct (opens_head c rest Hc) as (Ha & Hn & _).
    apply (passes_copied w e); auto.
  - destruct (opens_head c rest Hc) as (Ha & Hn & N1 & N2 & N3).
    replace ((w ++ "("%char :: g) ++ c :: rest)
      with (w ++ "("%char :: g ++ c :: rest)
      by (rewrite <- app_assoc; reflexivity).
    apply (passes_copied w e); auto.
    { apply asciiHead_cons. vm_compute. reflexivity. }
    { vm_compute. discriminate. }
    cbn [cursor].
    apply (passes_group loop (done ++ w) (g ++ c :: rest)
             (cursor ((done ++ w) ++ ["("%char]) (g ++ c :: rest)
                     ((es ++ e) ++ lookaheadErrors g) inv ((buf ++ w) ++ ["("%char])));
      auto.
    { eapply nested_asciiHead; eauto. }
    { apply lookahead_before; auto. }
    apply (IH _ itemLoop_scanGroupLoop totalLoop_scanGroupLoop); auto.
    intros loop' HL' Ht'.
    replace (((done ++ w) ++ ["("%char]) ++ g) with (done ++ w ++ "("%char :: g)
      by (rewrite <- !app_assoc; reflexivity).
    replace (((buf ++ w) ++ ["("%char]) ++ g) with (buf ++ w ++ "("%char :: g)
      by (rewrite <- !app_assoc; reflexivity).
    replace (((es ++ e) ++ lookaheadErrors g) ++ eg)
      with (es ++ e ++ lookaheadErrors g ++ eg)
      by (rewrite <- !app_assoc; reflexivity).
    apply HX; auto.
Qed.

(** The run of [TransformRegExp] on a pattern that goes through [X]
    before the flag [invalid] is set. *)
Lemma rewrites_passes p ep c rest X :
  nested p ep -> opens c ->
  (forall loop', itemLoop loop' -> totalLoop loop' ->
     passes loop' (cur p c rest ep false p) X) ->
  invalid X = false ->
  rewrites (p ++ c :: rest) (buffer X) (errors X).
Proof.
  intros Hp Hc HX Hi.
  destruct (scanned_ok (p ++ c :: rest)) as (s & Hs & _ & _).
  assert (Ha : asciiHead (p ++ c :: rest)).
  { eapply nested_asciiHead; [exact Hp|]. apply (opens_head c rest Hc). }
  apply (rewrites_of _ X s); auto.
  - destruct p; discriminate.
  - apply (nested_passes p ep Hp (scan isIdentifierPart) itemLoop_scan totalLoop_scan
             [] c rest [] false [] X Hc); [exact HX|].
    unfold scanned in Hs. rewrite firstRead_cursor in Hs by exact Ha.
    eexists. exact Hs.
Qed.

(** C9. The escape \b, wherever it stands.  With [inClass] true
    [scanEscape] writes \x08 for it, with [inClass] false it writes
    \b unchanged; neither logs an error of its own nor touches
    [invalid].  On a backslash the loop of [scanBracket] calls
    [scanEscape] with [inClass] true, [scan] and the loop of [scanGroup]
    call it with [inClass] false, in every state.  In a pattern, an
    occurrence at top level or inside any number of open groups, after
    items that are copied as they stand, is written as \b, and an
    occurrence in a character class that opens there is written as
    \x08; the output starts with what precedes the escape and that
    rewriting, and the empty string is returned only if a later part of
    the pattern is invalid.  The patterns [[\b]] and [([\b])] are
    rewritten with \x08, the patterns \b and [(\b)] are
    returned unchanged, all with a nil error. *)
Theorem scanEscape_b :
  (forall fuel done rest es inv buf,
      exists s',
        scanEscape isIdentifierPart fuel true (cur done "b"%char rest es inv buf) = Some s' /\
        buffer s' = buf ++ bytes "\x08" /\
        errors s' = es ++ followError rest /\ invalid s' = inv) /\
  (forall fuel done rest es inv buf,
      exists s',
        scanEscape isIdentifierPart fuel false (cur done "b"%char rest es inv buf) = Some s' /\
        buffer s' = buf ++ bytes "\b" /\
        errors s' = es ++ followError rest /\ invalid s' = inv) /\
  (forall fuel done rest es inv buf,
      scanBracketLoop isIdentifierPart (S fuel)
                      (cur done "\"%char ("b"%char :: rest) es inv buf)
      = (s' <- scanEscape isIdentifierPart fuel true
                          (cur (done ++ ["\"%char]) "b"%char rest es inv buf) ;;
         scanBracketLoop isIdentifierPart fuel s')) /\
  (forall fuel done rest es inv buf,
      scan isIdentifierPart (S fuel)
           (cur done "\"%char ("b"%char :: rest) es inv buf)
      = (s' <- scanEscape isIdentifierPart fuel false
                          (cur (done ++ ["\"%char]) "b"%char rest es inv buf) ;;
         scan isIdentifierPart fuel s')) /\
  (forall pre cls rest,
      Forall plain pre -> Forall classPlain cls ->
      rewrites (pre ++ "["%char :: cls ++ "\"%char :: "b"%char :: rest)
               (pre ++ "["%char :: cls ++ bytes "\x08") (followError rest)) /\
  (forall pre rest,
      Forall plain pre ->
      rewrites (pre ++ "\"%char :: "b"%char :: rest) (pre ++ bytes "\b")
               (followError rest)) /\
  TransformRegExp isIdentifierPart (bytes "[\b]") = Some (bytes "[\x08]", None) /\
  TransformRegExp isIdentifierPart (bytes "\b") = Some (bytes "\b", None) /\
  (forall fuel s,
      chr s = rune "\" ->
      scan isIdentifierPart (S fuel) s
      = (s' <- scanEscape isIdentifierPart fuel false (read s) ;;
         scan isIdentifierPart fuel s') /\
      scanGroupLoop isIdentifierPart (S fuel) s
      = (s' <- scanEscape isIdentifierPart fuel false (read s) ;;
         scanGroupLoop isIdentifierPart fuel s') /\
      scanBracketLoop isIdentifierPart (S fuel) s
      = (s' <- scanEscape isIdentifierPart fuel true (read s) ;;
         scanBracketLoop isIdentifierPart fuel s')) /\
  (forall fuel s,
      chr s = rune "b" ->
      scanEscape isIdentifierPart fuel true s = Some (read (write (bytes "\x08") s)) /\
      scanEscape isIdentifierPart fuel false s = Some (pass (write (bytes "\") s))) /\
  (forall p ep rest,
      nested p ep ->
      rewrites (p ++ "\"%char :: "b"%char :: rest) (p ++ bytes "\b")
               (ep ++ followError rest)) /\
  (forall p ep cls rest,
      nested p ep -> classBody cls ->
      rewrites (p ++ "["%char :: cls ++ "\"%char :: "b"%char :: rest)
               (p ++ "["%char :: cls ++ bytes "\x08") (ep ++ followError rest)) /\
  TransformRegExp isIdentifierPart (bytes "(\b)") = Some (bytes "(\b)", None) /\
  TransformRegExp isIdentifierPart (bytes "([\b])") = Some (bytes "([\x08])", None).
Proof.
  match goal with |- ?A /\ ?B /\ _ => assert (Hstate : A /\ B) end;
    [split|destruct Hstate as [HinClass Htop];
           split; [exact HinClass|split; [exact Htop|]]].
  - intros fuel done rest es inv buf.
    rewrite scanEscape_b_run by reflexivity.
    rewrite read_write.
    destruct (read_cur done "b"%char rest es inv buf) as (_ & _ & He & Hi & Hbuf & _).
    eexists. split; [reflexivity|]. simpl. rewrite He, Hi, Hbuf. auto.
  - intros fuel done rest es inv buf.
    rewrite scanEscape_b_run by reflexivity.
    unfold pass. change (chr (write (bytes "\") (cur done "b" rest es inv buf)))
      with (rune "b"). change (rune "b" =? EOF) with false. cbv iota.
    unfold writeRune. rewrite !read_write.
    destruct (read_cur done "b"%char rest es inv buf) as (_ & _ & He & Hi & Hbuf & _).
    eexists. split; [reflexivity|]. simpl. rewrite He, Hi, Hbuf.
    rewrite <- app_assoc. auto.
  - split.
    { intros fuel done rest es inv buf. cbn [scanBracketLoop].
      rewrite cur_chr. change (byteZ "\" =? EOF) with false.
      change (byteZ "\" =? rune "]") with false.
      change (byteZ "\" =? rune "\") with true. cbv iota.
      rewrite read_cur_ascii by (unfold byteZ; simpl; lia). reflexivity. }
    split.
    { intros fuel done rest es inv buf. cbn [scan].
      rewrite cur_chr. change (byteZ "\" =? EOF) with false.
      change (byteZ "\" =? rune "\") with true. cbv iota.
      rewrite read_cur_ascii by (unfold byteZ; simpl; lia). reflexivity. }
    split.
    { intros pre cls rest Hp Hcls.
      destruct (HinClass (S (S (List.length rest)))
                         (pre ++ "["%char :: cls ++ ["\"%char]) rest [] false
                         (pre ++ "["%char :: cls)) as (s' & Hs' & Hb & He & Hi).
      pose proof (rewrites_class_escape pre cls "b"%char rest s' Hp Hcls
                    ltac:(unfold byteZ; simpl; lia) Hs' Hi) as R.
      rewrite Hb, He, <- app_assoc in R. exact R. }
    split.
    { intros pre rest Hp.
      destruct (Htop (S (S (List.length rest))) (pre ++ ["\"%char]) rest [] false pre)
        as (s' & Hs' & Hb & He & Hi).
      pose proof (rewrites_escape pre "b"%char rest s' Hp
                    ltac:(unfold byteZ; simpl; lia) Hs' Hi) as R.
      rewrite Hb, He in R. exact R. }
    split; [reflexivity|]. split; [reflexivity|].
    split.
    { intros fuel s Hc. split; [|split].
      - cbn [scan]. rewrite Hc. reflexivity.
      - cbn [scanGroupLoop]. rewrite Hc. reflexivity.
      - cbn [scanBracketLoop]. rewrite Hc. reflexivity. }
    split.
    { intros fuel s Hc. split; rewrite scanEscape_b_run by exact Hc; reflexivity. }
    split.
    { intros p ep rest Hp.
      set (s0 := cur (p ++ ["\"%char]) "b"%char rest ep false p).
      destruct (Htop 0%nat (p ++ ["\"%char]) rest ep false p)
        as (X & HX & Hb & He & Hi).
      fold s0 in HX. rewrite scanEscape_b_run in HX by reflexivity.
      assert (Hrun : forall fuel,
                 scanEscape isIdentifierPart fuel false s0 = Some X).
      { intros fuel. rewrite scanEscape_b_run by reflexivity. exact HX. }
      assert (Hw : wf X).
      { destruct (scanEscape_ok (S (S (List.length rest))) false s0)
          as (s' & E & He'); [apply cur_wf | unfold s0; rewrite cur_remaining; lia|].
        rewrite Hrun in E. inversion E; subst. exact (extends_wf _ _ He'). }
      assert (R : rewrites (p ++ "\"%char :: "b"%char :: rest) (buffer X) (errors X)).
      { apply (rewrites_passes p ep); auto.
        - left. reflexivity.
        - intros loop' HL Ht. apply passes_escape; auto.
          vm_compute. reflexivity. }
      rewrite Hb, He in R. exact R. }
    split.
    { intros p ep cls rest Hp Hcls.
      set (s0 := cur (((p ++ ["["%char]) ++ cls) ++ ["\"%char]) "b"%char rest ep false
                     ((p ++ ["["%char]) ++ cls)).
      destruct (HinClass 0%nat (((p ++ ["["%char]) ++ cls) ++ ["\"%char]) rest ep false
                         ((p ++ ["["%char]) ++ cls))
        as (X & HX & Hb & He & Hi).
      fold s0 in HX. rewrite scanEscape_b_run in HX by reflexivity.
      assert (Hrun : forall fuel,
                 scanEscape isIdentifierPart fuel true s0 = Some X).
      { intros fuel. rewrite scanEscape_b_run by reflexivity. exact HX. }
      assert (Hw : wf X).
      { destruct (scanEscape_ok (S (S (List.length rest))) true s0)
          as (s' & E & He'); [apply cur_wf | unfold s0; rewrite cur_remaining; lia|].
        rewrite Hrun in E. inversion E; subst. exact (extends_wf _ _ He'). }
      assert (Hb128 : byteZ "b" < 128) by (vm_compute; reflexivity).
      assert (R : rewrites (p ++ "["%char :: cls ++ "\"%char :: "b"%char :: rest)
                           (buffer X) (errors X)).
      { apply (rewrites_passes p ep); auto.
        - right. reflexivity.
        - intros loop' HL Ht. apply passes_bracket; auto.
          + apply classBody_asciiHead; [exact Hcls | apply backslash_ascii].
          + apply passes_classBody; [exact Hcls | apply backslash_ascii|].
            cbn [cursor]. apply passes_class_escape; auto. }
      rewrite Hb, He in R. rewrite <- !app_assoc in R. exact R. }
    split; reflexivity.
Qed.

End ScanFacts.

(** *** Runs on concrete patterns *)

(** The ASCII range of the lexer's [isIdentifierPart]: [$], [_], [\],
    letters and digits.  It is the classifier of the runs below. *)
Definition isIdentifierPartASCII (chr : Z) : bool :=
  (chr =? rune "$") || (chr =? rune "_") || (chr =? rune "\")
  || ((rune "a" <=? chr) && (chr <=? rune "z"))
  || ((rune "A" <=? chr) && (chr <=? rune "Z"))
  || ((rune "0" <=? chr) && (chr <=? rune "9")).




Lemma TransformRegExp_terminates_witness :
  let s := read (newParser (bytes "(a)b")) in
  wf s /\ chr s <> EOF /\
  exists s', scanGroup isIdentifierPartASCII (S (remaining s)) (pass s) = Some s' /\
             wf s' /\ chrOffset s <= chrOffset s'.
Proof.
  intros s.
  assert (Hw : wf s)
    by (unfold s, wf; simpl; unfold len, byteAt, byteZ; simpl;
        split; [reflexivity | right; lia]).
  assert (Hc : chr s <> EOF) by (vm_compute; discriminate).
  split; [exact Hw|]. split; [exact Hc|].
  exact (proj1 (proj2 (proj2 (proj2 (proj2
           (TransformRegExp_terminates isIdentifierPartASCII))))) s Hw Hc).
Defined.


Lemma plain_letter c :
  (rune "a" <=? byteZ c) && (byteZ c <=? rune "z") = true -> plain c.
Proof.
  rewrite andb_true_iff, !Z.leb_le. unfold plain, rune.
  change (byteZ "a") with 97. change (byteZ "z") with 122.
  change (byteZ "\") with 92. change (byteZ "(") with 40.
  change (byteZ "[") with 91. change (byteZ ")") with 41. lia.
Qed.



Lemma scanEscape_backreference_witness :
  isOctal "1"%char /\ "1"%char <> "0"%char /\ noDigitNext 8 (bytes "a") /\
  (remaining (cur (bytes "\") "1"%char (bytes "a") [] false []) < 3)%nat /\
  exists s',
    scanEscape isIdentifierPartASCII 3 false
               (cur (bytes "\") "1"%char (bytes "a") [] false []) = Some s' /\
    buffer s' = bytes "\1" /\
    errors s' = [bytes "re2: Invalid \1 <backreference>"] /\
    invalid s' = false.
Proof.
  assert (H1 : isOctal "1"%char) by (unfold isOctal; simpl; tauto).
  assert (H2 : "1"%char <> "0"%char) by discriminate.
  assert (H3 : noDigitNext 8 (bytes "a")) by (vm_compute; discriminate).
  assert (H4 : (remaining (cur (bytes "\") "1"%char (bytes "a") [] false []) < 3)%nat)
    by (vm_compute; lia).
  split; [exact H1|]. split; [exact H2|]. split; [exact H3|]. split; [exact H4|].
  exact (proj1 (scanEscape_backreference isIdentifierPartASCII)
               3%nat false (bytes "\") "1"%char (bytes "a") [] false [] H1 H2 H3 H4).
Defined.

Lemma scanEscape_octal_witness :
  isOctal "1"%char /\ isOctal "2"%char /\ noDigitNext 8 (bytes "a") /\
  (remaining (cur (bytes "\") "1"%char (bytes "2a") [] false []) < 4)%nat /\
  exists s',
    scanEscape isIdentifierPartASCII 4 false
               (cur (bytes "\") "1"%char (bytes "2a") [] false []) = Some s' /\
    buffer s' = bytes "\x0a" /\ errors s' = [] /\ invalid s' = false.
Proof.
  assert (H1 : isOctal "1"%char) by (unfold isOctal; simpl; tauto).
  assert (H2 : isOctal "2"%char) by (unfold isOctal; simpl; tauto).
  assert (H3 : noDigitNext 8 (bytes "a")) by (vm_compute; discriminate).
  assert (H4 : (remaining (cur (bytes "\") "1"%char (bytes "2a") [] false []) < 4)%nat)
    by (vm_compute; lia).
  split; [exact H1|]. split; [exact H2|]. split; [exact H3|]. split; [exact H4|].
  exact (proj1 (scanEscape_octal isIdentifierPartASCII)
               4%nat false (bytes "\") "1"%char "2"%char (bytes "a") [] false []
               H1 H2 H3 H4).
Defined.

(** C6, as stated, fails: the escape [\400] has three octal digits and its
    output [\x100] has three hexadecimal digits, not two. *)
Lemma scanEscape_octal_counterexample :
  TransformRegExp isIdentifierPartASCII (bytes "\400") = Some (bytes "\x100", None) /\
  forall h1 h2 : ascii, bytes "\x100" <> bytes "\x" ++ [h1; h2].
Proof.
  split; [reflexivity|]. intros h1 h2. discriminate.
Qed.

Lemma scanEscape_unicode_witness :
  isHex "0"%char /\ isHex "4"%char /\ isHex "1"%char /\
  exists s',
    scanEscape isIdentifierPartASCII 0 false
               (cur (bytes "\") "u"%char (bytes "0041") [] false []) = Some s' /\
    buffer s' = bytes "\x{0041}" /\ errors s' = [] /\ invalid s' = false.
Proof.
  assert (H0 : isHex "0"%char) by (vm_compute; reflexivity).
  assert (H4 : isHex "4"%char) by (vm_compute; reflexivity).
  assert (H1 : isHex "1"%char) by (vm_compute; reflexivity).
  split; [exact H0|]. split; [exact H4|]. split; [exact H1|].
  exact (proj1 (scanEscape_unicode isIdentifierPartASCII)
               0%nat false (bytes "\") "0"%char "0"%char "4"%char "1"%char
               [] [] false [] H0 H0 H4 H1).
Defined.

Lemma nested_example : nested (bytes "a(") [].
Proof.
  apply (nested_group (bytes "a") [] [] []).
  - apply copied_char; [apply plain_letter; reflexivity | apply copied_nil].
  - apply nested_top, copied_nil.
Qed.

Lemma scanEscape_b_witness :
  (Forall plain (bytes "a") /\ Forall classPlain (bytes "x") /\
   rewrites isIdentifierPartASCII (bytes "a[x\b]") (bytes "a[x\x08") []) /\
  (nested (bytes "a(") [] /\
   rewrites isIdentifierPartASCII (bytes "a(\b)") (bytes "a(\b") []) /\
  (nested (bytes "a(") [] /\ classBody (bytes "x") /\
   rewrites isIdentifierPartASCII (bytes "a([x\b])") (bytes "a([x\x08") []).
Proof.
  assert (Hp : Forall plain (bytes "a"))
    by (constructor; [apply plain_letter; reflexivity | constructor]).
  assert (Hc : Forall classPlain (bytes "x"))
    by (constructor; [vm_compute; repeat split; discriminate | constructor]).
  assert (Hb : classBody (bytes "x")).
  { apply classBody_char; [vm_compute; repeat split; discriminate | apply classBody_nil]. }
  destruct (scanEscape_b isIdentifierPartASCII)
    as (_ & _ & _ & _ & Hclass & _ & _ & _ & _ & _ & Hgroup & Hgclass & _).
  split; [|split].
  - split; [exact Hp|]. split; [exact Hc|].
    exact (Hclass (bytes "a") (bytes "x") (bytes "]") Hp Hc).
  - split; [exact nested_example|].
    exact (Hgroup (bytes "a(") [] (bytes ")") nested_example).
  - split; [exact nested_example|]. split; [exact Hb|].
    exact (Hgclass (bytes "a(") [] (bytes "x") (bytes "])") nested_example Hb).
Defined.

Lemma scanEscape_class_escape_witness :
  Forall plain (bytes "a") /\ In "d"%char classEscapes /\
  rewrites isIdentifierPartASCII (bytes "a\db") (bytes "a\d") [].
Proof.
  assert (Hp : Forall plain (bytes "a"))
    by (constructor; [apply plain_letter; reflexivity | constructor]).
  assert (Hc : In "d"%char classEscapes) by (unfold classEscapes; simpl; tauto).
  split; [exact Hp|]. split; [exact Hc|].
  exact (proj2 (scanEscape_class_escape isIdentifierPartASCII)
               (bytes "a") "d"%char (bytes "b") Hp Hc).
Defined.

Lemma scanEscape_other_witness :
  Forall plain (bytes "a") /\ byteZ "."%char < 128 /\ ~ In "."%char escapeCases /\
  rewrites isIdentifierPartASCII (bytes "a\.b") (bytes "a\.") [].
Proof.
  assert (Hp : Forall plain (bytes "a"))
    by (constructor; [apply plain_letter; reflexivity | constructor]).
  assert (Ha : byteZ "."%char < 128) by (vm_compute; reflexivity).
  assert (Hn : ~ In "."%char escapeCases).
  { unfold escapeCases, classEscapes. simpl.
    intros H. repeat (destruct H as [H | H]; [discriminate|]). exact H. }
  split; [exact Hp|]. split; [exact Ha|]. split; [exact Hn|].
  exact (proj2 (scanEscape_other isIdentifierPartASCII)
               (bytes "a") "."%char (bytes "b") Hp Ha Hn).
Defined.

Lemma TransformRegExp_trailing_backslash_witness :
  Forall plain (bytes "ab") /\
  TransformRegExp isIdentifierPartASCII (bytes "ab\") = Some (bytes "ab\", None).
Proof.
  assert (Hp : Forall plain (bytes "ab"))
    by (repeat constructor; apply plain_letter; reflexivity).
  split; [exact Hp|].
  exact (TransformRegExp_trailing_backslash isIdentifierPartASCII (bytes "ab") Hp).
Defined.

Lemma scanEscape_hex_witness :
  Forall plain (bytes "a") /\ isHex "4"%char /\ isHex "f"%char /\
  rewrites isIdentifierPartASCII (bytes "a\x4fz") (bytes "a\x4f") [].
Proof.
  assert (Hp : Forall plain (bytes "a"))
    by (constructor; [apply plain_letter; reflexivity | constructor]).
  assert (H4 : isHex "4"%char) by (vm_compute; reflexivity).
  assert (Hf : isHex "f"%char) by (vm_compute; reflexivity).
  split; [exact Hp|]. split; [exact H4|]. split; [exact Hf|].
  exact (proj2 (scanEscape_hex isIdentifierPartASCII)
               (bytes "a") "4"%char "f"%char (bytes "z") Hp H4 Hf).
Defined.

Lemma scanEscape_incomplete_hex_witness :
  Forall plain (bytes "a") /\ Forall isHex (bytes "4") /\
  (List.length (bytes "4") < 2)%nat /\ noDigitNext 16 (bytes "z") /\
  rewrites isIdentifierPartASCII (bytes "a\x4z") (bytes "ax4") [].
Proof.
  assert (Hp : Forall plain (bytes "a"))
    by (constructor; [apply plain_letter; reflexivity | constructor]).
  assert (Hh : Forall isHex (bytes "4"))
    by (constructor; [vm_compute; reflexivity | constructor]).
  assert (Hl : (List.length (bytes "4") < 2)%nat) by (simpl; lia).
  assert (Hn : noDigitNext 16 (bytes "z")) by (vm_compute; discriminate).
  split; [exact Hp|]. split; [exact Hh|]. split; [exact Hl|]. split; [exact Hn|].
  exact (proj2 (scanEscape_incomplete_hex isIdentifierPartASCII)
               (bytes "a") "x"%char 2%nat (bytes "4") (bytes "z")
               (or_introl (conj eq_refl eq_refl)) Hp Hh Hl Hn).
Defined.

Lemma scanEscape_decimal_witness :
  Forall plain (bytes "a") /\ Forall isDecimal (bytes "9") /\
  noDigitNext 10 (bytes "z") /\
  rewrites isIdentifierPartASCII (bytes "a\89z") (bytes "a\89")
           [bytes "re2: Invalid \89 <backreference>"].
Proof.
  assert (Hp : Forall plain (bytes "a"))
    by (constructor; [apply plain_letter; reflexivity | constructor]).
  assert (Hd : Forall isDecimal (bytes "9"))
    by (constructor; [vm_compute; reflexivity | constructor]).
  assert (Hn : noDigitNext 10 (bytes "z")) by (vm_compute; discriminate).
  split; [exact Hp|]. split; [exact Hd|]. split; [exact Hn|].
  exact (proj2 (scanEscape_decimal isIdentifierPartASCII)
               (bytes "a") "8"%char (bytes "9") (bytes "z") Hp
               (or_introl eq_refl) Hd Hn).
Defined.

Lemma scanEscape_octal_digits_witness :
  Forall plain (bytes "a") /\ isOctal "4"%char /\ Forall isOctal (bytes "00") /\
  bytes "00" <> [] /\ noDigitNext 8 (bytes "z") /\
  rewrites isIdentifierPartASCII (bytes "a\400z") (bytes "a\x100") [].
Proof.
  assert (Hp : Forall plain (bytes "a"))
    by (constructor; [apply plain_letter; reflexivity | constructor]).
  assert (H4 : isOctal "4"%char) by (unfold isOctal; simpl; tauto).
  assert (H0 : Forall isOctal (bytes "00"))
    by (repeat constructor; unfold isOctal; simpl; tauto).
  assert (Hne : bytes "00" <> []) by discriminate.
  assert (Hn : noDigitNext 8 (bytes "z")) by (vm_compute; discriminate).
  split; [exact Hp|]. split; [exact H4|]. split; [exact H0|].
  split; [exact Hne|]. split; [exact Hn|].
  exact (proj2 (proj2 (proj2 (scanEscape_octal_digits isIdentifierPartASCII)))
               (bytes "a") "4"%char (bytes "00") (bytes "z") Hp H4 H0 Hne Hn).
Defined.

Lemma scanEscape_control_witness :
  Forall plain (bytes "a") /\ isLetter "J"%char /\
  rewrites isIdentifierPartASCII (bytes "a\cJz") (bytes "a\x0a") [].
Proof.
  assert (Hp : Forall plain (bytes "a"))
    by (constructor; [apply plain_letter; reflexivity | constructor]).
  assert (Hl : isLetter "J"%char) by (right; vm_compute; split; discriminate).
  split; [exact Hp|]. split; [exact Hl|].
  exact (proj1 (proj2 (proj2 (scanEscape_control isIdentifierPartASCII)))
               (bytes "a") "J"%char (bytes "z") Hp Hl).
Defined.

Lemma scanEscape_never_invalid_witness :
  let s := read (read (newParser (bytes "\19"))) in
  wf s /\ (remaining s < 3)%nat /\
  exists s',
    scanEscape isIdentifierPartASCII 3 false s = Some s' /\
    str s' = str s /\ invalid s' = invalid s /\
    exists es bs,
      errors s' = errors s ++ es /\ buffer s' = buffer s ++ bs /\
      forall e, In e es ->
                e <> msg_Unmatched /\ e <> msg_UnterminatedGroup
                /\ e <> msg_UnterminatedClass.
Proof.
  intros s.
  assert (Hw : wf s)
    by (unfold s, wf; simpl; unfold len, byteAt, byteZ; simpl;
        split; [reflexivity | right; lia]).
  assert (Hf : (remaining s < 3)%nat) by (vm_compute; lia).
  split; [exact Hw|]. split; [exact Hf|].
  exact (scanEscape_never_invalid isIdentifierPartASCII 3 false s Hw Hf).
Defined.

Lemma noBrackets_example : noBrackets (bytes "\1a\cb").
Proof.
  intros c H. simpl in H.
  repeat (destruct H as [<- | H]; [repeat split; discriminate|]). contradiction.
Qed.

Lemma TransformRegExp_without_brackets_witness :
  noBrackets (bytes "\1a\cb") /\
  exists s,
    scanned isIdentifierPartASCII (bytes "\1a\cb") s /\ invalid s = false /\
    existsb isInvalidMsg (errors s) = false /\
    TransformRegExp isIdentifierPartASCII (bytes "\1a\cb")
    = Some (buffer s, hd_error (errors s)).
Proof.
  split; [exact noBrackets_example|].
  exact (TransformRegExp_without_brackets isIdentifierPartASCII (bytes "\1a\cb")
                                          noBrackets_example).
Defined.

(** The pattern [(?=a)\1[b\d)]c]. *)
Lemma copied_example :
  copied (bytes "(?=a)\1[b\d)]c")
         [bytes "re2: Invalid (?=) <lookahead>"; bytes "re2: Invalid \1 <backreference>"].
Proof.
  assert (Hq : plain "?"%char) by (vm_compute; repeat split; discriminate).
  assert (He : plain "="%char) by (vm_compute; repeat split; discriminate).
  assert (Ha : plain "a"%char) by (apply plain_letter; reflexivity).
  assert (Hc : plain "c"%char) by (apply plain_letter; reflexivity).
  apply (copied_group (bytes "?=a") (bytes "\1[b\d)]c") []
                      [bytes "re2: Invalid \1 <backreference>"]).
  - apply copied_char; [exact Hq|]. apply copied_char; [exact He|].
    apply copied_char; [exact Ha|]. apply copied_nil.
  - apply (copied_backreference "1"%char (bytes "[b\d)]c") []).
    + unfold isOctal. simpl. tauto.
    + discriminate.
    + vm_compute. discriminate.
    + apply (copied_class (bytes "b\d)") (bytes "c") []).
      * apply classBody_char; [vm_compute; repeat split; discriminate|].
        apply classBody_escape; [unfold classEscapes; simpl; tauto|].
        apply classBody_char; [vm_compute; repeat split; discriminate|].
        apply classBody_nil.
      * apply copied_char; [exact Hc | apply copied_nil].
Qed.

Lemma TransformRegExp_copied_witness :
  copied (bytes "(?=a)\1[b\d)]c")
         [bytes "re2: Invalid (?=) <lookahead>"; bytes "re2: Invalid \1 <backreference>"] /\
  TransformRegExp isIdentifierPartASCII (bytes "(?=a)\1[b\d)]c")
  = Some (bytes "(?=a)\1[b\d)]c", Some (bytes "re2: Invalid (?=) <lookahead>")).
Proof.
  split; [exact copied_example|].
  exact (TransformRegExp_copied isIdentifierPartASCII _ _ copied_example).
Defined.

(** The pattern [a], an [e] with an acute accent (C3 A9), the stray byte
    FF, [b]. *)
Definition textExample : gostring :=
  ["a"%char; ascii_of_nat 195; ascii_of_nat 169; ascii_of_nat 255; "b"%char].

Lemma noSpecial_example : noSpecial textExample.
Proof.
  intros c H. simpl in H.
  repeat (destruct H as [<- | H]; [repeat split; discriminate|]). contradiction.
Qed.

Lemma TransformRegExp_text_witness :
  noSpecial textExample /\
  TransformRegExp isIdentifierPartASCII textExample
  = Some (["a"%char; ascii_of_nat 195; ascii_of_nat 169;
           ascii_of_nat 239; ascii_of_nat 191; ascii_of_nat 189; "b"%char],
          Some (bytes "RuneError")).
Proof.
  split; [exact noSpecial_example|].
  exact (proj1 (TransformRegExp_text isIdentifierPartASCII textExample
                                     noSpecial_example)).
Defined.


End RegExpFacts.

(** ** Positions and parse errors *)

Module ParserFacts.
Import Parser.

(** *** Line terminators among the characters of [range] *)

(** The line terminators: [\n], [\r], U+2028 and U+2029. *)
Definition isLineTerminator (c : Z) : bool :=
  (c =? LF) || (c =? CR) || (c =? LS) || (c =? PS).

(** The number of line terminators in a sequence of characters, the pair
    [\r\n] counted as one: a [\n] that directly follows a [\r] belongs to
    the terminator counted at the [\r].  [prev] is the character before
    the sequence. *)
Fixpoint rune_lineTerminators (prev : Z) (chars : list Z) : Z :=
  match chars with
  | [] => 0
  | c :: chars' =>
    (if isLineTerminator c && negb ((c =? LF) && (prev =? CR)) then 1 else 0)
    + rune_lineTerminators c chars'
  end.

(** The byte offset at which the current line starts: just after the
    encoding of the last line terminator, or [start] when there is none.
    The characters come with their byte offsets. *)
Fixpoint rune_lineStart (chars : list (Z * Z)) (start : Z) : Z :=
  match chars with
  | [] => start
  | (index, c) :: chars' =>
    rune_lineStart chars'
      (if isLineTerminator c then index + len (utf8.EncodeRune c) else start)
  end.

(** No character: what precedes the first character of a source. *)
Definition noChar : Z := -1.

Lemma lineCountStep_spec line last pair_ prev index c :
  pair_ = (prev =? CR) ->
  lineCountStep (line, last, pair_) (index, c)
  = (line + (if isLineTerminator c && negb ((c =? LF) && (prev =? CR))
             then 1 else 0),
     (if isLineTerminator c then index + len (utf8.EncodeRune c) else last + 1) - 1,
     c =? CR).
Proof.
  intros ->. unfold lineCountStep, isLineTerminator.
  destruct (Z.eqb_spec c CR) as [-> | Hcr].
  { change (len (utf8.EncodeRune CR)) with 1. simpl. f_equal. f_equal. lia. }
  destruct (Z.eqb_spec c LF) as [-> | Hlf].
  { change (len (utf8.EncodeRune LF)) with 1. cbn [orb andb].
    destruct (prev =? CR); cbn [negb]; f_equal; f_equal; lia. }
  destruct (Z.eqb_spec c LS) as [-> | Hls].
  { change (len (utf8.EncodeRune LS)) with 3. simpl. f_equal. f_equal. lia. }
  destruct (Z.eqb_spec c PS) as [-> | Hps].
  { change (len (utf8.EncodeRune PS)) with 3. simpl. f_equal. f_equal. lia. }
  simpl. f_equal. f_equal; lia.
Qed.

Lemma lineCount_fold chars : forall line last pair_ prev,
  pair_ = (prev =? CR) ->
  exists pair',
    fold_left lineCountStep chars (line, last, pair_)
    = (line + rune_lineTerminators prev (map snd chars),
       rune_lineStart chars (last + 1) - 1, pair').
Proof.
  induction chars as [|[index c] chars IH]; intros line last pair_ prev Hp.
  - exists pair_. simpl. f_equal. f_equal; lia.
  - cbn [fold_left map snd rune_lineTerminators rune_lineStart].
    rewrite (lineCountStep_spec line last pair_ prev index c Hp).
    destruct (IH (line + (if isLineTerminator c
                                && negb ((c =? LF) && (prev =? CR)) then 1 else 0))
                 ((if isLineTerminator c
                   then index + len (utf8.EncodeRune c) else last + 1) - 1)
                 (c =? CR) c eq_refl) as (pair' & ->).
    exists pair'. f_equal. f_equal; [lia|].
    f_equal. f_equal. lia.
Qed.

Lemma rune_lineTerminators_nonneg chars : forall prev,
  0 <= rune_lineTerminators prev chars.
Proof.
  induction chars as [|c chars IH]; intros prev; simpl; [lia|].
  specialize (IH c).
  destruct (isLineTerminator c && negb ((c =? LF) && (prev =? CR))); lia.
Qed.

Lemma lineCount_spec str :
  lineCount str
  = (rune_lineTerminators noChar (map snd (range str)),
     rune_lineStart (range str) 0 - 1).
Proof.
  unfold lineCount.
  destruct (lineCount_fold (range str) 0 (-1) false noChar eq_refl) as (pair' & ->).
  reflexivity.
Qed.

(** Every character of [range] lies in the string, and so does the
    encoding of every line terminator found. *)
Definition inRange (lo hi : Z) (ic : Z * Z) : Prop :=
  lo <= fst ic /\
  (isLineTerminator (snd ic) = true ->
   fst ic + len (utf8.EncodeRune (snd ic)) <= hi).

Lemma terminator_width l c w :
  l <> [] -> utf8.DecodeRuneInString l = (c, w) ->
  isLineTerminator c = true -> len (utf8.EncodeRune c) <= len l.
Proof.
  intros Hl Hd Ht. pose proof (DecodeRuneInString_decoded l Hl) as H.
  rewrite Hd in H.
  assert (Hpos : 1 <= len l).
  { destruct l; [congruence|]. rewrite len_cons. pose proof (len_nonneg l). lia. }
  unfold isLineTerminator in Ht. rewrite !orb_true_iff, !Z.eqb_eq in Ht.
  destruct Ht as [[[-> | ->] | ->] | ->].
  - change (len (utf8.EncodeRune LF)) with 1. lia.
  - change (len (utf8.EncodeRune CR)) with 1. lia.
  - change (len (utf8.EncodeRune LS)) with 3.
    inversion H; subst; unfold LS, utf8.RuneError in *; try lia;
      Z.div_mod_to_equations; lia.
  - change (len (utf8.EncodeRune PS)) with 3.
    inversion H; subst; unfold PS, utf8.RuneError in *; try lia;
      Z.div_mod_to_equations; lia.
Qed.

Lemma Forall_inRange_weaken lo lo' hi l :
  lo <= lo' -> Forall (inRange lo' hi) l -> Forall (inRange lo hi) l.
Proof.
  intros Hle H. induction H; constructor; auto.
  destruct H as (H1 & H2). split; [lia | exact H2].
Qed.

Lemma rangeFrom_inRange rest : forall index inside,
  Forall (inRange index (index + len rest)) (rangeFrom rest index inside).
Proof.
  induction rest as [|b rest IH]; intros index inside; [constructor|].
  cbn [rangeFrom]. rewrite len_cons.
  assert (Htail : forall k, Forall (inRange index (index + (1 + len rest)))
                                   (rangeFrom rest (index + 1) k)).
  { intros k. apply Forall_inRange_weaken with (lo' := index + 1); [lia|].
    replace (index + (1 + len rest)) with (index + 1 + len rest) by lia.
    apply IH. }
  destruct inside as [|inside]; [|apply Htail].
  destruct (utf8.DecodeRuneInString (b :: rest)) as [c w] eqn:Hd.
  constructor; [|apply Htail].
  split; cbn [fst snd]; [lia|].
  intros Ht.
  pose proof (terminator_width (b :: rest) c w ltac:(discriminate) Hd Ht) as Hw.
  rewrite len_cons in Hw. lia.
Qed.

Lemma rune_lineStart_bounds chars : forall hi start,
  Forall (inRange 0 hi) chars -> 0 <= start <= hi ->
  0 <= rune_lineStart chars start <= hi.
Proof.
  induction chars as [|[index c] chars IH]; intros hi start Hall Hs; simpl; [lia|].
  inversion Hall as [|x l Hx Hl]; subst. destruct Hx as (H1 & H2). cbn [fst snd] in *.
  apply IH; auto.
  destruct (isLineTerminator c) eqn:E; [|lia].
  specialize (H2 eq_refl). pose proof (len_nonneg (utf8.EncodeRune c)). lia.
Qed.

(** *** The specification's reading of a position, on the bytes *)

(** U+2028 is encoded as the bytes E2 80 A8 and U+2029 as E2 80 A9. *)
Definition startsLSPS (l : gostring) : bool :=
  match l with
  | b0 :: b1 :: b2 :: _ =>
    (byteZ b0 =? 226) && (byteZ b1 =? 128)
    && ((byteZ b2 =? 168) || (byteZ b2 =? 169))
  | _ => false
  end.

(** A line terminator of the specification starts at the head of [l]:
    [\r], [\n], U+2028 or U+2029.  [afterCR] tells that the byte before
    is a [\r]: a [\n] there is the second half of the pair [\r\n], which
    counts as one and was counted at the [\r]. *)
Definition spec_terminatorAt (afterCR : bool) (l : gostring) : bool :=
  match l with
  | [] => false
  | b :: _ =>
    (byteZ b =? 13) || ((byteZ b =? 10) && negb afterCR) || startsLSPS l
  end.

(** The number of line terminators in [l]. *)
Fixpoint spec_lineTerminators (afterCR : bool) (l : gostring) : Z :=
  match l with
  | [] => 0
  | b :: l' =>
    (if spec_terminatorAt afterCR l then 1 else 0)
    + spec_lineTerminators (byteZ b =? 13) l'
  end.

(** The byte offset at which the current line starts: just after the last
    byte of the last line terminator, or [start] when there is none.
    [index] is the offset of the head of [l]. *)
Fixpoint spec_lineStart (l : gostring) (index start : Z) : Z :=
  match l with
  | [] => start
  | b :: l' =>
    spec_lineStart l' (index + 1)
      (if (byteZ b =? 13) || (byteZ b =? 10) then index + 1
       else if startsLSPS l then index + 3
       else start)
  end.

(** The bytes of a character after the first: [inside] continuation
    bytes at the head of [l]. *)
Fixpoint continuation (inside : nat) (l : gostring) : Prop :=
  match inside with
  | O => True
  | S inside' =>
    match l with
    | [] => False
    | b :: l' => 128 <= byteZ b <= 191 /\ continuation inside' l'
    end
  end.

Lemma startsLSPS_head b l : byteZ b <> 226 -> startsLSPS (b :: l) = false.
Proof.
  intros H. destruct l as [|b1 [|b2 l]]; simpl; auto.
  apply Z.eqb_neq in H. rewrite H. reflexivity.
Qed.

Lemma Decode_LSPS b0 b1 b2 t :
  startsLSPS (b0 :: b1 :: b2 :: t) = true ->
  utf8.DecodeRuneInString (b0 :: b1 :: b2 :: t)
  = (if byteZ b2 =? 168 then LS else PS, 3).
Proof.
  cbn [startsLSPS]. rewrite !andb_true_iff, orb_true_iff, !Z.eqb_eq.
  intros ((H0 & H1) & H2).
  pose proof (len_nonneg t) as Ht.
  assert (E1 : byteAt (b0 :: b1 :: b2 :: t) 1 = byteZ b1) by reflexivity.
  assert (E2 : byteAt (b0 :: b1 :: b2 :: t) 2 = byteZ b2) by reflexivity.
  unfold utf8.DecodeRuneInString. rewrite rune3, E1, E2.
  rewrite !len_cons. rewrite H0, H1.
  change (utf8.first 226) with utf8.s3.
  change (utf8.s3 >=? utf8.as_) with false.
  change (Z.land utf8.s3 7) with 3.
  change (utf8.acceptRanges (Z.shiftr utf8.s3 4)) with (utf8.locb, utf8.hicb).
  cbv iota beta.
  replace (1 + (1 + (1 + len t)) <? 3) with false by (symmetry; apply Z.ltb_ge; lia).
  change (128 <? utf8.locb) with false. change (utf8.hicb <? 128) with false.
  cbn [orb]. change (3 <=? 2) with false. change (3 <=? 3) with true. cbv iota.
  destruct H2 as [H2 | H2]; rewrite H2; reflexivity.
Qed.

Ltac solve_beq :=
  repeat match goal with
         | |- context [?x =? ?y] => destruct (Z.eqb_spec x y)
         end;
  cbn [orb andb negb]; first [reflexivity | lia | exfalso; lia].

(** How the first character of a string reads as bytes. *)
Lemma Decode_classify b rest c w :
  utf8.DecodeRuneInString (b :: rest) = (c, w) ->
  (byteZ b =? 13) = (c =? CR) /\
  (byteZ b =? 10) = (c =? LF) /\
  startsLSPS (b :: rest) = ((c =? LS) || (c =? PS)) /\
  1 <= w /\ continuation (Z.to_nat w - 1) rest /\
  (1 < w -> 128 <= c).
Proof.
  intros Hd.
  pose proof (DecodeRuneInString_decoded (b :: rest) ltac:(discriminate)) as H.
  rewrite Hd in H.
  destruct (startsLSPS (b :: rest)) eqn:Els.
  { destruct rest as [|b1 [|b2 t]]; try discriminate.
    rewrite (Decode_LSPS b b1 b2 t Els) in Hd.
    cbn [startsLSPS] in Els. rewrite !andb_true_iff, orb_true_iff, !Z.eqb_eq in Els.
    destruct Els as ((H0 & H1) & H2).
    inversion Hd; subst c w. rewrite H0.
    cbn [continuation Z.to_nat Pos.to_nat Pos.iter_op Nat.add Nat.sub].
    destruct H2 as [H2 | H2]; rewrite H2; cbn; repeat split; auto; try lia;
      rewrite ?H1, ?H2; unfold LS, PS; lia. }
  assert (Hb : byteAt (b :: rest) 0 = byteZ b) by reflexivity.
  assert (H1 : byteAt (b :: rest) 1 = match rest with [] => 0 | b1 :: _ => byteZ b1 end)
    by (destruct rest; reflexivity).
  assert (H2 : byteAt (b :: rest) 2
               = match rest with _ :: b2 :: _ => byteZ b2 | _ => 0 end)
    by (destruct rest as [|? [|? ?]]; reflexivity).
  assert (H3 : byteAt (b :: rest) 3
               = match rest with _ :: _ :: b3 :: _ => byteZ b3 | _ => 0 end)
    by (destruct rest as [|? [|? [|? ?]]]; reflexivity).
  pose proof (byteZ_range b) as Hr.
  unfold CR, LF, LS, PS.
  inversion H as [Ha | Ha | Ha Hl Hs1 | Ha Hl Hs1 Hx Hy Hs2
                  | Ha Hl Hs1 Hx Hy Hs2 Hs3]; subst; rewrite ?Hb in *.
  - (* ASCII *)
    cbn [continuation Z.to_nat Pos.to_nat Nat.sub].
    repeat split; try lia; solve_beq.
  - (* an invalid byte *)
    cbn [continuation Z.to_nat Pos.to_nat Nat.sub]. unfold utf8.RuneError.
    repeat split; try lia; solve_beq.
  - (* two bytes *)
    destruct rest as [|b1 t]; [rewrite len_cons in Hl; unfold len in Hl; simpl in Hl; lia|].
    rewrite H1 in *.
    cbn [continuation Z.to_nat Pos.to_nat Pos.iter_op Nat.add Nat.sub].
    assert (Hc : 128 <= byteZ b mod 32 * 64 + byteZ b1 mod 64 < 2048)
      by (Z.div_mod_to_equations; lia).
    repeat split; try lia; solve_beq.
  - (* three bytes *)
    destruct rest as [|b1 [|b2 t]];
      try (rewrite !len_cons in Hl; unfold len in Hl; simpl in Hl; lia).
    rewrite H1, H2 in *.
    cbn [continuation Z.to_nat Pos.to_nat Pos.iter_op Nat.add Nat.sub].
    assert (Hc : 128 <= (byteZ b mod 16 * 64 + byteZ b1 mod 64) * 64 + byteZ b2 mod 64)
      by (Z.div_mod_to_equations; lia).
    assert (Hno : (byteZ b mod 16 * 64 + byteZ b1 mod 64) * 64 + byteZ b2 mod 64 <> 8232
                  /\ (byteZ b mod 16 * 64 + byteZ b1 mod 64) * 64 + byteZ b2 mod 64 <> 8233).
    { cbn [startsLSPS] in Els.
      pose proof (byteZ_range b1). pose proof (byteZ_range b2).
      split; intros E;
        assert (byteZ b = 226 /\ byteZ b1 = 128 /\
                (byteZ b2 = 168 \/ byteZ b2 = 169))
          as (E0 & E1 & E2) by (Z.div_mod_to_equations; lia);
        rewrite E0, E1 in Els;
        destruct E2 as [E2 | E2]; rewrite E2 in Els; discriminate. }
    destruct Hno as (Hno1 & Hno2).
    repeat split; try lia; solve_beq.
  - (* four bytes *)
    destruct rest as [|b1 [|b2 [|b3 t]]];
      try (rewrite !len_cons in Hl; unfold len in Hl; simpl in Hl; lia).
    rewrite H1, H2, H3 in *.
    cbn [continuation Z.to_nat Pos.to_nat Pos.iter_op Nat.add Nat.sub].
    assert (Hc : 65536 <= ((byteZ b mod 8 * 64 + byteZ b1 mod 64) * 64
                           + byteZ b2 mod 64) * 64 + byteZ b3 mod 64)
      by (Z.div_mod_to_equations; lia).
    repeat split; try lia; solve_beq.
Qed.

(** The count on the bytes is the count on the characters of [range]. *)
Lemma bytes_as_runes rest : forall index inside prev afterCR start,
  afterCR = (prev =? CR) ->
  (inside <> O -> (prev =? CR) = false) ->
  continuation inside rest ->
  spec_lineTerminators afterCR rest
  = rune_lineTerminators prev (map snd (rangeFrom rest index inside)) /\
  spec_lineStart rest index start
  = rune_lineStart (rangeFrom rest index inside) start.
Proof.
  induction rest as [|b rest IH]; intros index inside prev afterCR start Hp Hin Hc.
  - split; reflexivity.
  - destruct inside as [|inside].
    + cbn [rangeFrom].
      destruct (utf8.DecodeRuneInString (b :: rest)) as [c w] eqn:Hd.
      destruct (Decode_classify b rest c w Hd) as (H13 & H10 & Hls & Hw & Hcont & Hbig).
      cbn [map snd rune_lineTerminators rune_lineStart
           spec_lineTerminators spec_lineStart spec_terminatorAt].
      destruct (IH (index + 1) (Z.to_nat w - 1)%nat c (byteZ b =? 13)
                   (if isLineTerminator c then index + len (utf8.EncodeRune c)
                    else start))
        as (IH1 & IH2); auto.
      { intros Hne. apply Z.eqb_neq. assert (1 < w) by lia.
        specialize (Hbig H). unfold CR. lia. }
      rewrite IH1, <- IH2. rewrite Hls, H13, H10, Hp.
      unfold isLineTerminator.
      split.
      * f_equal.
        destruct (Z.eqb_spec c CR) as [-> | ?]; [reflexivity|].
        destruct (Z.eqb_spec c LF) as [-> | ?];
          [destruct (prev =? CR); reflexivity|].
        destruct (Z.eqb_spec c LS) as [-> | ?]; [reflexivity|].
        destruct (Z.eqb_spec c PS) as [-> | ?]; reflexivity.
      * f_equal.
        destruct (Z.eqb_spec c CR) as [-> | ?]; [reflexivity|].
        destruct (Z.eqb_spec c LF) as [-> | ?]; [reflexivity|].
        destruct (Z.eqb_spec c LS) as [-> | ?]; [reflexivity|].
        destruct (Z.eqb_spec c PS) as [-> | ?]; reflexivity.
    + cbn [continuation] in Hc. destruct Hc as (Hb & Hc).
      cbn [rangeFrom spec_lineTerminators spec_lineStart spec_terminatorAt].
      rewrite startsLSPS_head by lia.
      replace (byteZ b =? 13) with false by (symmetry; apply Z.eqb_neq; lia).
      replace (byteZ b =? 10) with false by (symmetry; apply Z.eqb_neq; lia).
      cbn [orb andb]. rewrite Z.add_0_l.
      apply IH; auto. rewrite Hin; auto.
Qed.

Lemma lineCount_bytes str :
  lineCount str = (spec_lineTerminators false str, spec_lineStart str 0 0 - 1).
Proof.
  rewrite lineCount_spec.
  destruct (bytes_as_runes str 0 0%nat noChar false 0) as (-> & ->);
    [reflexivity | congruence | exact I |].
  reflexivity.
Qed.


Section PositionFacts.

Context {Scope : Type}.

(** The part of the source before offset [offset]. *)
Definition before (self : @_parser Scope) (offset : Z) : gostring :=
  firstn (Z.to_nat offset) (str self).

(** C5. For an index inside the source, [position] gives the line
    [1 + ] the number of line terminators before the index ([\n], [\r],
    [\r\n] counted once, U+2028, U+2029) and the column [1 + ] the byte
    offset of the index from the start of its line; both are at least 1. *)
Theorem position_line_column (self : @_parser Scope) (idx : Z) :
  let offset := idx - base self in
  0 <= offset <= len (str self) ->
  exists pos,
    position self idx = Some pos /\
    Filename pos = filename self /\
    Line pos = 1 + spec_lineTerminators false (before self offset) /\
    Column pos = (offset - spec_lineStart (before self offset) 0 0) + 1 /\
    1 <= Line pos /\ 1 <= Column pos <= offset + 1.
Proof.
  intros offset Ho. unfold position. fold offset.
  unfold slice.
  replace ((0 <=? 0) && (0 <=? offset) && (offset <=? len (str self))) with true
    by (symmetry; rewrite !andb_true_iff, !Z.leb_le; lia).
  rewrite Z.sub_0_r. cbn [skipn Z.to_nat]. fold (before self offset).
  assert (Hlen : len (before self offset) = offset).
  { unfold before, len. rewrite length_firstn. unfold len in Ho. lia. }
  pose proof (rangeFrom_inRange (before self offset) 0 0) as Hr.
  fold (range (before self offset)) in Hr. rewrite Z.add_0_l, Hlen in Hr.
  pose proof (rune_lineStart_bounds _ _ 0 Hr ltac:(lia)) as Hb.
  pose proof (rune_lineTerminators_nonneg
                (map snd (range (before self offset))) noChar) as Hn.
  pose proof (lineCount_spec (before self offset)) as Hrune.
  rewrite lineCount_bytes in Hrune. inversion Hrune as [[Hl Hs]].
  rewrite <- Hl in Hn.
  assert (Hs' : spec_lineStart (before self offset) 0 0
                = rune_lineStart (range (before self offset)) 0) by lia.
  rewrite <- Hs' in Hb.
  rewrite lineCount_bytes.
  set (start := spec_lineStart (before self offset) 0 0) in *.
  eexists. split; [reflexivity|]. cbn [Filename Line Column].
  split; [reflexivity|]. split; [reflexivity|].
  rewrite Hlen. rewrite Z.geb_leb.
  destruct (Z.leb_spec 0 (start - 1)); lia.
Qed.

End PositionFacts.

(** *** Parse errors *)

Section ErrorFacts.

Context {Scope : Type}.

Lemma newParser_filename (filename0 src : gostring) (base0 : Z) :
  filename (@_newParser Scope filename0 src base0) = [].
Proof. reflexivity. Qed.

Lemma error_fields (self self' : @_parser Scope) pl message err :
  error self pl message = Some (err, self') ->
  filename self' = filename self /\ str self' = str self /\ base self' = base self /\
  errors self' = errors self ++ [err] /\
  Message err = message /\ Filename (Position_ err) = filename self.
Proof.
  unfold error, position. intros H.
  destruct (match pl with
            | place_int offset => Some (idxOf self offset)
            | place_Idx idx0 =>
              if idx0 =? 0 then Some (idxOf self (chrOffset self)) else Some idx0
            | place_other => None
            end) as [idx0|]; [|discriminate].
  destruct (slice (str self) 0 (idx0 - base self)) as [str0|]; [|discriminate].
  destruct (lineCount str0) as [line last].
  inversion H; subst. simpl. auto 10.
Qed.

(** C3, on the code.  [_newParser] does not store its [filename]
    argument, so every error logged by a parser it made has an empty
    [Position.Filename] and is rendered with [(anonymous)], whatever the
    file name given to [ParseFile]. *)
Theorem Error_rendering_anonymous
        (filename0 src : gostring) (base0 : Z)
        (self self' : @_parser Scope) (pl : place) (message : gostring) (err : Error) :
  filename self = filename (@_newParser Scope filename0 src base0) ->
  error self pl message = Some (err, self') ->
  filename self' = filename self /\
  Error_Error err
  = bytes "(anonymous): Line "
          ++ strconv.FormatInt (Line (Position_ err)) 10 ++ bytes ":"
          ++ strconv.FormatInt (Column (Position_ err)) 10 ++ bytes " "
          ++ message.
Proof.
  intros Hf He. rewrite newParser_filename in Hf.
  destruct (error_fields self self' pl message err He)
    as (H1 & _ & _ & _ & Hm & Hn).
  split; [exact H1|].
  unfold Error_Error. rewrite Hn, Hf, Hm. reflexivity.
Qed.

End ErrorFacts.

(** *** Slices of the source *)

Section SliceFacts.

Context {Scope : Type}.

Lemma slice_parts (l : gostring) (lo hi : Z) :
  0 <= lo <= hi -> hi <= len l ->
  exists bs, slice l lo hi = Some bs /\ len bs = hi - lo /\
             l = firstn (Z.to_nat lo) l ++ bs ++ skipn (Z.to_nat hi) l.
Proof.
  intros H1 H2. unfold slice.
  replace ((0 <=? lo) && (lo <=? hi) && (hi <=? len l)) with true
    by (symmetry; rewrite !andb_true_iff, !Z.leb_le; lia).
  eexists. split; [reflexivity|]. unfold len in *. split.
  - rewrite length_firstn, length_skipn. lia.
  - rewrite <- (firstn_skipn (Z.to_nat lo) l) at 1. f_equal.
    rewrite <- (firstn_skipn (Z.to_nat (hi - lo)) (skipn (Z.to_nat lo) l)) at 1.
    f_equal. rewrite skipn_skipn. f_equal. lia.
Qed.

Lemma firstn_plus {A} (n m : nat) : forall l : list A,
  firstn (n + m) l = firstn n l ++ firstn m (skipn n l).
Proof.
  induction n as [|n IH]; intros l; [reflexivity|].
  destruct l as [|x l]; [destruct m; reflexivity|].
  cbn [Nat.add firstn skipn app]. f_equal. apply IH.
Qed.

(** X13. [slice(idx0, idx1)]: for indexes inside the source, in order, it
    returns the bytes between them; it returns the empty string when
    [idx0] is before the source or [idx1] after it; and it panics when
    both pass that test but [idx1] is before [idx0]. *)
Theorem slice_bounds (self : @_parser Scope) (idx0 idx1 : Z) :
  let from := idx0 - base self in
  let to := idx1 - base self in
  (0 <= from <= to -> to <= len (str self) ->
   exists bs, slice_ self idx0 idx1 = Some bs /\ len bs = idx1 - idx0 /\
              str self = firstn (Z.to_nat from) (str self) ++ bs
                                ++ skipn (Z.to_nat to) (str self)) /\
  (from < 0 \/ len (str self) < to -> slice_ self idx0 idx1 = Some []) /\
  (0 <= from -> to <= len (str self) -> to < from -> slice_ self idx0 idx1 = None).
Proof.
  intros from to. unfold slice_. fold from. fold to. rewrite Z.geb_leb.
  split; [|split].
  - intros H1 H2.
    replace ((0 <=? from) && (to <=? len (str self))) with true
      by (symmetry; rewrite andb_true_iff, !Z.leb_le; lia).
    destruct (slice_parts (str self) from to H1 H2) as (bs & -> & Hl & Hs).
    exists bs. split; [reflexivity|]. split; [unfold from, to in Hl; lia | exact Hs].
  - intros H.
    replace ((0 <=? from) && (to <=? len (str self))) with false; [reflexivity|].
    symmetry. rewrite andb_false_iff, !Z.leb_gt. lia.
  - intros H1 H2 H3.
    replace ((0 <=? from) && (to <=? len (str self))) with true
      by (symmetry; rewrite andb_true_iff, !Z.leb_le; lia).
    unfold slice.
    replace ((0 <=? from) && (from <=? to) && (to <=? len (str self))) with false;
      [reflexivity|].
    symmetry. rewrite !andb_false_iff, !Z.leb_gt. lia.
Qed.

(** X14. Adjacent slices join: for indexes [a <= b <= c] inside the
    source, [slice(a, c)] is [slice(a, b)] followed by [slice(b, c)]. *)
Theorem slice_join (self : @_parser Scope) (a b c : Z) :
  base self <= a -> a <= b -> b <= c -> c <= base self + len (str self) ->
  exists x y,
    slice_ self a b = Some x /\ slice_ self b c = Some y /\
    slice_ self a c = Some (x ++ y).
Proof.
  intros Ha Hab Hbc Hc. unfold slice_. rewrite !Z.geb_leb.
  replace ((0 <=? a - base self) && (b - base self <=? len (str self))) with true
    by (symmetry; rewrite andb_true_iff, !Z.leb_le; lia).
  replace ((0 <=? b - base self) && (c - base self <=? len (str self))) with true
    by (symmetry; rewrite andb_true_iff, !Z.leb_le; lia).
  replace ((0 <=? a - base self) && (c - base self <=? len (str self))) with true
    by (symmetry; rewrite andb_true_iff, !Z.leb_le; lia).
  unfold slice.
  replace ((0 <=? a - base self) && (a - base self <=? b - base self)
           && (b - base self <=? len (str self))) with true
    by (symmetry; rewrite !andb_true_iff, !Z.leb_le; lia).
  replace ((0 <=? b - base self) && (b - base self <=? c - base self)
           && (c - base self <=? len (str self))) with true
    by (symmetry; rewrite !andb_true_iff, !Z.leb_le; lia).
  replace ((0 <=? a - base self) && (a - base self <=? c - base self)
           && (c - base self <=? len (str self))) with true
    by (symmetry; rewrite !andb_true_iff, !Z.leb_le; lia).
  eexists. eexists. split; [reflexivity|]. split; [reflexivity|]. f_equal.
  set (l := skipn (Z.to_nat (a - base self)) (str self)).
  replace (skipn (Z.to_nat (b - base self)) (str self))
    with (skipn (Z.to_nat (b - a)) l)
    by (unfold l; rewrite skipn_skipn; f_equal; lia).
  replace (Z.to_nat (c - base self - (a - base self)))
    with (Z.to_nat (b - a) + Z.to_nat (c - b))%nat by lia.
  replace (b - base self - (a - base self)) with (b - a) by lia.
  replace (c - base self - (b - base self)) with (c - b) by lia.
  rewrite firstn_plus. reflexivity.
Qed.

End SliceFacts.

(** *** Positions along the source *)

(** The byte before the end of [l] is a [\r] ([afterCR] when [l] is
    empty). *)
Fixpoint lastIsCR (afterCR : bool) (l : gostring) : bool :=
  match l with
  | [] => afterCR
  | b :: l' => lastIsCR (byteZ b =? 13) l'
  end.

(** [l] ends with the bytes E2 80, the first two of U+2028 and U+2029. *)
Fixpoint endsE280 (l : gostring) : bool :=
  match l with
  | [] => false
  | b0 :: l' =>
    match l' with
    | [] => false
    | [b1] => (byteZ b0 =? 226) && (byteZ b1 =? 128)
    | _ => endsE280 l'
    end
  end.

(** The byte [b] after [l] ends a line terminator. *)
Definition endsTerminator (afterCR : bool) (l : gostring) (b : ascii) : bool :=
  (byteZ b =? 13) || ((byteZ b =? 10) && negb (lastIsCR afterCR l))
  || (endsE280 l && ((byteZ b =? 168) || (byteZ b =? 169))).

(** The byte [b] after [l] is the last byte of a line terminator or of
    its second half. *)
Definition endsLine (l : gostring) (b : ascii) : bool :=
  (byteZ b =? 13) || (byteZ b =? 10)
  || (endsE280 l && ((byteZ b =? 168) || (byteZ b =? 169))).

Ltac beq_cases :=
  repeat match goal with
         | |- context [?a =? ?b] =>
           let E := fresh "E" in destruct (Z.eqb_spec a b) as [E | E]
         end.

Lemma spec_lineTerminators_snoc l : forall afterCR b,
  spec_lineTerminators afterCR (l ++ [b])
  = spec_lineTerminators afterCR l + (if endsTerminator afterCR l b then 1 else 0).
Proof.
  induction l as [|x l IH]; intros afterCR b.
  - unfold endsTerminator. cbn [app spec_lineTerminators spec_terminatorAt
                                 startsLSPS lastIsCR endsE280 andb].
    rewrite !orb_false_r. lia.
  - cbn [app spec_lineTerminators]. rewrite IH.
    unfold endsTerminator. cbn [lastIsCR].
    destruct l as [|b1 [|b2 l]].
    + cbn [app spec_terminatorAt startsLSPS endsE280 andb]. lia.
    + cbn [app spec_terminatorAt startsLSPS endsE280 spec_lineTerminators lastIsCR].
      beq_cases; cbn [andb orb negb]; try lia;
        destruct afterCR; cbn [andb orb negb]; lia.
    + assert (E : endsE280 (x :: b1 :: b2 :: l) = endsE280 (b1 :: b2 :: l))
        by reflexivity.
      rewrite E. generalize (endsE280 (b1 :: b2 :: l)). intros e.
      cbn [app spec_terminatorAt startsLSPS]. lia.
Qed.

Lemma spec_lineStart_snoc l : forall b index start,
  spec_lineStart (l ++ [b]) index start
  = if endsLine l b then index + len l + 1 else spec_lineStart l index start.
Proof.
  induction l as [|x l IH]; intros b index start.
  - unfold endsLine. cbn [app spec_lineStart startsLSPS endsE280 andb].
    change (len (@nil ascii)) with 0. rewrite orb_false_r.
    destruct ((byteZ b =? 13) || (byteZ b =? 10)); [lia | reflexivity].
  - cbn [app spec_lineStart]. rewrite IH, len_cons.
    unfold endsLine.
    destruct l as [|b1 [|b2 l]].
    + cbn [app startsLSPS endsE280 andb spec_lineStart]. rewrite orb_false_r.
      change (len (@nil ascii)) with 0.
      destruct ((byteZ b =? 13) || (byteZ b =? 10)); [lia | reflexivity].
    + cbn [app startsLSPS endsE280 spec_lineStart].
      change (len [b1]) with 1.
      beq_cases; cbn [andb orb]; try lia; try reflexivity.
    + assert (E : endsE280 (x :: b1 :: b2 :: l) = endsE280 (b1 :: b2 :: l))
        by reflexivity.
      rewrite E. generalize (endsE280 (b1 :: b2 :: l)). intros e.
      cbn [app startsLSPS].
      destruct ((byteZ b =? 13) || (byteZ b =? 10)
                || e && ((byteZ b =? 168) || (byteZ b =? 169)));
        [lia | reflexivity].
Qed.

Lemma firstn_snoc (l : gostring) (n : nat) :
  (n < List.length l)%nat -> firstn (S n) l = firstn n l ++ [nth n l zero].
Proof.
  revert l. induction n as [|n IH]; intros l Hn;
    (destruct l as [|x l]; [simpl in Hn; lia|]).
  - reflexivity.
  - cbn [firstn nth app]. f_equal. apply IH. simpl in Hn. lia.
Qed.

Lemma lastIsCR_snoc l : forall afterCR b,
  lastIsCR afterCR (l ++ [b]) = (byteZ b =? 13).
Proof.
  induction l as [|x l IH]; intros afterCR b; [reflexivity|].
  cbn [app lastIsCR]. apply IH.
Qed.

Lemma endsE280_snoc2 l b0 b1 :
  endsE280 (l ++ [b0; b1]) = (byteZ b0 =? 226) && (byteZ b1 =? 128).
Proof.
  induction l as [|x l IH]; [reflexivity|].
  cbn [app]. destruct l as [|y l]; [reflexivity|].
  cbn [app] in *. cbn [endsE280] in *.
  destruct (l ++ [b0; b1]) eqn:E; [destruct l; discriminate|].
  exact IH.
Qed.

Lemma endsE280_short l : (List.length l < 2)%nat -> endsE280 l = false.
Proof. destruct l as [|x [|y l]]; simpl; intros; try reflexivity; lia. Qed.

Lemma lastIsCR_firstn (l : gostring) (n : nat) :
  (n <= List.length l)%nat ->
  lastIsCR false (firstn n l)
  = (0 <? Z.of_nat n) && (byteAt l (Z.of_nat n - 1) =? 13).
Proof.
  intros Hn. destruct n as [|k]; [reflexivity|].
  rewrite firstn_snoc by lia. rewrite lastIsCR_snoc.
  replace (0 <? Z.of_nat (S k)) with true by (symmetry; apply Z.ltb_lt; lia).
  unfold byteAt. replace (Z.to_nat (Z.of_nat (S k) - 1)) with k by lia.
  reflexivity.
Qed.

Lemma endsE280_firstn (l : gostring) (n : nat) :
  (n <= List.length l)%nat ->
  endsE280 (firstn n l)
  = (2 <=? Z.of_nat n) && (byteAt l (Z.of_nat n - 2) =? 226)
    && (byteAt l (Z.of_nat n - 1) =? 128).
Proof.
  intros Hn. destruct n as [|[|k]].
  - reflexivity.
  - rewrite endsE280_short; [reflexivity|]. rewrite length_firstn. lia.
  - rewrite (firstn_snoc l (S k)) by lia. rewrite (firstn_snoc l k) by lia.
    rewrite <- app_assoc. cbn [app]. rewrite endsE280_snoc2.
    replace (2 <=? Z.of_nat (S (S k))) with true by (symmetry; apply Z.leb_le; lia).
    unfold byteAt.
    replace (Z.to_nat (Z.of_nat (S (S k)) - 2)) with k by lia.
    replace (Z.to_nat (Z.of_nat (S (S k)) - 1)) with (S k) by lia.
    reflexivity.
Qed.

Lemma spec_lineStart_nonneg l : forall index start,
  0 <= index -> 0 <= start -> 0 <= spec_lineStart l index start.
Proof.
  induction l as [|b l IH]; intros index start Hi Hs; [exact Hs|].
  cbn [spec_lineStart]. apply IH; [lia|].
  destruct ((byteZ b =? 13) || (byteZ b =? 10)); [lia|].
  destruct (startsLSPS (b :: l)); lia.
Qed.

Section PositionSteps.

Context {Scope : Type}.

(** [position] in terms of the bytes before the index. *)
Lemma position_bytes (self : @_parser Scope) (idx : Z) :
  let offset := idx - base self in
  0 <= offset <= len (str self) ->
  position self idx
  = Some (mkPosition (filename self)
                     (1 + spec_lineTerminators false (before self offset))
                     (offset - spec_lineStart (before self offset) 0 0 + 1)).
Proof.
  intros offset Ho. unfold position. fold offset. unfold slice.
  replace ((0 <=? 0) && (0 <=? offset) && (offset <=? len (str self))) with true
    by (symmetry; rewrite !andb_true_iff, !Z.leb_le; lia).
  rewrite Z.sub_0_r. cbn [skipn Z.to_nat]. fold (before self offset).
  assert (Hlen : len (before self offset) = offset).
  { unfold before, len. rewrite length_firstn. unfold len in Ho. lia. }
  rewrite lineCount_bytes, Hlen.
  pose proof (spec_lineStart_nonneg (before self offset) 0 0 ltac:(lia) ltac:(lia)).
  rewrite Z.geb_leb.
  destruct (Z.leb_spec 0 (spec_lineStart (before self offset) 0 0 - 1));
    do 2 f_equal; lia.
Qed.

Lemma position_defined (self : @_parser Scope) (idx : Z) :
  (position self idx = None <-> ~ (base self <= idx <= base self + len (str self))).
Proof.
  unfold position, slice.
  destruct ((0 <=? 0) && (0 <=? idx - base self)
            && (idx - base self <=? len (str self))) eqn:E.
  - apply andb_true_iff in E. destruct E as [E E2].
    apply andb_true_iff in E. destruct E as [_ E1].
    apply Z.leb_le in E1, E2.
    destruct (lineCount _) as [line last]. split; [discriminate | lia].
  - split; [|reflexivity]. intros _.
    rewrite !andb_false_iff, !Z.leb_gt in E. lia.
Qed.

(** X15. [position] is defined for the indexes of the source, the one
    just after its last byte included, and panics for every other index;
    the first index of the source is at line 1, column 1. *)
Theorem position_in_range (self : @_parser Scope) (idx : Z) :
  (position self idx = None <-> ~ (base self <= idx <= base self + len (str self))) /\
  (position self (base self)
   = Some (mkPosition (filename self) 1 1)).
Proof.
  split.
  - apply position_defined.
  - rewrite position_bytes by (rewrite Z.sub_diag; pose proof (len_nonneg (str self)); lia).
    rewrite Z.sub_diag. unfold before. cbn [Z.to_nat firstn spec_lineTerminators spec_lineStart].
    reflexivity.
Qed.

(** X16. One byte further in the source, the position either moves one
    column to the right or starts a line at column 1.  The line number
    grows by one after a [\r], after a [\n] that does not follow a [\r],
    and after the last byte of U+2028 or U+2029 (E2 80 A8, E2 80 A9);
    after the [\n] of a [\r\n] pair the line stays and the column is 1
    again. *)
Theorem position_step (self : @_parser Scope) (idx : Z) :
  let offset := idx - base self in
  0 <= offset < len (str self) ->
  let b := byteAt (str self) offset in
  let afterCR := (0 <? offset) && (byteAt (str self) (offset - 1) =? 13) in
  let lsps := (2 <=? offset) && (byteAt (str self) (offset - 2) =? 226)
              && (byteAt (str self) (offset - 1) =? 128)
              && ((b =? 168) || (b =? 169)) in
  exists p p',
    position self idx = Some p /\ position self (idx + 1) = Some p' /\
    Line p' = Line p + (if (b =? 13) || ((b =? 10) && negb afterCR) || lsps
                        then 1 else 0) /\
    Column p' = (if (b =? 13) || (b =? 10) || lsps then 1 else Column p + 1).
Proof.
  intros offset Ho b afterCR lsps.
  rewrite (position_bytes self idx) by (fold offset; lia).
  rewrite (position_bytes self (idx + 1)) by lia.
  fold offset. replace (idx + 1 - base self) with (offset + 1) by (unfold offset; lia).
  eexists. eexists. split; [reflexivity|]. split; [reflexivity|].
  cbn [Line Column].
  assert (Hn : (Z.to_nat offset < List.length (str self))%nat)
    by (unfold len in Ho; lia).
  assert (Hb : before self (offset + 1)
               = before self offset ++ [nth (Z.to_nat offset) (str self) zero]).
  { unfold before. replace (Z.to_nat (offset + 1)) with (S (Z.to_nat offset)) by lia.
    apply firstn_snoc. exact Hn. }
  assert (Hlen : len (before self offset) = offset).
  { unfold before, len. rewrite length_firstn. lia. }
  assert (Hcr : lastIsCR false (before self offset) = afterCR).
  { unfold before. rewrite lastIsCR_firstn by lia.
    rewrite Z2Nat.id by lia. reflexivity. }
  assert (He : endsE280 (before self offset)
               = (2 <=? offset) && (byteAt (str self) (offset - 2) =? 226)
                 && (byteAt (str self) (offset - 1) =? 128)).
  { unfold before. rewrite endsE280_firstn by lia.
    rewrite Z2Nat.id by lia. reflexivity. }
  rewrite Hb, spec_lineTerminators_snoc, spec_lineStart_snoc.
  unfold endsTerminator, endsLine. rewrite Hcr, He, Hlen.
  fold (byteAt (str self) offset). fold b. fold lsps.
  split; [lia|].
  destruct ((b =? 13) || (b =? 10) || lsps); lia.
Qed.

Lemma lineTerminators_prefix (l : gostring) (n k : nat) :
  (n + k <= List.length l)%nat ->
  spec_lineTerminators false (firstn n l)
  <= spec_lineTerminators false (firstn (n + k) l).
Proof.
  induction k as [|k IH]; intros H; [rewrite Nat.add_0_r; lia|].
  replace (n + S k)%nat with (S (n + k)) by lia.
  rewrite (firstn_snoc l (n + k)) by lia.
  rewrite spec_lineTerminators_snoc.
  specialize (IH ltac:(lia)).
  destruct (endsTerminator _ _ _); lia.
Qed.

(** X17. Positions do not go back: of two indexes of the source the later
    one is never on an earlier line. *)
Theorem position_line_monotone (self : @_parser Scope) (idx1 idx2 : Z) :
  base self <= idx1 -> idx1 <= idx2 -> idx2 <= base self + len (str self) ->
  exists p1 p2,
    position self idx1 = Some p1 /\ position self idx2 = Some p2 /\
    Line p1 <= Line p2.
Proof.
  intros H1 H12 H2.
  rewrite (position_bytes self idx1) by lia.
  rewrite (position_bytes self idx2) by lia.
  eexists. eexists. split; [reflexivity|]. split; [reflexivity|].
  cbn [Line]. unfold before.
  replace (Z.to_nat (idx2 - base self))
    with (Z.to_nat (idx1 - base self) + Z.to_nat (idx2 - idx1))%nat by lia.
  pose proof (lineTerminators_prefix (str self) (Z.to_nat (idx1 - base self))
                (Z.to_nat (idx2 - idx1)) ltac:(unfold len in H2; lia)).
  lia.
Qed.

End PositionSteps.

(** *** Recording an error *)

Section RecordFacts.

Context {Scope : Type}.

(** The index [error] takes the position of: [file.Idx(0)] stands for the
    current character. *)
Definition errorIdx (self : @_parser Scope) (pl : place) : option Z :=
  match pl with
  | place_int offset => Some (base self + offset)
  | place_Idx idx => Some (if idx =? 0 then base self + chrOffset self else idx)
  | place_other => None
  end.

(** X18. [error] appends exactly one error to the list and touches
    nothing else, so the first error of a non-empty list stays the first;
    the error carries the message and the position of the place, where
    [file.Idx(0)] means the current character.  It panics when the place
    is neither an [int] nor a [file.Idx], and when the index is outside
    the source. *)
Theorem error_appends (self : @_parser Scope) (pl : place) (message : gostring) :
  (error self pl message = None <->
   match errorIdx self pl with
   | Some idx => ~ (base self <= idx <= base self + len (str self))
   | None => True
   end) /\
  (forall err self',
      error self pl message = Some (err, self') ->
      errors self' = errors self ++ [err] /\
      Message err = message /\
      (exists idx, errorIdx self pl = Some idx
                   /\ position self idx = Some (Position_ err)) /\
      (errors self <> [] -> hd_error (errors self') = hd_error (errors self)) /\
      (filename self', str self', length self', base self')
      = (filename self, str self, length self, base self) /\
      (chr self', chrOffset self', offset self', idx self', token self', literal self')
      = (chr self, chrOffset self, offset self, idx self, token self, literal self) /\
      (scope self', insertSemicolon self', implicitSemicolon self', recover self')
      = (scope self, insertSemicolon self, implicitSemicolon self, recover self)).
Proof.
  assert (Hrun : error self pl message
                 = (idx0 <- errorIdx self pl ;;
                    position0 <- position self idx0 ;;
                    Some (mkError message position0,
                          mkParser (filename self) (str self) (length self) (base self)
                                   (chr self) (chrOffset self) (offset self) (idx self)
                                   (token self) (literal self) (scope self)
                                   (insertSemicolon self) (implicitSemicolon self)
                                   (errors self ++ [mkError message position0])
                                   (recover self)))).
  { unfold error, errorIdx, idxOf. destruct pl as [o | i |]; try reflexivity.
    destruct (i =? 0); reflexivity. }
  rewrite Hrun. split.
  - destruct (errorIdx self pl) as [idx0|]; [|tauto].
    pose proof (position_defined self idx0) as Hp.
    destruct (position self idx0) as [p|]; [|tauto].
    split; [discriminate|]. intros H. apply Hp in H. discriminate.
  - intros err self' H.
    destruct (errorIdx self pl) as [idx0|]; [|discriminate].
    destruct (position self idx0) as [p|] eqn:Ep; [|discriminate].
    inversion H; subst. cbn.
    split; [reflexivity|]. split; [reflexivity|].
    split; [exists idx0; auto|].
    split; [|auto].
    intros Hne. destruct (errors self); [congruence | reflexivity].
Qed.

End RecordFacts.


(** *** Runs *)

(** The parser as the scanner leaves it at the end of the source. *)
Definition atEndOfInput (self : @_parser unit) : @_parser unit :=
  mkParser (filename self) (str self) (length self) (base self)
           (-1) (length self) (length self) (idx self) (token self)
           (literal self) (scope self) (insertSemicolon self)
           (implicitSemicolon self) (errors self) (recover self).

Definition exampleError : option (Error * @_parser unit) :=
  error (atEndOfInput (_newParser (bytes "a.js") (bytes "var") 1))
        (place_Idx 0) (bytes "Unexpected end of input").

Lemma Error_rendering_anonymous_witness :
  exists err self',
    exampleError = Some (err, self') /\
    Error_Error err = bytes "(anonymous): Line 1:4 Unexpected end of input".
Proof.
  destruct exampleError as [[err self']|] eqn:E; [|vm_compute in E; discriminate].
  exists err, self'. split; [reflexivity|].
  assert (Hf : filename (atEndOfInput (_newParser (bytes "a.js") (bytes "var") 1))
               = filename (@_newParser unit (bytes "a.js") (bytes "var") 1))
    by reflexivity.
  destruct (Error_rendering_anonymous (bytes "a.js") (bytes "var") 1
              _ self' (place_Idx 0) (bytes "Unexpected end of input") err Hf E)
    as (_ & ->).
  vm_compute in E. inversion E. reflexivity.
Defined.

Lemma position_line_column_witness :
  let self := @_newParser unit [] (bytes "ab" ++ [ascii_of_nat 13; ascii_of_nat 10] ++ bytes "cd") 1 in
  0 <= 6 - base self <= len (str self) /\
  exists pos, position self 6 = Some pos /\ Line pos = 2 /\ Column pos = 2.
Proof.
  intros self.
  assert (H : 0 <= 6 - base self <= len (str self)) by (vm_compute; split; discriminate).
  split; [exact H|].
  destruct (position_line_column self 6 H) as (pos & Hp & _ & Hl & Hc & _).
  exists pos. split; [exact Hp|]. rewrite Hl, Hc. split; reflexivity.
Defined.

(** A parser on the source [ab\r\ncd], with base 1. *)
Definition exampleSource : @_parser unit :=
  _newParser [] (bytes "ab" ++ [ascii_of_nat 13; ascii_of_nat 10] ++ bytes "cd") 1.

Lemma slice_bounds_witness :
  0 <= 2 - base exampleSource <= 5 - base exampleSource /\
  5 - base exampleSource <= len (str exampleSource) /\
  exists bs, slice_ exampleSource 2 5 = Some bs /\ len bs = 5 - 2 /\
             str exampleSource
             = firstn (Z.to_nat (2 - base exampleSource)) (str exampleSource) ++ bs
               ++ skipn (Z.to_nat (5 - base exampleSource)) (str exampleSource).
Proof.
  assert (H1 : 0 <= 2 - base exampleSource <= 5 - base exampleSource)
    by (vm_compute; split; discriminate).
  assert (H2 : 5 - base exampleSource <= len (str exampleSource))
    by (vm_compute; discriminate).
  split; [exact H1|]. split; [exact H2|].
  exact (proj1 (slice_bounds exampleSource 2 5) H1 H2).
Defined.

Lemma slice_join_witness :
  base exampleSource <= 1 /\ 1 <= 3 /\ 3 <= 7 /\
  7 <= base exampleSource + len (str exampleSource) /\
  exists x y,
    slice_ exampleSource 1 3 = Some x /\ slice_ exampleSource 3 7 = Some y /\
    slice_ exampleSource 1 7 = Some (x ++ y).
Proof.
  assert (H1 : base exampleSource <= 1) by (vm_compute; discriminate).
  assert (H2 : 1 <= 3) by lia.
  assert (H3 : 3 <= 7) by lia.
  assert (H4 : 7 <= base exampleSource + len (str exampleSource))
    by (vm_compute; discriminate).
  split; [exact H1|]. split; [exact H2|]. split; [exact H3|]. split; [exact H4|].
  exact (slice_join exampleSource 1 3 7 H1 H2 H3 H4).
Defined.

Lemma position_in_range_witness :
  ~ (base exampleSource <= 9 <= base exampleSource + len (str exampleSource)) /\
  position exampleSource 9 = None.
Proof.
  assert (H : ~ (base exampleSource <= 9
                 <= base exampleSource + len (str exampleSource)))
    by (vm_compute; intros [_ H]; apply H; reflexivity).
  split; [exact H|].
  exact (proj2 (proj1 (position_in_range exampleSource 9)) H).
Defined.

Lemma position_step_witness :
  0 <= 4 - base exampleSource < len (str exampleSource) /\
  exists p p',
    position exampleSource 4 = Some p /\ position exampleSource 5 = Some p' /\
    Line p' = Line p /\ Column p' = 1.
Proof.
  assert (H : 0 <= 4 - base exampleSource < len (str exampleSource))
    by (vm_compute; split; [discriminate | reflexivity]).
  split; [exact H|].
  destruct (position_step exampleSource 4 H) as (p & p' & Hp & Hp' & Hl & Hc).
  exists p, p'. split; [exact Hp|]. split; [exact Hp'|].
  split; [rewrite Hl; apply Z.add_0_r | exact Hc].
Defined.

Lemma position_line_monotone_witness :
  base exampleSource <= 2 /\ 2 <= 6 /\
  6 <= base exampleSource + len (str exampleSource) /\
  exists p1 p2,
    position exampleSource 2 = Some p1 /\ position exampleSource 6 = Some p2 /\
    Line p1 <= Line p2.
Proof.
  assert (H1 : base exampleSource <= 2) by (vm_compute; discriminate).
  assert (H2 : 2 <= 6) by lia.
  assert (H3 : 6 <= base exampleSource + len (str exampleSource))
    by (vm_compute; discriminate).
  split; [exact H1|]. split; [exact H2|]. split; [exact H3|].
  exact (position_line_monotone exampleSource 2 6 H1 H2 H3).
Defined.

Lemma error_appends_witness :
  exists err self',
    exampleError = Some (err, self') /\
    errors self' = [err] /\ Message err = bytes "Unexpected end of input" /\
    Position_ err = mkPosition [] 1 4.
Proof.
  destruct exampleError as [[err self']|] eqn:E; [|vm_compute in E; discriminate].
  exists err, self'. split; [reflexivity|].
  destruct (proj2 (error_appends
                     (atEndOfInput (_newParser (bytes "a.js") (bytes "var") 1))
                     (place_Idx 0) (bytes "Unexpected end of input"))
                  err self' E) as (He & Hm & (idx0 & Hi & Hp) & _).
  split; [exact He|]. split; [exact Hm|].
  vm_compute in Hi. inversion Hi; subst idx0.
  assert (Hq : position (atEndOfInput (_newParser (bytes "a.js") (bytes "var") 1)) 4
               = Some (mkPosition [] 1 4)) by reflexivity.
  rewrite Hq in Hp. inversion Hp. reflexivity.
Defined.


End ParserFacts.
